(** * Memory-management simulators of [memoryman.py]

    A shallow embedding of the five allocation engines
    ([FixedSizedPartitioning], [UnequalSizedPartitioning],
    [DynamicMemoryAllocation], [BuddySystem], [Paging]) and the
    verification of their documented properties.

    Python integers are [Z]; [None]-able slots are [option Z]; lists are
    lists; the two dictionaries (the buddy free structure and the page
    table) are [gmap]s, their insertion order, which only [display]
    observes, being left out.  A call that returns is [Ok v], a call that
    raises is [Raise e]; the two [while] loops of the buddy system are
    unrolled up to a bound computed from their arguments, and shown never
    to pass it. *)

From Stdlib Require Import ZArith List Lia.
From stdpp Require Import base numbers option list sorting gmap strings.

Local Open Scope Z_scope.

(** ** Python primitives *)

Module Py.

Inductive exn : Type :=
| ZeroDivisionError
| IndexError
| KeyError
| ValueError
| TypeError.

(** [Fuel] is not a Python outcome: it marks a [while] loop whose bounded
    unrolling ran out.  The totality lemmas show it never occurs. *)
Inductive res (A : Type) : Type :=
| Ok (a : A)
| Raise (e : exn)
| Fuel.
Global Arguments Ok {A} a.
Global Arguments Raise {A} e.
Global Arguments Fuel {A}.

Definition bind {A B : Type} (m : res A) (k : A → res B) : res B :=
  match m with
  | Ok a => k a
  | Raise e => Raise e
  | Fuel => Fuel
  end.

End Py.

Import Py.

Notation "'let*' x := m 'in' k" := (Py.bind m (fun x => k))
  (at level 10, x pattern, m at level 100, k at level 200, only parsing).

Module PyOps.

(** [a // b]: floor division; raises on a zero divisor. *)
Definition floordiv (a b : Z) : res Z :=
  if b =? 0 then Raise ZeroDivisionError else Ok (a / b).

(** [range(n)]: [0, 1, ..., n-1], empty when [n <= 0]. *)
Definition range (n : Z) : list Z := seqZ 0 n.

(** [len(l)]. *)
Definition len {A : Type} (l : list A) : Z := Z.of_nat (length l).

(** A subscript counted from the end when negative; [None] when out of
    range. *)
Definition index {A : Type} (l : list A) (i : Z) : option nat :=
  let i := if i <? 0 then i + len l else i in
  if (i <? 0) || (len l <=? i) then None else Some (Z.to_nat i).

(** [l[i]] *)
Definition getitem {A : Type} (l : list A) (i : Z) : res A :=
  match index l i with
  | Some n => match l !! n with Some x => Ok x | None => Raise IndexError end
  | None => Raise IndexError
  end.

(** [l[i] = x] *)
Definition setitem {A : Type} (l : list A) (i : Z) (x : A) : res (list A) :=
  match index l i with
  | Some n => Ok (<[n := x]> l)
  | None => Raise IndexError
  end.

(** [l.pop(i)], keeping only the remaining list. *)
Definition pop {A : Type} (l : list A) (i : Z) : res (list A) :=
  match index l i with
  | Some n => Ok (delete n l)
  | None => Raise IndexError
  end.

(** [l[start:stop]] *)
Definition slice {A : Type} (l : list A) (start stop : Z) : list A :=
  let clamp k := if k <? 0 then Z.max (k + len l) 0 else Z.min k (len l) in
  take (Z.to_nat (clamp stop - clamp start)) (drop (Z.to_nat (clamp start)) l).

(** [l.remove(x)]: drops the first occurrence. *)
Fixpoint remove (x : Z) (l : list Z) : res (list Z) :=
  match l with
  | [] => Raise ValueError
  | y :: l' => if y =? x then Ok l' else let* l'' := remove x l' in Ok (y :: l'')
  end.

(** [p is None] *)
Definition is_None (p : option Z) : bool :=
  match p with None => true | Some _ => false end.

(** [p == process_id] for a slot [p] that is [None] or an integer. *)
Definition eq_pid (p : option Z) (process_id : Z) : bool :=
  match p with Some q => q =? process_id | None => false end.

(** [x.bit_length()] *)
Definition bit_length (x : Z) : Z :=
  if x =? 0 then 0 else Z.log2 (Z.abs x) + 1.

(** The loop shared by the two partition engines' [deallocate]:
    [for i in range(len(l)): if l[i] == process_id: l[i] = None]. *)
Fixpoint clear_loop (process_id : Z) (todo : list Z) (l : list (option Z))
    : res (list (option Z)) :=
  match todo with
  | [] => Ok l
  | i :: todo' =>
      let* p := getitem l i in
      if eq_pid p process_id then
        let* l' := setitem l i None in clear_loop process_id todo' l'
      else clear_loop process_id todo' l
  end.

(** What that loop computes: every slot holding [process_id] becomes
    [None], the others are kept. *)
Definition cleared (process_id : Z) (l : list (option Z)) : list (option Z) :=
  (λ p, if eq_pid p process_id then None else p) <$> l.

End PyOps.

Import PyOps.

(** ** Fixed-size partitioning *)

Module Fixed.

Record t : Type := mk {
  memory_size : Z;
  partition_size : Z;
  partitions : list (option Z)
}.

Definition with_partitions (self : t) (ps : list (option Z)) : t :=
  mk (memory_size self) (partition_size self) ps.

(** [__init__] *)
Definition init (memory_size partition_size : Z) : res t :=
  let* n := floordiv memory_size partition_size in
  Ok (mk memory_size partition_size (replicate (Z.to_nat n) None)).

(** [for j in range(partitions_needed): self.partitions[i + j] = process_id] *)
Fixpoint tag (process_id i : Z) (js : list Z) (ps : list (option Z))
    : res (list (option Z)) :=
  match js with
  | [] => Ok ps
  | j :: js' => let* ps' := setitem ps (i + j) (Some process_id) in tag process_id i js' ps'
  end.

(** The window search of [allocate]. *)
Fixpoint scan (self : t) (process_id partitions_needed : Z) (todo : list Z)
    : res (bool * t) :=
  match todo with
  | [] => Ok (false, self)
  | i :: todo' =>
      if forallb is_None (slice (partitions self) i (i + partitions_needed)) then
        let* ps := tag process_id i (range partitions_needed) (partitions self) in
        Ok (true, with_partitions self ps)
      else scan self process_id partitions_needed todo'
  end.

Definition allocate (self : t) (process_id size : Z) : res (bool * t) :=
  let* partitions_needed := floordiv (size + partition_size self - 1) (partition_size self) in
  scan self process_id partitions_needed
       (range (len (partitions self) - partitions_needed + 1)).

Definition deallocate (self : t) (process_id : Z) : res t :=
  let* ps := clear_loop process_id (range (len (partitions self))) (partitions self) in
  Ok (with_partitions self ps).

(** Partitions [i, i+n) exist and are all free. *)
Definition window_free (ps : list (option Z)) (i n : Z) : Prop :=
  0 ≤ i ∧ i + n ≤ len ps ∧
  ∀ j, i ≤ j < i + n → ps !! Z.to_nat j = Some None.

(** [i] is the lowest index of such a window. *)
Definition leftmost_window (ps : list (option Z)) (i n : Z) : Prop :=
  window_free ps i n ∧ ∀ i', i' < i → ¬ window_free ps i' n.

(** [ps] with partitions [i, i+n) tagged [process_id], the others kept. *)
Definition tagged (ps : list (option Z)) (i n process_id : Z) : list (option Z) :=
  take (Z.to_nat i) ps ++ replicate (Z.to_nat n) (Some process_id)
    ++ drop (Z.to_nat (i + n)) ps.

End Fixed.

(** ** Unequal-size partitioning *)

Module Unequal.

Record t : Type := mk {
  partitions : list Z;
  allocated : list (option Z)
}.

(** [__init__] *)
Definition init (partitions : list Z) : t :=
  mk partitions (replicate (length partitions) None).

(** [self.allocated[i] is None and self.partitions[i] >= size] *)
Definition fits (self : t) (size i : Z) : res bool :=
  let* a := getitem (allocated self) i in
  if is_None a then let* p := getitem (partitions self) i in Ok (p >=? size)
  else Ok false.

Fixpoint first_fit_loop (self : t) (size : Z) (todo : list Z) : res (option Z) :=
  match todo with
  | [] => Ok None
  | i :: todo' =>
      let* ok := fits self size i in
      if ok then Ok (Some i) else first_fit_loop self size todo'
  end.

(** The [best_fit] and [worst_fit] loops differ in one comparison:
    [better new old] is [new < old], respectively [new > old]. *)
Fixpoint extremum_loop (better : Z → Z → bool) (self : t) (size : Z)
    (todo : list Z) (best_index best_size : option Z) : res (option Z) :=
  match todo with
  | [] => Ok best_index
  | i :: todo' =>
      let* ok := fits self size i in
      if ok then
        let* p := getitem (partitions self) i in
        if match best_size with None => true | Some b => better p b end
        then extremum_loop better self size todo' (Some i) (Some p)
        else extremum_loop better self size todo' best_index best_size
      else extremum_loop better self size todo' best_index best_size
  end.

Definition _find_partition (self : t) (size : Z) (strategy : string)
    : res (option Z) :=
  let todo := range (len (partitions self)) in
  if String.eqb strategy "first_fit" then first_fit_loop self size todo
  else if String.eqb strategy "best_fit" then
    extremum_loop Z.ltb self size todo None None
  else if String.eqb strategy "worst_fit" then
    extremum_loop Z.gtb self size todo None None
  else Ok None.

Definition allocate (self : t) (process_id size : Z) (strategy : string)
    : res (bool * t) :=
  let* index := _find_partition self size strategy in
  match index with
  | Some index =>
      let* al := setitem (allocated self) index (Some process_id) in
      Ok (true, mk (partitions self) al)
  | None => Ok (false, self)
  end.

Definition deallocate (self : t) (process_id : Z) : res t :=
  let* al := clear_loop process_id (range (len (allocated self))) (allocated self) in
  Ok (mk (partitions self) al).

(** Commands of a session and their execution. *)
Inductive op : Type :=
| Allocate (process_id size : Z) (strategy : string)
| Deallocate (process_id : Z).

Definition step (self : t) (o : op) : res t :=
  match o with
  | Allocate p size strategy => let* r := allocate self p size strategy in Ok r.2
  | Deallocate p => deallocate self p
  end.

Fixpoint run (self : t) (ops : list op) : res t :=
  match ops with
  | [] => Ok self
  | o :: ops' => let* s := step self o in run s ops'
  end.

(** Partition [i] is free and large enough. *)
Definition candidate (self : t) (size : Z) (i : nat) : Prop :=
  allocated self !! i = Some None ∧
  ∃ p, partitions self !! i = Some p ∧ size ≤ p.

(** What [best_fit] is to select: a candidate of least size, the lowest
    index among those of that size. *)
Definition best_candidate (self : t) (size : Z) (i : nat) : Prop :=
  candidate self size i ∧
  ∀ j, candidate self size j →
    ∀ p q, partitions self !! i = Some p → partitions self !! j = Some q →
      p ≤ q ∧ (q = p → (i ≤ j)%nat).

(** The loop invariant of [best_fit]: the running best is the least
    candidate, lowest index first, among the indices below [k]. *)
Definition best_below (self : t) (size : Z) (k : nat) (best_index : option Z) : Prop :=
  match best_index with
  | None => ∀ j, (j < k)%nat → ¬ candidate self size j
  | Some i =>
      0 ≤ i ∧ (Z.to_nat i < k)%nat ∧ candidate self size (Z.to_nat i) ∧
      ∀ j, (j < k)%nat → candidate self size j →
        ∀ p q, partitions self !! Z.to_nat i = Some p → partitions self !! j = Some q →
          p ≤ q ∧ (q = p → (Z.to_nat i ≤ j)%nat)
  end.

End Unequal.

(** ** Dynamic allocation with coalescing *)

Module Dynamic.

(** [(start, size, process_id)] *)
Definition block : Type := Z * Z * option Z.

Definition start (b : block) : Z := b.1.1.
Definition size (b : block) : Z := b.1.2.
Definition pid (b : block) : option Z := b.2.

Record t : Type := mk {
  memory_size : Z;
  memory : list block
}.

(** [__init__] *)
Definition init (memory_size : Z) : t :=
  mk memory_size [(0, memory_size, None)].

(** [a < b] on the tuples: the first differing component decides, and an
    integer process id against [None] raises. *)
Definition block_lt (a b : block) : res bool :=
  if start a =? start b then
    if size a =? size b then
      match pid a, pid b with
      | None, None => Ok false
      | Some p, Some q => Ok (p <? q)
      | _, _ => Raise TypeError
      end
    else Ok (size a <? size b)
  else Ok (start a <? start b).

(** [list.sort()] / [sorted()], as a stable insertion sort that places
    each element after those it is not smaller than.  On the lists the
    engine builds from validated requests the starts are pairwise
    distinct, the order is decided by [start] alone and the result is the
    one of any sort; which pair raises on other lists follows this
    insertion order. *)
Fixpoint insert_sorted (x : block) (l : list block) : res (list block) :=
  match l with
  | [] => Ok [x]
  | y :: l' =>
      let* lt := block_lt x y in
      if lt then Ok (x :: y :: l')
      else let* l'' := insert_sorted x l' in Ok (y :: l'')
  end.

Fixpoint sort_into (acc : list block) (l : list block) : res (list block) :=
  match l with
  | [] => Ok acc
  | x :: l' => let* acc' := insert_sorted x acc in sort_into acc' l'
  end.

Definition sorted (l : list block) : res (list block) := sort_into [] l.

(** [pid is None and block_size >= size] *)
Definition fits (b : block) (sz : Z) : bool :=
  is_None (pid b) && (size b >=? sz).

(** The loops of [_find_block] over [enumerate(self.memory)], [i] being
    the index of the head of [todo]. *)
Fixpoint first_fit_loop (sz : Z) (i : Z) (todo : list block) : option Z :=
  match todo with
  | [] => None
  | b :: todo' =>
      if fits b sz then Some i else first_fit_loop sz (i + 1) todo'
  end.

Fixpoint extremum_loop (better : Z → Z → bool) (sz : Z) (i : Z)
    (todo : list block) (best_index best_size : option Z) : option Z :=
  match todo with
  | [] => best_index
  | b :: todo' =>
      if fits b sz then
        if match best_size with None => true | Some s => better (size b) s end
        then extremum_loop better sz (i + 1) todo' (Some i) (Some (size b))
        else extremum_loop better sz (i + 1) todo' best_index best_size
      else extremum_loop better sz (i + 1) todo' best_index best_size
  end.

Definition _find_block (self : t) (sz : Z) (strategy : string) : option Z :=
  if String.eqb strategy "first_fit" then first_fit_loop sz 0 (memory self)
  else if String.eqb strategy "best_fit" then
    extremum_loop Z.ltb sz 0 (memory self) None None
  else if String.eqb strategy "worst_fit" then
    extremum_loop Z.gtb sz 0 (memory self) None None
  else None.

Definition allocate (self : t) (process_id sz : Z) (strategy : string)
    : res (bool * t) :=
  match _find_block self sz strategy with
  | Some index =>
      let* b := getitem (memory self) index in
      let* m1 := setitem (memory self) index (start b + sz, size b - sz, None) in
      let* b1 := getitem m1 index in
      let* m2 := if size b1 =? 0 then pop m1 index else Ok m1 in
      let m3 := m2 ++ [(start b, sz, Some process_id)] in
      let* m4 := sorted m3 in
      Ok (true, mk (memory_size self) m4)
  | None => Ok (false, self)
  end.

(** The list comprehension of [deallocate]. *)
Definition relabel (process_id : Z) (l : list block) : list block :=
  map (λ b, if eq_pid (pid b) process_id
            then (start b, size b, None) else (start b, size b, pid b)) l.

(** The loop of [merge_free_blocks]: [merged] is [merged_memory]. *)
Fixpoint merge_loop (todo : list block) (merged : list block) : list block :=
  match todo with
  | [] => merged
  | b :: todo' =>
      match last merged with
      | Some (last_start, last_size, None) =>
          if is_None (pid b)
          then merge_loop todo' (removelast merged ++ [(last_start, last_size + size b, None)])
          else merge_loop todo' (merged ++ [b])
      | _ => merge_loop todo' (merged ++ [b])
      end
  end.

Definition merge_free_blocks (self : t) : res t :=
  let* l := sorted (memory self) in
  Ok (mk (memory_size self) (merge_loop l [])).

Definition deallocate (self : t) (process_id : Z) : res t :=
  merge_free_blocks (mk (memory_size self) (relabel process_id (memory self))).

(** Commands of a session and their execution. *)
Inductive op : Type :=
| Allocate (process_id sz : Z) (strategy : string)
| Deallocate (process_id : Z).

Definition step (self : t) (o : op) : res t :=
  match o with
  | Allocate p sz strategy => let* r := allocate self p sz strategy in Ok r.2
  | Deallocate p => deallocate self p
  end.

Fixpoint run (self : t) (ops : list op) : res t :=
  match ops with
  | [] => Ok self
  | o :: ops' => let* s := step self o in run s ops'
  end.

(** Every allocation of the session asks for a positive size. *)
Definition positive_request (o : op) : Prop :=
  match o with
  | Allocate _ sz _ => 0 < sz
  | Deallocate _ => True
  end.

(** The blocks, in list order, cover [from, to) end to end: the first
    starts at [from], each next one where the previous one ends, and the
    last ends at [to]. *)
Fixpoint tiles (from : Z) (l : list block) (to : Z) : Prop :=
  match l with
  | [] => from = to
  | b :: l' => start b = from ∧ tiles (from + size b) l' to
  end.

Definition is_free (b : block) : Prop := pid b = None.

(** No two neighbours of the list are both free. *)
Fixpoint coalesced (l : list block) : Prop :=
  match l with
  | b :: ((b' :: _) as l') => ¬ (is_free b ∧ is_free b') ∧ coalesced l'
  | _ => True
  end.

(** [Coalesce l l']: [l'] is [l] with every maximal run of consecutive
    free blocks replaced by one free block that starts where the run
    starts and whose size is the sum of the run's sizes; owned blocks are
    kept as they are. *)
Inductive Coalesce : list block → list block → Prop :=
| Coalesce_nil : Coalesce [] []
| Coalesce_owned b l l' :
    ¬ is_free b → Coalesce l l' → Coalesce (b :: l) (b :: l')
| Coalesce_run b run l l' :
    Forall is_free (b :: run) →
    match l with [] => True | b' :: _ => ¬ is_free b' end →
    Coalesce l l' →
    Coalesce (b :: run ++ l)
             ((start b, foldr Z.add 0 (size <$> b :: run), None) :: l').

(** The starts increase strictly along the list. *)
Definition ascending (l : list block) : Prop :=
  StronglySorted (λ a b, start a < start b) l.

(** The merge pass read as a right fold: a free block is fused with the
    block that the rest of the list begins with after merging, when that
    one is free as well. *)
Fixpoint coalesce (l : list block) : list block :=
  match l with
  | [] => []
  | b :: l' =>
      match pid b, coalesce l' with
      | None, (_, z, None) :: r => (start b, size b + z, None) :: r
      | _, r => b :: r
      end
  end.

(** What every state of a session satisfies. *)
Definition invariant (self : t) : Prop :=
  tiles 0 (memory self) (memory_size self) ∧
  ascending (memory self) ∧
  coalesced (memory self) ∧
  (0 < memory_size self → Forall (λ b, 0 < size b) (memory self)).

End Dynamic.

(** ** Buddy system *)

Module Buddy.

Record t : Type := mk {
  size : Z;
  free_blocks : gmap Z (list Z)   (* block size -> free addresses *)
}.

(** [__init__] *)
Definition init (size : Z) : t := mk size {[ size := [0] ]}.

Definition _next_power_of_two (x : Z) : Z := Z.shiftl 1 (bit_length (x - 1)).

(** [sorted(self.free_blocks)]: the keys in ascending order. *)
Definition sorted_keys (fb : gmap Z (list Z)) : list Z :=
  merge_sort Z.le (map_to_list fb).*1.

(** [fb.setdefault(k, []).append(a)] *)
Definition setdefault_append (fb : gmap Z (list Z)) (k a : Z) : gmap Z (list Z) :=
  <[k := default [] (fb !! k) ++ [a]]> fb.

(** The splitting [while] of [allocate]. *)
Fixpoint split (fuel : nat) (address current_size sz : Z)
    (fb : gmap Z (list Z)) : res (gmap Z (list Z)) :=
  if current_size >? sz then
    match fuel with
    | O => Fuel
    | S fuel' =>
        let current_size := current_size / 2 in
        split fuel' address current_size sz
              (setdefault_append fb current_size (address + current_size))
    end
  else Ok fb.

(** The bucket scan of [allocate]. *)
Fixpoint scan (self : t) (sz : Z) (todo : list Z) : res (option Z * t) :=
  match todo with
  | [] => Ok (None, self)
  | current_size :: todo' =>
      let* hit :=
        if current_size >=? sz then
          match free_blocks self !! current_size with
          | Some bucket => Ok (negb (bool_decide (bucket = [])))
          | None => Raise KeyError
          end
        else Ok false in
      if hit then
        match free_blocks self !! current_size with
        | Some (address :: bucket) =>
            let fb := <[current_size := bucket]> (free_blocks self) in
            let fb := if bool_decide (bucket = []) then delete current_size fb else fb in
            let* fb := split (S (Z.to_nat (Z.log2 current_size)))
                             address current_size sz fb in
            Ok (Some address, mk (size self) fb)
        | Some [] => Raise IndexError
        | None => Raise KeyError
        end
      else scan self sz todo'
  end.

Definition allocate (self : t) (process_id sz : Z) : res (option Z * t) :=
  let sz := _next_power_of_two sz in
  scan self sz (sorted_keys (free_blocks self)).

(** The merging [while] of [deallocate]; [total] is [self.size]. *)
Fixpoint merge (fuel : nat) (total address sz : Z) (fb : gmap Z (list Z))
    : res (gmap Z (list Z)) :=
  if sz <=? total then
    match fuel with
    | O => Fuel
    | S fuel' =>
        let buddy_address := Z.lxor address sz in
        if bool_decide (buddy_address ∈ default [] (fb !! sz)) then
          match fb !! sz with
          | Some bucket =>
              let* bucket := remove buddy_address bucket in
              merge fuel' total (Z.min address buddy_address) (sz * 2)
                    (<[sz := bucket]> fb)
          | None => Raise KeyError
          end
        else Ok (setdefault_append fb sz address)
    end
  else Ok fb.

Definition deallocate (self : t) (address sz : Z) : res t :=
  let sz := _next_power_of_two sz in
  let* fb := merge (S (Z.to_nat (Z.log2 (size self)))) (size self) address sz
                   (free_blocks self) in
  Ok (mk (size self) fb).

(** [deallocate] as the documentation words it: the merged block is
    also inserted when the current size has grown past the total. *)
Fixpoint merge_documented (fuel : nat) (total address sz : Z)
    (fb : gmap Z (list Z)) : res (gmap Z (list Z)) :=
  match fuel with
  | O => Fuel
  | S fuel' =>
      let buddy_address := Z.lxor address sz in
      if (sz <=? total) && bool_decide (buddy_address ∈ default [] (fb !! sz)) then
        match fb !! sz with
        | Some bucket =>
            let* bucket := remove buddy_address bucket in
            merge_documented fuel' total (Z.min address buddy_address) (sz * 2)
                  (<[sz := bucket]> fb)
        | None => Raise KeyError
        end
      else Ok (setdefault_append fb sz address)
  end.

Definition deallocate_documented (self : t) (address sz : Z) : res t :=
  let sz := _next_power_of_two sz in
  let* fb := merge_documented (S (S (Z.to_nat (Z.log2 (size self)))))
               (size self) address sz (free_blocks self) in
  Ok (mk (size self) fb).

(** Some bucket lists the address. *)
Definition listed (fb : gmap Z (list Z)) (address : Z) : Prop :=
  ∃ sz bucket, fb !! sz = Some bucket ∧ address ∈ bucket.

(** The merging of [deallocate], told step by step: past the total
    nothing is inserted; below it the block is inserted where its buddy
    is not free, and otherwise the buddy's first listing is taken out and
    the merged block is tried one size up. *)
Inductive Merged (total : Z)
  : Z → Z → gmap Z (list Z) → gmap Z (list Z) → Prop :=
| Merged_past address sz fb :
    total < sz → Merged total address sz fb fb
| Merged_insert address sz fb :
    sz ≤ total →
    Z.lxor address sz ∉ default [] (fb !! sz) →
    Merged total address sz fb (setdefault_append fb sz address)
| Merged_step address sz fb before after fb' :
    sz ≤ total →
    fb !! sz = Some (before ++ Z.lxor address sz :: after) →
    Z.lxor address sz ∉ before →
    Merged total (Z.min address (Z.lxor address sz)) (sz * 2)
           (<[sz := before ++ after]> fb) fb' →
    Merged total address sz fb fb'.

End Buddy.

(** ** Paging *)

Module Paging.

Record t : Type := mk {
  memory_size : Z;
  page_size : Z;
  frames : Z;
  page_table : gmap (Z * Z) Z   (* (process_id, page) -> frame *)
}.

Definition with_page_table (self : t) (pt : gmap (Z * Z) Z) : t :=
  mk (memory_size self) (page_size self) (frames self) pt.

(** [__init__] *)
Definition init (memory_size page_size : Z) : res t :=
  let* fr := floordiv memory_size page_size in
  Ok (mk memory_size page_size fr ∅).

(** [self.page_table.values()] and [list(self.page_table.keys())] *)
Definition values (pt : gmap (Z * Z) Z) : list Z := (map_to_list pt).*2.
Definition keys (pt : gmap (Z * Z) Z) : list (Z * Z) := (map_to_list pt).*1.

(** The frame-collecting loop of [allocate], with its [break]. *)
Fixpoint collect (pt : gmap (Z * Z) Z) (pages_needed : Z)
    (todo : list Z) (allocated_frames : list Z) : list Z :=
  match todo with
  | [] => allocated_frames
  | frame :: todo' =>
      if bool_decide (frame ∉ values pt) then
        let allocated_frames := allocated_frames ++ [frame] in
        if len allocated_frames =? pages_needed then allocated_frames
        else collect pt pages_needed todo' allocated_frames
      else collect pt pages_needed todo' allocated_frames
  end.

(** The committing loop of [allocate]. *)
Fixpoint commit (process_id : Z) (allocated_frames : list Z)
    (pages : list Z) (pt : gmap (Z * Z) Z) : res (gmap (Z * Z) Z) :=
  match pages with
  | [] => Ok pt
  | page :: pages' =>
      let* frame := getitem allocated_frames page in
      commit process_id allocated_frames pages' (<[(process_id, page) := frame]> pt)
  end.

Definition allocate (self : t) (process_id process_size : Z) : res (bool * t) :=
  let* pages_needed := floordiv (process_size + page_size self - 1) (page_size self) in
  let allocated_frames :=
    collect (page_table self) pages_needed (range (frames self)) [] in
  if len allocated_frames <? pages_needed then Ok (false, self)
  else
    let* pt := commit process_id allocated_frames (range pages_needed) (page_table self) in
    Ok (true, with_page_table self pt).

Definition deallocate (self : t) (process_id : Z) : t :=
  with_page_table self
    (foldl (λ pt key, if bool_decide (key.1 = process_id) then delete key pt else pt)
           (page_table self) (keys (page_table self))).

(** Commands of a session and their execution. *)
Inductive op : Type :=
| Allocate (process_id process_size : Z)
| Deallocate (process_id : Z).

Definition step (self : t) (o : op) : res t :=
  match o with
  | Allocate pid sz => let* r := allocate self pid sz in Ok r.2
  | Deallocate pid => Ok (deallocate self pid)
  end.

Fixpoint run (self : t) (ops : list op) : res t :=
  match ops with
  | [] => Ok self
  | o :: ops' => let* s := step self o in run s ops'
  end.

(** The frames of [0, frames) that no page-table entry maps to, ascending. *)
Definition free_frames (self : t) : list Z :=
  filter (λ frame, frame ∉ values (page_table self)) (range (frames self)).

(** No frame is the value of two entries. *)
Definition frames_unshared (pt : gmap (Z * Z) Z) : Prop :=
  ∀ k1 k2 frame, pt !! k1 = Some frame → pt !! k2 = Some frame → k1 = k2.

End Paging.

(** ** Further predicates on the engines' states *)

Module PagingInv.

(** Every mapped frame is one of the allocator's frames. *)
Definition frames_in_range (self : Paging.t) : Prop :=
  ∀ key frame, Paging.page_table self !! key = Some frame →
    0 ≤ frame < Paging.frames self.

End PagingInv.

Module UnequalFit.

(** The candidate of lowest index. *)
Definition first_candidate (self : Unequal.t) (size : Z) (i : nat) : Prop :=
  Unequal.candidate self size i ∧
  ∀ j, (j < i)%nat → ¬ Unequal.candidate self size j.

(** A candidate of greatest size, the lowest index among those of that
    size. *)
Definition worst_candidate (self : Unequal.t) (size : Z) (i : nat) : Prop :=
  Unequal.candidate self size i ∧
  ∀ j, Unequal.candidate self size j →
    ∀ p q, Unequal.partitions self !! i = Some p →
           Unequal.partitions self !! j = Some q →
      q ≤ p ∧ (q = p → (i ≤ j)%nat).

(** The invariant of the [best_fit] / [worst_fit] loop for a comparison
    that orders sizes by [key]: the running choice has the least key,
    lowest index first, among the candidates below [k]. *)
Definition extremum_below (key : Z → Z) (self : Unequal.t) (size : Z)
    (k : nat) (best_index : option Z) : Prop :=
  match best_index with
  | None => ∀ j, (j < k)%nat → ¬ Unequal.candidate self size j
  | Some i =>
      0 ≤ i ∧ (Z.to_nat i < k)%nat ∧ Unequal.candidate self size (Z.to_nat i) ∧
      ∀ j, (j < k)%nat → Unequal.candidate self size j →
        ∀ p q, Unequal.partitions self !! Z.to_nat i = Some p →
               Unequal.partitions self !! j = Some q →
          key p ≤ key q ∧ (key q = key p → (Z.to_nat i ≤ j)%nat)
  end.

End UnequalFit.

Module DynamicFit.

(** Block [i] of the list is free and at least [sz] large. *)
Definition fit_at (l : list Dynamic.block) (sz : Z) (i : nat) : Prop :=
  ∃ b, l !! i = Some b ∧ Dynamic.pid b = None ∧ sz ≤ Dynamic.size b.

(** The fitting block of lowest index. *)
Definition first_at (l : list Dynamic.block) (sz : Z) (i : nat) : Prop :=
  fit_at l sz i ∧ ∀ j, (j < i)%nat → ¬ fit_at l sz j.

(** A fitting block of least key, the lowest index among those of that
    key, below index [k]; the key is the size for [best_fit] and its
    opposite for [worst_fit]. *)
Definition extremum_at (key : Z → Z) (l : list Dynamic.block) (sz : Z)
    (k i : nat) : Prop :=
  (i < k)%nat ∧ fit_at l sz i ∧
  ∀ j, (j < k)%nat → fit_at l sz j →
    ∀ b c, l !! i = Some b → l !! j = Some c →
      key (Dynamic.size b) ≤ key (Dynamic.size c) ∧
      (key (Dynamic.size c) = key (Dynamic.size b) → (i ≤ j)%nat).

(** The invariant of the [best_fit] / [worst_fit] loop after [k] blocks. *)
Definition extremum_below (key : Z → Z) (l : list Dynamic.block) (sz : Z)
    (k : nat) (best_index : option Z) : Prop :=
  match best_index with
  | None => ∀ j, (j < k)%nat → ¬ fit_at l sz j
  | Some i => 0 ≤ i ∧ extremum_at key l sz k (Z.to_nat i)
  end.

(** A fitting block of least size, the lowest index among those of that
    size. *)
Definition best_at (l : list Dynamic.block) (sz : Z) (i : nat) : Prop :=
  fit_at l sz i ∧
  ∀ j, fit_at l sz j →
    ∀ b c, l !! i = Some b → l !! j = Some c →
      Dynamic.size b ≤ Dynamic.size c ∧
      (Dynamic.size c = Dynamic.size b → (i ≤ j)%nat).

(** A fitting block of greatest size, the lowest index among those of
    that size. *)
Definition worst_at (l : list Dynamic.block) (sz : Z) (i : nat) : Prop :=
  fit_at l sz i ∧
  ∀ j, fit_at l sz j →
    ∀ b c, l !! i = Some b → l !! j = Some c →
      Dynamic.size c ≤ Dynamic.size b ∧
      (Dynamic.size c = Dynamic.size b → (i ≤ j)%nat).

(** The blocks that some process owns, in list order. *)
Definition owned (l : list Dynamic.block) : list Dynamic.block :=
  filter (λ b, Dynamic.pid b ≠ None) l.

End DynamicFit.

Module BuddyFit.

(** Bucket [k] can serve a request rounded to [sz]: it is large enough and
    lists a free address. *)
Definition suitable (fb : gmap Z (list Z)) (sz k : Z) : Prop :=
  sz ≤ k ∧ ∃ address bucket, fb !! k = Some (address :: bucket).

(** The structure [allocate] leaves when it takes the first address of
    bucket [k] and needs no split. *)
Definition taken (fb : gmap Z (list Z)) (k : Z) (bucket : list Z)
    : gmap Z (list Z) :=
  match bucket with
  | [] => delete k fb
  | _ :: _ => <[k := bucket]> fb
  end.

(** In a memory of [2^n] units of which a block of [2^k] was split off at
    address 0, the buckets after [i] merges on the way back up: the sizes
    below [2^(k+i)] are emptied, those from there up to [2^(n-1)] still
    list their upper half, and there are no other buckets. *)
Definition climbing (n k i : nat) (fb : gmap Z (list Z)) : Prop :=
  (∀ j : nat, (k ≤ j < k + i)%nat → fb !! (2 ^ Z.of_nat j) = Some []) ∧
  (∀ j : nat, (k + i ≤ j < n)%nat →
     fb !! (2 ^ Z.of_nat j) = Some [2 ^ Z.of_nat j]) ∧
  (∀ key bucket, fb !! key = Some bucket →
     ∃ j : nat, (k ≤ j < n)%nat ∧ key = 2 ^ Z.of_nat j).

End BuddyFit.

(** * Verification *)

(** ** Python primitives *)

Section py_facts.
Context {A B : Type}.

Lemma bind_Ok (m : res A) (k : A → res B) (b : B) :
  Py.bind m k = Ok b ↔ ∃ a, m = Ok a ∧ k a = Ok b.
Proof.
  split.
  - destruct m as [a| |]; simpl; intros H; try discriminate. eauto.
  - intros (a & -> & H). done.
Qed.

Lemma len_nonneg (l : list A) : 0 ≤ len l.
Proof. unfold len. lia. Qed.

Lemma len_app (l1 l2 : list A) : len (l1 ++ l2) = len l1 + len l2.
Proof. unfold len. rewrite length_app. lia. Qed.

Lemma index_in_range (l : list A) (i : Z) :
  0 ≤ i < len l → index l i = Some (Z.to_nat i).
Proof.
  intros Hi. unfold index.
  destruct (i <? 0) eqn:E1; [lia|].
  rewrite E1. simpl. destruct (len l <=? i) eqn:E2; [lia|done].
Qed.

Lemma getitem_in_range (l : list A) (i : Z) (x : A) :
  0 ≤ i → l !! Z.to_nat i = Some x → getitem l i = Ok x.
Proof.
  intros Hi Hx. unfold getitem.
  rewrite index_in_range.
  - by rewrite Hx.
  - apply lookup_lt_Some in Hx. unfold len. lia.
Qed.

Lemma setitem_in_range (l : list A) (i : Z) (x : A) :
  0 ≤ i < len l → setitem l i x = Ok (<[Z.to_nat i := x]> l).
Proof. intros Hi. unfold setitem. by rewrite index_in_range. Qed.

End py_facts.

Lemma range_elem (n i : Z) : i ∈ range n ↔ 0 ≤ i < n.
Proof. unfold range. rewrite elem_of_seqZ. lia. Qed.

Lemma range_succ (n : Z) : 0 ≤ n → range (n + 1) = range n ++ [n].
Proof.
  intros Hn. unfold range. rewrite seqZ_app by lia. f_equal.
Qed.

Lemma range_nonpos (n : Z) : n ≤ 0 → range n = [].
Proof. intros Hn. by apply seqZ_nil. Qed.

Lemma range_lookup (n : Z) (i : nat) :
  (Z.of_nat i < n) → range n !! i = Some (Z.of_nat i).
Proof. intros Hi. unfold range. by rewrite lookup_seqZ_lt by lia. Qed.


(** ** Paging *)

Section paging_facts.
Import Paging.

Lemma collect_spec (pt : gmap (Z * Z) Z) (n : Z) (todo acc : list Z) :
  let free := filter (λ frame, frame ∉ values pt) todo in
  collect pt n todo acc =
    acc ++ (if decide (len acc < n ≤ len acc + len free)
            then take (Z.to_nat (n - len acc)) free else free).
Proof.
  revert acc. induction todo as [|frame todo IH]; intros acc; simpl.
  - rewrite filter_nil. destruct (decide _); by rewrite ?take_nil, app_nil_r.
  - rewrite filter_cons. destruct (decide (frame ∉ values pt)) as [Hf|Hf].
    + rewrite bool_decide_eq_true_2 by done.
      destruct (len (acc ++ [frame]) =? n) eqn:E.
      * apply Z.eqb_eq in E. rewrite len_app in E. change (len [frame]) with 1 in E.
        rewrite decide_True.
        2:{ unfold len in *. simpl. lia. }
        replace (Z.to_nat (n - len acc)) with 1%nat by lia. simpl. by rewrite take_0.
      * apply Z.eqb_neq in E. rewrite IH. rewrite len_app in *.
        change (len [frame]) with 1 in *. rewrite <- app_assoc. simpl. f_equal.
        set (free := filter _ todo).
        assert (len (frame :: free) = 1 + len free) as -> by (unfold len; simpl; lia).
        destruct (decide (len acc + 1 < n ≤ len acc + 1 + len free)),
                 (decide (len acc < n ≤ len acc + (1 + len free))); try lia.
        -- replace (Z.to_nat (n - len acc)) with (S (Z.to_nat (n - (len acc + 1)))) by lia.
           done.
        -- done.
    + rewrite bool_decide_eq_false_2 by done. apply IH.
Qed.

Lemma commit_spec (process_id : Z) (frames : list Z) (pages : list Z)
    (pt : gmap (Z * Z) Z) :
  (∀ page, page ∈ pages → 0 ≤ page < len frames) →
  ∃ pt', commit process_id frames pages pt = Ok pt' ∧
    ∀ q page, pt' !! (q, page) =
      if decide (q = process_id ∧ page ∈ pages)
      then frames !! Z.to_nat page else pt !! (q, page).
Proof.
  revert pt. induction pages as [|p pages IH]; intros pt Hin; simpl.
  - exists pt. split; [done|]. intros q page. rewrite decide_False; [done|].
    intros [_ H]. by apply elem_of_nil in H.
  - assert (0 ≤ p < len frames) as Hp by (apply Hin; left).
    destruct (lookup_lt_is_Some_2 frames (Z.to_nat p)) as [f Hf];
      [unfold len in Hp; lia|].
    rewrite (getitem_in_range _ _ f) by (done || lia). simpl.
    destruct (IH (<[(process_id, p) := f]> pt)) as (pt' & -> & Hpt').
    { intros page Hpage. apply Hin. by right. }
    exists pt'. split; [done|]. intros q page. rewrite Hpt'.
    destruct (decide (q = process_id ∧ page ∈ pages)) as [[-> Hi]|Hn].
    + rewrite decide_True; [done|]. split; [done|by right].
    + destruct (decide (q = process_id ∧ page ∈ p :: pages)) as [[-> Hi]|Hn'].
      * apply elem_of_cons in Hi as [->|Hi]; [|tauto].
        by rewrite lookup_insert_eq.
      * rewrite lookup_insert_ne; [done|]. intros [= <- <-]. apply Hn'.
        split; [done|left].
Qed.

Lemma free_frames_NoDup (self : t) : NoDup (free_frames self).
Proof. apply NoDup_filter. apply NoDup_seqZ. Qed.

Lemma free_frames_unassigned (self : t) (frame : Z) :
  frame ∈ free_frames self → ∀ key, page_table self !! key ≠ Some frame.
Proof.
  intros Hf key Hk. apply list_elem_of_filter in Hf as [Hf _]. apply Hf.
  unfold values. apply list_elem_of_fmap. exists (key, frame).
  split; [done|]. by apply elem_of_map_to_list.
Qed.

(** The two outcomes of [allocate] once the page count is known. *)
Lemma allocate_cases (self : t) (process_id process_size : Z) :
  page_size self ≠ 0 →
  let n := (process_size + page_size self - 1) / page_size self in
  (len (free_frames self) < n ∧ allocate self process_id process_size = Ok (false, self))
  ∨ (n ≤ len (free_frames self) ∧
     ∃ pt', allocate self process_id process_size = Ok (true, with_page_table self pt') ∧
       ∀ q page, pt' !! (q, page) =
         if decide (q = process_id ∧ 0 ≤ page < n)
         then free_frames self !! Z.to_nat page else page_table self !! (q, page)).
Proof.
  intros Hps n. unfold allocate, floordiv.
  destruct (page_size self =? 0) eqn:E; [lia|]. simpl. fold n.
  rewrite collect_spec. simpl. fold (free_frames self).
  change (len []) with 0. rewrite !Z.add_0_l, Z.sub_0_r.
  pose proof (len_nonneg (free_frames self)) as Hnn.
  destruct (decide (0 < n ≤ len (free_frames self))) as [Hn|Hn].
  - right. split; [lia|].
    assert (len (take (Z.to_nat n) (free_frames self)) = n) as Hlen.
    { unfold len in *. rewrite length_take. lia. }
    rewrite Hlen. rewrite Z.ltb_irrefl.
    destruct (commit_spec process_id (take (Z.to_nat n) (free_frames self))
                (range n) (page_table self)) as (pt' & -> & Hpt').
    { intros page Hp. apply range_elem in Hp. lia. }
    exists pt'. split; [done|]. intros q page. rewrite Hpt'.
    destruct (decide (q = process_id ∧ page ∈ range n)) as [[-> Hi]|Hn'].
    + apply range_elem in Hi. rewrite decide_True by done.
      apply lookup_take_lt. lia.
    + rewrite decide_False; [done|]. intros [-> Hi]. apply Hn'.
      split; [done|]. by apply range_elem.
  - destruct (len (free_frames self) <? n) eqn:E2.
    + left. split; [lia|done].
    + right. split; [lia|]. assert (n ≤ 0) as Hn0 by lia.
      rewrite (range_nonpos n Hn0). simpl. exists (page_table self).
      split; [by destruct self|]. intros q page. rewrite decide_False; [done|lia].
Qed.

Lemma allocate_keeps_page_size (self s' : t) (process_id process_size : Z) (b : bool) :
  allocate self process_id process_size = Ok (b, s') → page_size s' = page_size self.
Proof.
  unfold allocate. intros H. apply bind_Ok in H as (n & _ & H).
  destruct (len _ <? n); [by inversion H|].
  apply bind_Ok in H as (pt & _ & H). by inversion H.
Qed.

Lemma allocate_keeps_unshared (self : t) (process_id process_size : Z) :
  page_size self ≠ 0 → frames_unshared (page_table self) →
  ∃ b s', allocate self process_id process_size = Ok (b, s') ∧
    frames_unshared (page_table s').
Proof.
  intros Hps Hinv.
  destruct (allocate_cases self process_id process_size Hps)
    as [[_ ->]|(_ & pt' & -> & Hpt')].
  - by exists false, self.
  - exists true, (with_page_table self pt'). split; [done|]. simpl.
    intros [q1 p1] [q2 p2] frame H1 H2. rewrite Hpt' in H1, H2.
    destruct (decide (q1 = process_id ∧ _)) as [[-> Hr1]|_],
             (decide (q2 = process_id ∧ _)) as [[-> Hr2]|_].
    + f_equal.
      assert (Z.to_nat p1 = Z.to_nat p2) as Heq
        by (eapply NoDup_lookup; [apply free_frames_NoDup|done..]).
      lia.
    + exfalso. eapply free_frames_unassigned; [|done]. by eapply list_elem_of_lookup_2.
    + exfalso. eapply free_frames_unassigned; [|done]. by eapply list_elem_of_lookup_2.
    + by eapply Hinv.
Qed.

Lemma deallocate_loop_sub (process_id : Z) (ks : list (Z * Z)) (pt : gmap (Z * Z) Z)
    (key : Z * Z) (frame : Z) :
  foldl (λ pt key, if bool_decide (key.1 = process_id) then delete key pt else pt)
        pt ks !! key = Some frame →
  pt !! key = Some frame.
Proof.
  revert pt. induction ks as [|k ks IH]; intros pt; simpl; [done|].
  intros H. apply IH in H. case_bool_decide; [|done].
  apply lookup_delete_Some in H. tauto.
Qed.

Lemma deallocate_loop_absent (process_id : Z) (ks : list (Z * Z)) (pt : gmap (Z * Z) Z) :
  (∀ key, key ∈ ks → key.1 ≠ process_id) →
  foldl (λ pt key, if bool_decide (key.1 = process_id) then delete key pt else pt)
        pt ks = pt.
Proof.
  revert pt. induction ks as [|k ks IH]; intros pt Hks; simpl; [done|].
  rewrite bool_decide_eq_false_2 by (apply Hks; left).
  apply IH. intros key Hk. apply Hks. by right.
Qed.

Lemma keys_elem (pt : gmap (Z * Z) Z) (key : Z * Z) :
  key ∈ keys pt → is_Some (pt !! key).
Proof.
  unfold keys. intros H. apply list_elem_of_fmap in H as ([k f] & -> & H).
  apply elem_of_map_to_list in H. by exists f.
Qed.

Lemma paging_deallocate_absent (self : t) (process_id : Z) :
  (∀ page, page_table self !! (process_id, page) = None) →
  deallocate self process_id = self.
Proof.
  intros Habs. unfold deallocate. rewrite deallocate_loop_absent; [by destruct self|].
  intros [q page] Hk Hq. simpl in Hq. subst q.
  apply keys_elem in Hk as [f Hf]. by rewrite Habs in Hf.
Qed.

Lemma paging_run_invariant (s0 : t) (ops : list op) :
  page_size s0 ≠ 0 → frames_unshared (page_table s0) →
  ∃ s, run s0 ops = Ok s ∧ page_size s ≠ 0 ∧ frames_unshared (page_table s).
Proof.
  revert s0. induction ops as [|o ops IH]; intros s0 Hps Hinv; simpl.
  - by exists s0.
  - destruct o as [p sz|p]; simpl.
    + destruct (allocate_keeps_unshared s0 p sz Hps Hinv) as (b & s' & Ha & Hinv').
      rewrite Ha. simpl. apply IH; [|done].
      by rewrite (allocate_keeps_page_size _ _ _ _ _ Ha).
    + apply IH; [done|]. simpl. intros k1 k2 frame H1 H2.
      apply deallocate_loop_sub in H1, H2. by eapply Hinv.
Qed.

End paging_facts.

(** ** The clearing loop of the partition engines *)

Section clear_facts.

Lemma cleared_cons (process_id : Z) (x : option Z) (l : list (option Z)) :
  cleared process_id (x :: l)
  = (if eq_pid x process_id then None else x) :: cleared process_id l.
Proof. done. Qed.

Lemma clear_loop_from (process_id : Z) (n k : nat) (l : list (option Z)) :
  length l = (k + n)%nat →
  clear_loop process_id (seqZ (Z.of_nat k) (Z.of_nat n)) l
  = Ok (take k l ++ cleared process_id (drop k l)).
Proof.
  revert k l. induction n as [|n IH]; intros k l Hlen.
  - simpl. rewrite drop_ge by lia. rewrite take_ge by lia. by rewrite app_nil_r.
  - rewrite seqZ_cons by lia. simpl.
    destruct (lookup_lt_is_Some_2 l k) as [x Hx]; [lia|].
    rewrite (getitem_in_range l (Z.of_nat k) x); [|lia|by rewrite Nat2Z.id]. simpl.
    replace (Z.succ (Z.of_nat k)) with (Z.of_nat (S k)) by lia.
    replace (Z.pred (Z.of_nat (S n))) with (Z.of_nat n) by lia.
    rewrite (drop_S l x k Hx), cleared_cons.
    destruct (eq_pid x process_id) eqn:E.
    + rewrite setitem_in_range by (unfold len; lia). simpl. rewrite Nat2Z.id.
      rewrite IH by (rewrite length_insert; lia).
      rewrite drop_insert_lt by lia.
      erewrite take_S_r by (apply list_lookup_insert_eq; lia).
      rewrite take_insert_ge by lia. by rewrite <- app_assoc.
    + rewrite IH by lia. rewrite (take_S_r l k x Hx). by rewrite <- app_assoc.
Qed.

Lemma clear_loop_spec (process_id : Z) (l : list (option Z)) :
  clear_loop process_id (range (len l)) l = Ok (cleared process_id l).
Proof.
  pose proof (clear_loop_from process_id (length l) 0 l eq_refl) as H.
  rewrite drop_0, take_0 in H. exact H.
Qed.

Lemma cleared_absent (process_id : Z) (l : list (option Z)) :
  Some process_id ∉ l → cleared process_id l = l.
Proof.
  intros Hl. induction l as [|p l IH]; [done|].
  rewrite cleared_cons. rewrite IH by (intros H; apply Hl; by right). f_equal.
  destruct p as [q|]; [|done]. simpl. destruct (q =? process_id) eqn:E; [|done].
  apply Z.eqb_eq in E. subst q. exfalso. apply Hl. left.
Qed.

End clear_facts.

(** ** Fixed-size partitioning *)

Section fixed_facts.
Import Fixed.

Lemma slice_window (ps : list (option Z)) (i n : Z) :
  0 ≤ i → 0 ≤ n → i + n ≤ len ps →
  slice ps i (i + n) = take (Z.to_nat n) (drop (Z.to_nat i) ps).
Proof.
  intros Hi Hn Hlen. unfold slice.
  destruct (i + n <? 0) eqn:E1; [lia|]. destruct (i <? 0) eqn:E2; [lia|].
  do 2 f_equal; lia.
Qed.

Lemma window_free_forallb (ps : list (option Z)) (i n : Z) :
  0 ≤ i → 0 ≤ n → i + n ≤ len ps →
  forallb is_None (slice ps i (i + n)) = true ↔ window_free ps i n.
Proof.
  intros Hi Hn Hlen. rewrite slice_window by done.
  rewrite <- Is_true_true, forallb_True, Forall_lookup. split.
  - intros H. split; [done|]. split; [done|]. intros j Hj.
    destruct (lookup_lt_is_Some_2 ps (Z.to_nat j)) as [x Hx]; [unfold len in *; lia|].
    specialize (H (Z.to_nat (j - i)) x).
    rewrite lookup_take_lt, lookup_drop in H by lia.
    replace (Z.to_nat i + Z.to_nat (j - i))%nat with (Z.to_nat j) in H by lia.
    specialize (H Hx). by destruct x.
  - intros (_ & _ & H) k x Hk. apply lookup_take_Some in Hk as [Hk Hlt].
    rewrite lookup_drop in Hk. specialize (H (i + Z.of_nat k) ltac:(lia)).
    replace (Z.to_nat (i + Z.of_nat k)) with (Z.to_nat i + k)%nat in H by lia.
    rewrite Hk in H. by inversion H.
Qed.

Lemma tag_from (process_id : Z) (i m k : nat) (ps : list (option Z)) :
  (i + k + m ≤ length ps)%nat →
  tag process_id (Z.of_nat i) (seqZ (Z.of_nat k) (Z.of_nat m)) ps
  = Ok (take (i + k) ps ++ replicate m (Some process_id) ++ drop (i + k + m) ps).
Proof.
  revert k ps. induction m as [|m IH]; intros k ps Hlen.
  - simpl. rewrite Nat.add_0_r. by rewrite take_drop.
  - rewrite seqZ_cons by lia. simpl.
    rewrite setitem_in_range by (unfold len; lia). simpl.
    replace (Z.succ (Z.of_nat k)) with (Z.of_nat (S k)) by lia.
    replace (Z.pred (Z.of_nat (S m))) with (Z.of_nat m) by lia.
    replace (Z.to_nat (Z.of_nat i + Z.of_nat k)) with (i + k)%nat by lia.
    rewrite IH by (rewrite length_insert; lia).
    rewrite drop_insert_lt by lia.
    replace (i + S k)%nat with (S (i + k)) by lia.
    erewrite take_S_r by (apply list_lookup_insert_eq; lia).
    rewrite take_insert_ge by lia. rewrite <- app_assoc. simpl.
    by replace (i + k + S m)%nat with (S (i + k + m)) by lia.
Qed.

Lemma tag_spec (process_id i n : Z) (ps : list (option Z)) :
  0 ≤ i → 0 ≤ n → i + n ≤ len ps →
  tag process_id i (range n) ps = Ok (tagged ps i n process_id).
Proof.
  intros Hi Hn Hlen. unfold range, tagged.
  rewrite <- (Z2Nat.id i Hi) at 1. rewrite <- (Z2Nat.id n Hn) at 1.
  change 0 with (Z.of_nat 0).
  rewrite tag_from by (unfold len in Hlen; lia).
  rewrite Nat.add_0_r.
  by replace (Z.to_nat (i + n)) with (Z.to_nat i + Z.to_nat n)%nat by lia.
Qed.

Lemma scan_none (self : t) (process_id n : Z) (todo : list Z) :
  0 ≤ n →
  (∀ i, i ∈ todo → 0 ≤ i ∧ i + n ≤ len (partitions self)) →
  (∀ i, i ∈ todo → ¬ window_free (partitions self) i n) →
  scan self process_id n todo = Ok (false, self).
Proof.
  intros Hn. induction todo as [|i todo IH]; intros Hr Hw; simpl; [done|].
  destruct (forallb _ _) eqn:E.
  - exfalso. apply (Hw i); [left|]. apply window_free_forallb; try done;
      apply (Hr i); left.
  - apply IH; intros j Hj; [apply Hr|apply Hw]; by right.
Qed.

Lemma scan_first (self : t) (process_id n i : Z) (before after : list Z) :
  0 ≤ n →
  (∀ j, j ∈ before ++ [i] → 0 ≤ j ∧ j + n ≤ len (partitions self)) →
  (∀ j, j ∈ before → ¬ window_free (partitions self) j n) →
  window_free (partitions self) i n →
  scan self process_id n (before ++ i :: after)
  = Ok (true, with_partitions self (tagged (partitions self) i n process_id)).
Proof.
  intros Hn. induction before as [|j before IH]; intros Hr Hw Hi; simpl.
  - destruct (Hr i ltac:(left)) as [H0 Hlen].
    rewrite (proj2 (window_free_forallb _ _ _ H0 Hn Hlen) Hi).
    by rewrite tag_spec.
  - destruct (forallb _ _) eqn:E.
    + exfalso. apply (Hw j); [left|]. apply window_free_forallb; try done;
        apply (Hr j); left.
    + apply IH; [|intros k Hk; apply Hw; by right|done].
      intros k Hk. apply Hr. by right.
Qed.

Lemma scan_negative (self : t) (process_id n : Z) (todo : list Z) :
  n < 0 → - n ∈ todo →
  scan self process_id n todo = Ok (true, self).
Proof.
  intros Hn. induction todo as [|i todo IH]; intros Hin; simpl.
  - by apply elem_of_nil in Hin.
  - rewrite (range_nonpos n) by lia. simpl.
    assert (with_partitions self (partitions self) = self) as -> by by destruct self.
    destruct (forallb _ _) eqn:E; [done|].
    apply elem_of_cons in Hin as [<-|Hin]; [|by apply IH].
    exfalso. unfold slice in E.
    replace (- n + n) with 0 in E by lia. simpl in E.
    destruct (- n <? 0) eqn:E2; [lia|].
    pose proof (len_nonneg (partitions self)).
    replace (Z.to_nat (Z.min 0 (len (partitions self)) - Z.min (- n) (len (partitions self))))
      with 0%nat in E by lia.
    by rewrite take_0 in E.
Qed.

Lemma range_split (m i : Z) :
  0 ≤ i < m → range m = range i ++ i :: seqZ (i + 1) (m - i - 1).
Proof.
  intros Hi. unfold range.
  replace m with (i + (m - i)) at 1 by lia.
  rewrite seqZ_app by lia. f_equal. simpl.
  rewrite seqZ_cons by lia. do 2 f_equal; lia.
Qed.

Lemma fixed_allocate_general (self : t) (process_id size : Z) :
  partition_size self ≠ 0 →
  let n := (size + partition_size self - 1) / partition_size self in
  (∀ i, leftmost_window (partitions self) i n →
     allocate self process_id size
     = Ok (true, with_partitions self (tagged (partitions self) i n process_id)))
  ∧ ((∀ i, ¬ window_free (partitions self) i n) →
     allocate self process_id size = Ok (false, self)).
Proof.
  intros Hps n. unfold allocate, floordiv.
  destruct (partition_size self =? 0) eqn:E; [lia|]. simpl. fold n.
  pose proof (len_nonneg (partitions self)) as Hlen.
  destruct (decide (n < 0)) as [Hneg|Hnn].
  - split.
    + intros i [Hi Hleast].
      assert (i = 0) as ->.
      { destruct (decide (i = 0)) as [|Hne]; [done|]. exfalso.
        apply (Hleast 0); [destruct Hi; lia|].
        split; [lia|]. split; [lia|]. intros j Hj. lia. }
      rewrite scan_negative; [|done|apply range_elem; lia].
      do 2 f_equal. unfold tagged.
      replace (Z.to_nat (0 + n)) with 0%nat by lia.
      replace (Z.to_nat n) with 0%nat by lia. simpl. by destruct self.
    + intros Hno. exfalso. apply (Hno 0).
      split; [lia|]. split; [lia|]. intros j Hj. lia.
  - split.
    + intros i [Hi Hleast]. destruct Hi as (H0 & Hin & Hfree).
      rewrite (range_split _ i) by lia.
      apply scan_first; [lia| |intros j Hj; apply Hleast; apply range_elem in Hj; lia|done].
      intros j Hj. apply elem_of_app in Hj as [Hj|Hj].
      * apply range_elem in Hj. lia.
      * apply list_elem_of_singleton in Hj. lia.
    + intros Hno. apply scan_none; [lia| |intros i _; apply Hno].
      intros i Hi. apply range_elem in Hi. lia.
Qed.

End fixed_facts.

(** ** Unequal-size partitioning *)

Section unequal_facts.
Import Unequal.

Variable self : t.
Variable size : Z.
Hypothesis parallel : length (allocated self) = length (partitions self).

Lemma fits_spec (i : nat) :
  (i < length (partitions self))%nat →
  ∃ b, fits self size (Z.of_nat i) = Ok b ∧ (b = true ↔ candidate self size i).
Proof.
  intros Hi. unfold fits, candidate.
  destruct (lookup_lt_is_Some_2 (allocated self) i) as [a Ha]; [lia|].
  destruct (lookup_lt_is_Some_2 (partitions self) i) as [p Hp]; [lia|].
  rewrite (getitem_in_range _ _ a) by (rewrite ?Nat2Z.id; done || lia). simpl.
  destruct a as [q|]; simpl.
  - exists false. split; [done|]. split; [done|]. intros [H _]. congruence.
  - rewrite (getitem_in_range _ _ p) by (rewrite ?Nat2Z.id; done || lia). simpl.
    exists (p >=? size). split; [done|]. rewrite Ha, Hp. split.
    + intros H. split; [done|]. exists p. split; [done|lia].
    + intros [_ (p' & [= <-] & H)]. lia.
Qed.

Lemma best_loop_spec (m k : nat) (best_index best_size : option Z) :
  length (partitions self) = (k + m)%nat →
  best_below self size k best_index →
  best_size = (i ← best_index; partitions self !! Z.to_nat i) →
  ∃ r, extremum_loop Z.ltb self size (seqZ (Z.of_nat k) (Z.of_nat m))
         best_index best_size = Ok r
       ∧ best_below self size (k + m) r.
Proof.
  revert k best_index best_size.
  induction m as [|m IH]; intros k bi bs Hlen Hinv Hbs.
  - simpl. exists bi. by rewrite Nat.add_0_r.
  - rewrite seqZ_cons by lia. simpl.
    replace (Z.succ (Z.of_nat k)) with (Z.of_nat (S k)) by lia.
    replace (Z.pred (Z.of_nat (S m))) with (Z.of_nat m) by lia.
    replace (k + S m)%nat with (S k + m)%nat by lia.
    destruct (fits_spec k ltac:(lia)) as (b & -> & Hb). simpl.
    destruct b.
    + destruct (proj1 Hb eq_refl) as [Hfree (p & Hp & Hge)].
      rewrite (getitem_in_range _ _ p) by (rewrite ?Nat2Z.id; done || lia). simpl.
      assert (candidate self size k) as Hcand by (by apply Hb).
      destruct bi as [i|]; simpl in Hbs; subst bs.
      * destruct Hinv as (Hi0 & Hik & Hci & Hbest).
        destruct Hci as [Hfi (pi & Hpi & Hgei)]. rewrite Hpi.
        destruct (p <? pi) eqn:E.
        -- apply IH; [lia| |simpl; by rewrite Nat2Z.id].
           split; [lia|]. rewrite Nat2Z.id. split; [lia|]. split; [done|].
           intros j Hj Hcj p' q Hp' Hq. rewrite Hp in Hp'. injection Hp' as <-.
           destruct (decide (j = k)) as [->|Hne].
           ++ rewrite Hp in Hq. injection Hq as <-. lia.
           ++ destruct (Hbest j ltac:(lia) Hcj pi q Hpi Hq). lia.
        -- apply IH; [lia| |simpl; by rewrite Hpi].
           split; [lia|]. split; [lia|]. split; [by split; eauto|].
           intros j Hj Hcj p' q Hp' Hq. rewrite Hpi in Hp'. injection Hp' as <-.
           destruct (decide (j = k)) as [->|Hne].
           ++ rewrite Hp in Hq. injection Hq as <-. lia.
           ++ apply (Hbest j ltac:(lia) Hcj pi q Hpi Hq).
      * apply IH; [lia| |simpl; by rewrite Nat2Z.id].
        split; [lia|]. rewrite Nat2Z.id. split; [lia|]. split; [done|].
        intros j Hj Hcj p' q Hp' Hq.
        destruct (decide (j = k)) as [->|Hne].
        -- rewrite Hp in Hp', Hq. injection Hp' as <-. injection Hq as <-. lia.
        -- exfalso. apply (Hinv j); [lia|done].
    + assert (¬ candidate self size k) as Hnc by (intros H; apply Hb in H; done).
      apply IH; [lia| |done].
      destruct bi as [i|]; simpl.
      * destruct Hinv as (Hi0 & Hik & Hci & Hbest).
        split; [done|]. split; [lia|]. split; [done|].
        intros j Hj Hcj. destruct (decide (j = k)) as [->|Hne]; [done|].
        apply Hbest; [lia|done].
      * intros j Hj Hcj. destruct (decide (j = k)) as [->|Hne]; [done|].
        apply (Hinv j); [lia|done].
Qed.

Lemma candidate_in_range (i : nat) :
  candidate self size i → (i < length (partitions self))%nat.
Proof. intros [_ (p & Hp & _)]. by apply lookup_lt_Some in Hp. Qed.

Lemma find_partition_best_fit :
  ∃ r, _find_partition self size "best_fit" = Ok r ∧
    match r with
    | None => ∀ j, ¬ candidate self size j
    | Some i => 0 ≤ i ∧ best_candidate self size (Z.to_nat i)
    end.
Proof.
  unfold _find_partition. simpl.
  destruct (best_loop_spec (length (partitions self)) 0 None None)
    as (r & Hr & Hbest); [done|by intros j Hj; lia|done|].
  exists r. split; [exact Hr|]. simpl in Hbest. destruct r as [i|].
  - destruct Hbest as (Hi0 & Hi & Hci & Hbest). split; [done|].
    split; [done|]. intros j Hcj. apply Hbest; [|done].
    by apply candidate_in_range.
  - intros j Hcj. apply (Hbest j); [|done]. by apply candidate_in_range.
Qed.

Lemma best_candidate_unique (i j : nat) :
  best_candidate self size i → best_candidate self size j → i = j.
Proof.
  intros [Hci Hbi] [Hcj Hbj].
  destruct Hci as [? (p & Hp & ?)]. destruct Hcj as [? (q & Hq & ?)].
  destruct (Hbi j ltac:(split; eauto) p q Hp Hq) as [Hle1 Hidx1].
  destruct (Hbj i ltac:(split; eauto) q p Hq Hp) as [Hle2 Hidx2].
  assert (p = q) as <- by lia.
  specialize (Hidx1 eq_refl). specialize (Hidx2 eq_refl). lia.
Qed.

Lemma allocate_best_fit (process_id : Z) :
  (∃ i, best_candidate self size i ∧
        allocate self process_id size "best_fit"
        = Ok (true, mk (partitions self) (<[i := Some process_id]> (allocated self))))
  ∨ ((∀ i, ¬ candidate self size i) ∧
     allocate self process_id size "best_fit" = Ok (false, self)).
Proof.
  unfold allocate. destruct find_partition_best_fit as (r & -> & Hr). simpl.
  destruct r as [i|].
  - left. destruct Hr as [Hi0 Hbest]. exists (Z.to_nat i). split; [done|].
    pose proof (candidate_in_range _ (proj1 Hbest)) as Hlt.
    rewrite setitem_in_range by (unfold len; lia). done.
  - by right.
Qed.

End unequal_facts.

(** ** Dynamic allocation: sorting *)

Section dynamic_sort_facts.
Import Dynamic.

Lemma insert_sorted_last (x : block) (acc : list block) :
  Forall (λ y, start y < start x) acc →
  insert_sorted x acc = Ok (acc ++ [x]).
Proof.
  induction acc as [|y acc IH]; intros Hall; simpl; [done|].
  apply Forall_cons in Hall as [Hy Hall]. unfold block_lt.
  destruct (start x =? start y) eqn:E1; [lia|]. simpl.
  destruct (start x <? start y) eqn:E2; [lia|].
  by rewrite IH.
Qed.

Lemma insert_sorted_middle (x y : block) (l1 l2 : list block) :
  Forall (λ z, start z < start x) l1 → start x < start y →
  insert_sorted x (l1 ++ y :: l2) = Ok (l1 ++ x :: y :: l2).
Proof.
  induction l1 as [|z l1 IH]; intros Hall Hy; simpl.
  - unfold block_lt. destruct (start x =? start y) eqn:E1; [lia|]. simpl.
    by destruct (start x <? start y) eqn:E2; [|lia].
  - apply Forall_cons in Hall as [Hz Hall]. unfold block_lt.
    destruct (start x =? start z) eqn:E1; [lia|]. simpl.
    destruct (start x <? start z) eqn:E2; [lia|].
    by rewrite IH.
Qed.

Lemma sort_into_app (acc l1 l2 : list block) :
  sort_into acc (l1 ++ l2) = let* acc' := sort_into acc l1 in sort_into acc' l2.
Proof.
  revert acc. induction l1 as [|x l1 IH]; intros acc; simpl; [done|].
  destruct (insert_sorted x acc); simpl; [apply IH|done..].
Qed.

Lemma sort_into_ascending (acc l : list block) :
  ascending (acc ++ l) → sort_into acc l = Ok (acc ++ l).
Proof.
  revert acc. induction l as [|x l IH]; intros acc Hasc; simpl.
  - by rewrite app_nil_r.
  - rewrite insert_sorted_last.
    + simpl. rewrite IH; rewrite <- app_assoc; done.
    + apply StronglySorted_app in Hasc as (Hcross & _ & _).
      apply Forall_forall. intros y Hy. apply Hcross; [done|left].
Qed.

Lemma sorted_ascending (l : list block) : ascending l → sorted l = Ok l.
Proof. intros H. unfold sorted. by rewrite sort_into_ascending. Qed.

(** Sorting after appending the block that belongs in the middle. *)
Lemma sorted_moved_last (x : block) (l1 l2 : list block) :
  ascending (l1 ++ x :: l2) → sorted (l1 ++ l2 ++ [x]) = Ok (l1 ++ x :: l2).
Proof.
  intros Hasc. unfold sorted.
  pose proof Hasc as Hasc'.
  apply StronglySorted_app in Hasc' as (Hcross & H1 & H2).
  apply StronglySorted_cons in H2 as [Hx H2].
  rewrite app_assoc, sort_into_app, sort_into_ascending.
  - simpl. destruct l2 as [|y l2].
    + rewrite app_nil_r. rewrite insert_sorted_last; [done|].
      apply Forall_forall. intros z Hz. apply Hcross; [done|left].
    + rewrite insert_sorted_middle; [done| |by apply Forall_cons in Hx as [? _]].
      apply Forall_forall. intros z Hz. apply Hcross; [done|left].
  - simpl. apply StronglySorted_app. split; [|done].
    intros z1 z2 Hz1 Hz2. apply Hcross; [done|by right].
Qed.

End dynamic_sort_facts.

(** ** Dynamic allocation: the merge pass *)

Section dynamic_merge_facts.
Import Dynamic.

Lemma coalesce_cons (b : block) (l : list block) :
  coalesce (b :: l)
  = match pid b, coalesce l with
    | None, (_, z, None) :: r => (start b, size b + z, None) :: r
    | _, r => b :: r
    end.
Proof. done. Qed.

Lemma coalesce_owned (b : block) (l : list block) :
  pid b ≠ None → coalesce (b :: l) = b :: coalesce l.
Proof. rewrite coalesce_cons. by destruct (pid b). Qed.

Lemma coalesce_free_owned (b b' : block) (l : list block) :
  pid b' ≠ None → coalesce (b :: b' :: l) = b :: coalesce (b' :: l).
Proof.
  intros Hb'. rewrite (coalesce_cons b), (coalesce_owned b' l Hb').
  destruct (pid b); [done|]. destruct b' as [[s z] [p|]]; done.
Qed.

Lemma coalesce_two_free (s1 z1 s2 z2 : Z) (l : list block) :
  coalesce ((s1, z1, None) :: (s2, z2, None) :: l)
  = coalesce ((s1, z1 + z2, None) :: l).
Proof.
  rewrite !(coalesce_cons (_, _, None)). cbn [pid snd].
  destruct (coalesce l) as [|[[s z] [p|]] r]; try done.
  unfold start, size. simpl. by rewrite Z.add_assoc.
Qed.

Lemma merge_loop_coalesce_from (todo pre : list block) (m : block) :
  merge_loop todo (pre ++ [m]) = pre ++ coalesce (m :: todo).
Proof.
  revert pre m. induction todo as [|b todo IH]; intros pre m.
  - simpl. by destruct (pid m).
  - cbn [merge_loop]. rewrite last_snoc.
    destruct m as [[ms mz] [mp|]].
    + rewrite IH. rewrite <- app_assoc. simpl. done.
    + destruct b as [[bs bz] [bp|]]; cbn [is_None pid snd].
      * rewrite IH. rewrite <- app_assoc.
        by rewrite (coalesce_free_owned (ms, mz, None) (bs, bz, Some bp)).
      * rewrite removelast_last. rewrite IH.
        by rewrite coalesce_two_free.
Qed.

Lemma merge_loop_coalesce (l : list block) : merge_loop l [] = coalesce l.
Proof.
  destruct l as [|b l]; [done|]. cbn [merge_loop last].
  apply (merge_loop_coalesce_from l [] b).
Qed.

Lemma coalesce_coalesced (l : list block) : coalesced l → coalesce l = l.
Proof.
  induction l as [|b l IH]; [done|]. intros Hc.
  destruct l as [|b' l]; [simpl; by destruct (pid b)|].
  destruct Hc as [Hnn Hc]. specialize (IH Hc).
  rewrite coalesce_cons, IH. destruct (pid b) eqn:Eb; [done|].
  destruct b' as [[s z] [p|]]; [done|]. exfalso. apply Hnn. done.
Qed.

End dynamic_merge_facts.

Section dynamic_coalesce_facts.
Import Dynamic.

Lemma free_block_eq (b : block) : is_free b → b = (start b, size b, None).
Proof. destruct b as [[s z] p]. unfold is_free, pid. simpl. by intros ->. Qed.

Lemma Coalesce_single_free (b : block) (l l' : list block) :
  is_free b →
  match l with [] => True | b' :: _ => ¬ is_free b' end →
  Coalesce l l' → Coalesce (b :: l) (b :: l').
Proof.
  intros Hb Hnext HC.
  pose proof (Coalesce_run b [] l l' ltac:(by repeat constructor) Hnext HC) as H.
  simpl in H. rewrite Z.add_0_r in H. by rewrite <- (free_block_eq b Hb) in H.
Qed.

Lemma Coalesce_free_cons (b : block) (l l' : list block) :
  is_free b → Coalesce l l' →
  Coalesce (b :: l)
    (match l' with
     | (_, z, None) :: r => (start b, size b + z, None) :: r
     | _ => b :: l'
     end).
Proof.
  intros Hb HC. destruct HC as [|o l l' Ho HC|b1 run l l' Hrun Hnext HC].
  - apply Coalesce_single_free; [done..|constructor].
  - destruct o as [[s z] [p|]]; [|by destruct Ho].
    apply Coalesce_single_free; [done..|by constructor].
  - apply (Coalesce_run b (b1 :: run) l l'); [by constructor|done..].
Qed.

Lemma Coalesce_coalesce (l : list block) : Coalesce l (coalesce l).
Proof.
  induction l as [|b l IH]; [constructor|]. rewrite coalesce_cons.
  destruct (pid b) as [p|] eqn:Eb.
  - apply Coalesce_owned; [|done]. unfold is_free. by rewrite Eb.
  - pose proof (Coalesce_free_cons b l (coalesce l) Eb IH) as H.
    destruct (coalesce l) as [|[[s z] [p|]] r]; apply H.
Qed.

Lemma coalesce_coalesced_result (l : list block) : coalesced (coalesce l).
Proof.
  induction l as [|b l IH]; [done|]. rewrite coalesce_cons.
  destruct (pid b) as [p|] eqn:Eb.
  - destruct (coalesce l) as [|b' r]; [done|]. split; [|done].
    intros [H _]. unfold is_free in H. congruence.
  - destruct (coalesce l) as [|[[s z] [p|]] r]; [done| |].
    + split; [|done]. intros [_ H]. done.
    + destruct r as [|b'' r]; [done|]. destruct IH as [Hn IH].
      split; [|done]. intros [_ H]. apply Hn. done.
Qed.

Lemma coalesce_tiles (from to : Z) (l : list block) :
  tiles from l to → tiles from (coalesce l) to.
Proof.
  revert from. induction l as [|b l IH]; intros from; [done|].
  intros [Hs Ht]. apply IH in Ht. rewrite coalesce_cons.
  destruct (pid b); [done|].
  destruct (coalesce l) as [|[[s z] [p|]] r]; [done..|].
  destruct Ht as [Hs' Ht]. split; [done|]. unfold start, size in *. simpl in *.
  by rewrite Z.add_assoc.
Qed.

Lemma coalesce_starts (Q : Z → Prop) (l : list block) :
  Forall (λ b, Q (start b)) l → Forall (λ b, Q (start b)) (coalesce l).
Proof.
  induction l as [|b l IH]; [done|]. intros H.
  apply Forall_cons in H as [Hb H]. specialize (IH H). rewrite coalesce_cons.
  destruct (pid b); [by constructor|].
  destruct (coalesce l) as [|[[s z] [p|]] r]; [by constructor..|].
  apply Forall_cons in IH as [_ IH]. by constructor.
Qed.

Lemma coalesce_ascending (l : list block) : ascending l → ascending (coalesce l).
Proof.
  unfold ascending. induction l as [|b l IH]; [done|]. intros H.
  apply StronglySorted_cons in H as [Hb H]. specialize (IH H).
  apply (coalesce_starts (λ s, start b < s)) in Hb. rewrite coalesce_cons.
  destruct (pid b); [by constructor|].
  destruct (coalesce l) as [|[[s z] [p|]] r]; [by constructor..|].
  apply StronglySorted_cons in IH as [Hr IH]. apply Forall_cons in Hb as [Hb1 Hb].
  constructor; [done|]. done.
Qed.

Lemma coalesce_positive (l : list block) :
  Forall (λ b, 0 < size b) l → Forall (λ b, 0 < size b) (coalesce l).
Proof.
  induction l as [|b l IH]; [done|]. intros H.
  apply Forall_cons in H as [Hb H]. specialize (IH H). rewrite coalesce_cons.
  destruct (pid b); [by constructor|].
  destruct (coalesce l) as [|[[s z] [p|]] r]; [by constructor..|].
  apply Forall_cons in IH as [Hz IH]. constructor; [|done].
  unfold size in *. simpl in *. lia.
Qed.

Lemma relabel_shape (process_id : Z) (l : list block) :
  Forall2 (λ b b', start b' = start b ∧ size b' = size b ∧
                   pid b' = if decide (pid b = Some process_id) then None else pid b)
          l (relabel process_id l).
Proof.
  induction l as [|b l IH]; [constructor|]. simpl. constructor; [|done].
  destruct b as [[s z] [p|]]; simpl; [|done].
  destruct (p =? process_id) eqn:E; simpl.
  - apply Z.eqb_eq in E. subst. by rewrite decide_True.
  - apply Z.eqb_neq in E. rewrite decide_False; [done|congruence].
Qed.

Lemma relabel_tiles (process_id from to : Z) (l : list block) :
  tiles from l to → tiles from (relabel process_id l) to.
Proof.
  revert from. induction l as [|b l IH]; intros from; [done|].
  intros [Hs Ht]. simpl. destruct (eq_pid _ _); split; try done; by apply IH.
Qed.

Lemma relabel_Forall (P : Z → Z → Prop) (process_id : Z) (l : list block) :
  Forall (λ b, P (start b) (size b)) l →
  Forall (λ b, P (start b) (size b)) (relabel process_id l).
Proof.
  induction 1 as [|b l Hb H IH]; [constructor|]. simpl.
  constructor; [|done]. by destruct (eq_pid _ _).
Qed.

Lemma relabel_ascending (process_id : Z) (l : list block) :
  ascending l → ascending (relabel process_id l).
Proof.
  unfold ascending. induction 1 as [|b l H IH Hb]; [constructor|]. simpl.
  constructor; [done|].
  apply (relabel_Forall (λ s _, start b < s)) with (process_id := process_id) in Hb.
  by destruct (eq_pid _ _).
Qed.

Lemma relabel_absent (process_id : Z) (l : list block) :
  Forall (λ b, pid b ≠ Some process_id) l → relabel process_id l = l.
Proof.
  induction 1 as [|b l Hb H IH]; [done|]. simpl. rewrite IH. f_equal.
  destruct b as [[s z] [p|]]; simpl in *; [|done].
  destruct (p =? process_id) eqn:E; [|done]. apply Z.eqb_eq in E. congruence.
Qed.

(** [deallocate] on a sorted block list. *)
Lemma deallocate_ascending (self : t) (process_id : Z) :
  ascending (memory self) →
  deallocate self process_id
  = Ok (mk (memory_size self) (coalesce (relabel process_id (memory self)))).
Proof.
  intros Hasc. unfold deallocate, merge_free_blocks. simpl.
  rewrite sorted_ascending by by apply relabel_ascending. simpl.
  by rewrite merge_loop_coalesce.
Qed.

Lemma deallocate_invariant (self : t) (process_id : Z) :
  invariant self →
  ∃ s', deallocate self process_id = Ok s' ∧ invariant s' ∧
        memory_size s' = memory_size self.
Proof.
  intros (Ht & Ha & Hc & Hp). eexists. split; [by apply deallocate_ascending|].
  split; [|done]. split; [|split; [|split]]; simpl.
  - by apply coalesce_tiles, relabel_tiles.
  - by apply coalesce_ascending, relabel_ascending.
  - apply coalesce_coalesced_result.
  - intros HM. apply coalesce_positive.
    apply (relabel_Forall (λ _ z, 0 < z)). by apply Hp.
Qed.

End dynamic_coalesce_facts.

(** ** Dynamic allocation: [allocate] *)

Section dynamic_allocate_facts.
Import Dynamic.

Lemma first_fit_loop_hit (sz i idx : Z) (todo : list block) :
  first_fit_loop sz i todo = Some idx →
  ∃ l1 b l2, todo = l1 ++ b :: l2 ∧ idx = i + len l1 ∧ fits b sz = true.
Proof.
  revert i. induction todo as [|b todo IH]; intros i; simpl; [done|].
  destruct (fits b sz) eqn:E.
  - intros [= <-]. exists [], b, todo. split; [done|]. split; [|done].
    change (len []) with 0. lia.
  - intros H. apply IH in H as (l1 & b' & l2 & -> & -> & Hf).
    exists (b :: l1), b', l2. split; [done|]. split; [|done].
    unfold len. simpl. lia.
Qed.

Lemma extremum_loop_hit (better : Z → Z → bool) (sz i idx : Z)
    (todo : list block) (best_index best_size : option Z) :
  extremum_loop better sz i todo best_index best_size = Some idx →
  best_index = Some idx
  ∨ ∃ l1 b l2, todo = l1 ++ b :: l2 ∧ idx = i + len l1 ∧ fits b sz = true.
Proof.
  revert i best_index best_size.
  induction todo as [|b todo IH]; intros i bi bs; simpl; [by left|].
  assert (∀ bi' bs',
    extremum_loop better sz (i + 1) todo bi' bs' = Some idx →
    bi' = Some idx ∨
    ∃ l1 b0 l2, b :: todo = l1 ++ b0 :: l2 ∧ idx = i + len l1 ∧ fits b0 sz = true)
    as Hstep.
  { intros bi' bs' H. apply IH in H as [->|(l1 & b' & l2 & -> & -> & Hf)]; [by left|].
    right. exists (b :: l1), b', l2. split; [done|]. split; [|done].
    unfold len. simpl. lia. }
  destruct (fits b sz) eqn:E.
  - destruct (match bs with None => true | Some s => better (size b) s end).
    + intros H. apply Hstep in H as [[= <-]|H]; [|by right].
      right. exists [], b, todo. split; [done|]. split; [|done].
      change (len []) with 0. lia.
    + apply Hstep.
  - apply Hstep.
Qed.

Lemma find_block_hit (self : t) (sz idx : Z) (strategy : string) :
  _find_block self sz strategy = Some idx →
  ∃ l1 b l2, memory self = l1 ++ b :: l2 ∧ idx = len l1 ∧ fits b sz = true.
Proof.
  unfold _find_block.
  destruct (String.eqb strategy "first_fit").
  { intros H. apply first_fit_loop_hit in H as (l1 & b & l2 & ? & ? & ?).
    exists l1, b, l2. split; [done|]. split; [lia|done]. }
  destruct (String.eqb strategy "best_fit").
  { intros H. apply extremum_loop_hit in H as [|(l1 & b & l2 & ? & ? & ?)]; [done|].
    exists l1, b, l2. split; [done|]. split; [lia|done]. }
  destruct (String.eqb strategy "worst_fit"); [|done].
  intros H. apply extremum_loop_hit in H as [|(l1 & b & l2 & ? & ? & ?)]; [done|].
  exists l1, b, l2. split; [done|]. split; [lia|done].
Qed.

(** The block list after a successful placement in block [b]. *)
Lemma allocate_hit (self : t) (process_id sz : Z) (strategy : string)
    (l1 l2 : list block) (b : block) :
  memory self = l1 ++ b :: l2 →
  _find_block self sz strategy = Some (len l1) →
  let rest := if size b - sz =? 0 then l2
              else (start b + sz, size b - sz, None) :: l2 in
  ascending (l1 ++ (start b, sz, Some process_id) :: rest) →
  allocate self process_id sz strategy
  = Ok (true, mk (memory_size self) (l1 ++ (start b, sz, Some process_id) :: rest)).
Proof.
  intros Hmem Hfind rest Hasc. unfold allocate. rewrite Hfind, Hmem.
  pose proof (len_nonneg l1) as Hl1.
  assert (len l1 < len (l1 ++ b :: l2)) as Hlt
    by (unfold len; rewrite length_app; simpl; lia).
  rewrite (getitem_in_range _ _ b);
    [|done|apply list_lookup_middle; unfold len; lia]. simpl.
  rewrite setitem_in_range by lia. simpl.
  replace (Z.to_nat (len l1)) with (length l1 + 0)%nat by (unfold len; lia).
  rewrite insert_app_r. simpl.
  rewrite (getitem_in_range (A := block) _ _ (start b + sz, size b - sz, None));
    [|done|apply list_lookup_middle; unfold len; lia]. simpl.
  change (size (start b + sz, size b - sz, None)) with (size b - sz).
  subst rest. destruct (size b - sz =? 0) eqn:E.
  - unfold pop. rewrite index_in_range
      by (unfold len in *; rewrite length_app in *; simpl in *; lia).
    simpl. replace (Z.to_nat (len l1)) with (length l1) by (unfold len; lia).
    rewrite delete_middle. rewrite <- app_assoc.
    by rewrite sorted_moved_last.
  - simpl. rewrite <- app_assoc.
    rewrite (sorted_moved_last _ l1 ((start b + sz, size b - sz, None) :: l2));
      done.
Qed.

Lemma tiles_app (from to : Z) (l1 l2 : list block) :
  tiles from (l1 ++ l2) to ↔ ∃ mid, tiles from l1 mid ∧ tiles mid l2 to.
Proof.
  revert from. induction l1 as [|b l1 IH]; intros from; simpl.
  - split; [intros H; by exists from|by intros (mid & -> & H)].
  - rewrite IH. split.
    + intros (Hs & mid & H1 & H2). by exists mid.
    + intros (mid & (Hs & H1) & H2). split; [done|]. by exists mid.
Qed.

Lemma ascending_same_start (l1 l2 : list block) (b x : block) :
  start x = start b → ascending (l1 ++ b :: l2) → ascending (l1 ++ x :: l2).
Proof.
  intros Hx Hasc. apply StronglySorted_app in Hasc as (Hcross & H1 & H2).
  apply StronglySorted_cons in H2 as [Hb H2].
  apply StronglySorted_app. split; [|split; [done|]].
  - intros z1 z2 Hz1 Hz2. apply elem_of_cons in Hz2 as [->|Hz2].
    + rewrite Hx. apply Hcross; [done|left].
    + apply Hcross; [done|by right].
  - constructor; [done|]. eapply Forall_impl; [exact Hb|].
    intros z Hz. simpl in *. by rewrite Hx.
Qed.

Lemma ascending_split (l1 l2 : list block) (b x r : block) :
  start x = start b → start b < start r →
  Forall (λ y, start r < start y) l2 →
  ascending (l1 ++ b :: l2) → ascending (l1 ++ x :: r :: l2).
Proof.
  intros Hx Hr Hl2 Hasc. apply StronglySorted_app in Hasc as (Hcross & H1 & H2).
  apply StronglySorted_cons in H2 as [Hb H2].
  apply StronglySorted_app. split; [|split; [done|]].
  - intros z1 z2 Hz1 Hz2. pose proof (Hcross z1 b Hz1 ltac:(left)) as Hz1b.
    apply elem_of_cons in Hz2 as [->|Hz2]; [by rewrite Hx|].
    apply elem_of_cons in Hz2 as [->|Hz2]; [lia|].
    apply Hcross; [done|by right].
  - constructor; [constructor; done|]. constructor; [by rewrite Hx|].
    eapply Forall_impl; [exact Hb|]. intros z Hz. simpl in *. by rewrite Hx.
Qed.

(** In a sorted tiling every block after [b] starts at or past [b]'s end. *)
Lemma tiles_ascending_after (from to : Z) (l : list block) :
  tiles from l to → ascending l → Forall (λ y, from ≤ start y) l.
Proof.
  intros Ht Ha. destruct l as [|y l]; [constructor|].
  destruct Ht as [Hy _]. apply StronglySorted_cons in Ha as [Hy2 _].
  constructor; [lia|]. eapply Forall_impl; [exact Hy2|]. intros z Hz. simpl in *. lia.
Qed.

Lemma coalesced_middle (l1 l2 : list block) (b : block) :
  coalesced (l1 ++ b :: l2) ↔ coalesced (l1 ++ [b]) ∧ coalesced (b :: l2).
Proof.
  induction l1 as [|a l1 IH]; [simpl; tauto|].
  destruct l1 as [|a' l1]; [simpl; tauto|].
  change (coalesced ((a :: a' :: l1) ++ b :: l2))
    with (¬ (is_free a ∧ is_free a') ∧ coalesced ((a' :: l1) ++ b :: l2)).
  change (coalesced ((a :: a' :: l1) ++ [b]))
    with (¬ (is_free a ∧ is_free a') ∧ coalesced ((a' :: l1) ++ [b])).
  tauto.
Qed.

Lemma coalesced_last_owned (l1 : list block) (b x : block) :
  ¬ is_free x → coalesced (l1 ++ [b]) → coalesced (l1 ++ [x]).
Proof.
  intros Hx. induction l1 as [|a l1 IH]; [done|].
  destruct l1 as [|a' l1]; [simpl; tauto|].
  change (coalesced ((a :: a' :: l1) ++ [b]))
    with (¬ (is_free a ∧ is_free a') ∧ coalesced ((a' :: l1) ++ [b])).
  change (coalesced ((a :: a' :: l1) ++ [x]))
    with (¬ (is_free a ∧ is_free a') ∧ coalesced ((a' :: l1) ++ [x])).
  tauto.
Qed.

Lemma coalesced_tail (b : block) (l : list block) :
  coalesced (b :: l) → coalesced l.
Proof. destruct l; simpl; tauto. Qed.

Lemma fits_inv (b : block) (sz : Z) :
  fits b sz = true → is_free b ∧ sz ≤ size b.
Proof.
  unfold fits, is_free. intros H. apply andb_true_iff in H as [H1 H2].
  split; [by destruct (pid b)|lia].
Qed.

Lemma allocate_invariant (self : t) (process_id sz : Z) (strategy : string) :
  0 < sz → invariant self →
  ∃ r s', allocate self process_id sz strategy = Ok (r, s') ∧ invariant s' ∧
          memory_size s' = memory_size self.
Proof.
  intros Hsz (Ht & Ha & Hc & Hp).
  destruct (_find_block self sz strategy) as [idx|] eqn:Hfind.
  2:{ exists false, self. unfold allocate. rewrite Hfind. by repeat split. }
  destruct (find_block_hit _ _ _ _ Hfind) as (l1 & b & l2 & Hmem & -> & Hfit).
  apply fits_inv in Hfit as [Hfree Hge].
  rewrite Hmem in Ht, Ha, Hc, Hp.
  apply tiles_app in Ht as (mid & Ht1 & Hsb & Ht2).
  pose proof Ha as Ha'.
  apply StronglySorted_app in Ha' as (Hcross & Ha1 & Ha2).
  apply StronglySorted_cons in Ha2 as [Hb2 Ha2].
  apply coalesced_middle in Hc as [Hc1 Hc2].
  set (x := (start b, sz, Some process_id) : block).
  set (rest := if size b - sz =? 0 then l2
               else (start b + sz, size b - sz, None) :: l2).
  assert (ascending (l1 ++ x :: rest)) as Hasc.
  { subst rest. destruct (size b - sz =? 0) eqn:E.
    - by apply (ascending_same_start l1 l2 b x).
    - apply Z.eqb_neq in E.
      apply (ascending_split l1 l2 b x); [done|unfold start; simpl; lia| |done].
      pose proof (tiles_ascending_after _ _ _ Ht2 Ha2) as Hafter.
      eapply Forall_impl; [exact Hafter|]. intros z Hz.
      unfold start in *. simpl in *. lia. }
  exists true, (mk (memory_size self) (l1 ++ x :: rest)).
  split; [by apply allocate_hit|]. split; [|done].
  split; [|split; [done|split]]; simpl.
  - apply tiles_app. exists mid. split; [done|]. split; [done|].
    change (size x) with sz. subst rest. destruct (size b - sz =? 0) eqn:E.
    + apply Z.eqb_eq in E. by replace (mid + sz) with (mid + size b) by lia.
    + split; [unfold start in *; simpl in *; lia|].
      change (size (start b + sz, size b - sz, None)) with (size b - sz).
      by replace (mid + sz + (size b - sz)) with (mid + size b) by lia.
  - apply coalesced_middle. split.
    + by apply (coalesced_last_owned l1 b x).
    + subst rest. destruct (size b - sz =? 0).
      * destruct l2 as [|y l2]; [done|]. split; [by intros [? _]|].
        by apply coalesced_tail in Hc2.
      * split; [by intros [? _]|]. destruct l2 as [|y l2]; [done|].
        destruct Hc2 as [Hny Hc2]. split; [|done]. intros [_ Hy]. by apply Hny.
  - intros HM. specialize (Hp HM). apply Forall_app in Hp as [Hp1 Hp2].
    apply Forall_cons in Hp2 as [Hpb Hp2]. apply Forall_app. split; [done|].
    constructor; [done|]. subst rest. destruct (size b - sz =? 0) eqn:E; [done|].
    apply Z.eqb_neq in E. constructor; [|done].
    change (0 < size b - sz). lia.
Qed.

Lemma init_invariant (memory_size : Z) : invariant (init memory_size).
Proof.
  split; [|split; [|split]]; simpl.
  - split; [done|]. unfold size. simpl. lia.
  - repeat constructor.
  - done.
  - intros HM. by repeat constructor.
Qed.

Lemma dynamic_run_invariant (self : t) (ops : list op) :
  invariant self → Forall positive_request ops →
  ∃ s, run self ops = Ok s ∧ invariant s ∧ memory_size s = memory_size self.
Proof.
  revert self. induction ops as [|o ops IH]; intros self Hinv Hops; simpl.
  - by exists self.
  - apply Forall_cons in Hops as [Ho Hops]. destruct o as [p sz strategy|p]; simpl.
    + destruct (allocate_invariant self p sz strategy Ho Hinv)
        as (r & s' & -> & Hinv' & <-).
      simpl. by apply IH.
    + destruct (deallocate_invariant self p Hinv) as (s' & -> & Hinv' & <-).
      simpl. by apply IH.
Qed.

End dynamic_allocate_facts.

(** ** Buddy system *)

Section buddy_facts.
Import Buddy.

Lemma bit_length_nonneg (x : Z) : 0 ≤ bit_length x.
Proof.
  unfold bit_length. destruct (x =? 0); [done|].
  pose proof (Z.log2_nonneg (Z.abs x)). lia.
Qed.

Lemma next_power_of_two_pow (x : Z) :
  _next_power_of_two x = 2 ^ bit_length (x - 1).
Proof.
  unfold _next_power_of_two.
  rewrite Z.shiftl_mul_pow2 by apply bit_length_nonneg. lia.
Qed.

Lemma next_power_of_two_pos (x : Z) : 1 ≤ _next_power_of_two x.
Proof.
  rewrite next_power_of_two_pow.
  assert (0 < 2 ^ bit_length (x - 1))
    by (apply Z.pow_pos_nonneg; [lia|apply bit_length_nonneg]).
  lia.
Qed.

(** For a request of at least one unit the result is the least power of
    two that is not below it. *)
Lemma next_power_of_two_least (x : Z) :
  1 ≤ x →
  ∃ k, 0 ≤ k ∧ _next_power_of_two x = 2 ^ k ∧ x ≤ 2 ^ k ∧
       (0 < k → 2 ^ (k - 1) < x).
Proof.
  intros Hx. rewrite next_power_of_two_pow. exists (bit_length (x - 1)).
  split; [apply bit_length_nonneg|]. split; [done|].
  unfold bit_length. destruct (x - 1 =? 0) eqn:E.
  - apply Z.eqb_eq in E. simpl. lia.
  - apply Z.eqb_neq in E. rewrite Z.abs_eq by lia.
    pose proof (Z.log2_spec (x - 1) ltac:(lia)) as [Hlo Hhi].
    replace (Z.log2 (x - 1) + 1 - 1) with (Z.log2 (x - 1)) by lia.
    replace (Z.log2 (x - 1) + 1) with (Z.succ (Z.log2 (x - 1))) by lia. lia.
Qed.

Lemma pow2_fuel (n : Z) : n < 2 ^ Z.of_nat (S (Z.to_nat (Z.log2 n))).
Proof.
  destruct (decide (0 < n)) as [Hn|Hn].
  - pose proof (Z.log2_spec n Hn) as [_ Hhi]. pose proof (Z.log2_nonneg n).
    replace (Z.of_nat (S (Z.to_nat (Z.log2 n)))) with (Z.succ (Z.log2 n)) by lia.
    done.
  - assert (0 < 2 ^ Z.of_nat (S (Z.to_nat (Z.log2 n))))
      by (apply Z.pow_pos_nonneg; lia).
    lia.
Qed.

Lemma split_total (fuel : nat) (address current_size sz : Z) (fb : gmap Z (list Z)) :
  1 ≤ sz → current_size < 2 ^ Z.of_nat fuel →
  ∃ fb', split fuel address current_size sz fb = Ok fb'.
Proof.
  intros Hsz. revert current_size fb.
  induction fuel as [|fuel IH]; intros cs fb Hcs.
  - simpl in *. destruct (cs >? sz) eqn:E; [lia|by eexists].
  - simpl. destruct (cs >? sz) eqn:E; [|by eexists].
    apply IH. rewrite Nat2Z.inj_succ, Z.pow_succ_r in Hcs by lia.
    apply Z.div_lt_upper_bound; lia.
Qed.

#[local] Arguments Buddy.split : simpl never.

Lemma remove_spec (x : Z) (l : list Z) :
  x ∈ l →
  ∃ before after, l = before ++ x :: after ∧ (x ∉ before) ∧
    remove x l = Ok (before ++ after).
Proof.
  induction l as [|y l IH]; intros Hin; [by apply elem_of_nil in Hin|].
  simpl. destruct (y =? x) eqn:E.
  - apply Z.eqb_eq in E. subst y. exists [], l. split; [done|].
    split; [apply not_elem_of_nil|done].
  - apply Z.eqb_neq in E. apply elem_of_cons in Hin as [->|Hin]; [done|].
    destruct (IH Hin) as (before & after & -> & Hnot & ->).
    exists (y :: before), after. split; [done|]. split; [|done].
    intros H. apply elem_of_cons in H as [->|H]; done.
Qed.

Lemma merge_Merged (fuel : nat) (total address sz : Z) (fb : gmap Z (list Z)) :
  1 ≤ sz → total < sz * 2 ^ Z.of_nat fuel →
  ∃ fb', merge fuel total address sz fb = Ok fb' ∧ Merged total address sz fb fb'.
Proof.
  revert address sz fb. induction fuel as [|fuel IH]; intros address sz fb Hsz Hf.
  - simpl in *. destruct (sz <=? total) eqn:E; [lia|].
    exists fb. split; [done|]. apply Merged_past. lia.
  - simpl. destruct (sz <=? total) eqn:E.
    2:{ exists fb. split; [done|]. apply Merged_past. lia. }
    apply Z.leb_le in E. case_bool_decide as Hin.
    + destruct (fb !! sz) as [bucket|] eqn:Hb; [|by apply elem_of_nil in Hin].
      simpl in Hin.
      destruct (remove_spec _ _ Hin) as (before & after & -> & Hnot & ->). simpl.
      destruct (IH (Z.min address (Z.lxor address sz)) (sz * 2)
                   (<[sz := before ++ after]> fb)) as (fb' & Hm & HM); [lia| |].
      { rewrite Nat2Z.inj_succ, Z.pow_succ_r in Hf by lia. lia. }
      exists fb'. split; [done|]. by eapply Merged_step.
    + eexists. split; [done|]. by apply Merged_insert.
Qed.

Lemma sorted_keys_elem (fb : gmap Z (list Z)) (k : Z) :
  k ∈ sorted_keys fb → is_Some (fb !! k).
Proof.
  unfold sorted_keys. rewrite merge_sort_Permutation.
  intros H. apply list_elem_of_fmap in H as ([k' v] & -> & H).
  apply elem_of_map_to_list in H. by exists v.
Qed.

Lemma scan_total (self : t) (sz : Z) (todo : list Z) :
  1 ≤ sz → (∀ k, k ∈ todo → is_Some (free_blocks self !! k)) →
  ∃ r s', scan self sz todo = Ok (r, s').
Proof.
  intros Hsz. induction todo as [|cs todo IH]; intros Hkeys; simpl.
  - by eexists _, _.
  - destruct (Hkeys cs ltac:(left)) as [bucket Hb]. rewrite Hb.
    destruct (cs >=? sz); simpl.
    + destruct bucket as [|address bucket]; simpl.
      * apply IH. intros k Hk. apply Hkeys. by right.
      * match goal with |- context [split ?f ?a ?c ?s ?m] =>
          destruct (split_total f a c s m Hsz (pow2_fuel _)) as [fb' ->] end.
        simpl. by eexists _, _.
    + apply IH. intros k Hk. apply Hkeys. by right.
Qed.

Lemma scan_no_address (self s' : t) (sz : Z) (todo : list Z) :
  scan self sz todo = Ok (None, s') → s' = self.
Proof.
  induction todo as [|cs todo IH]; simpl; [by intros [= ->]|].
  intros H. apply bind_Ok in H as (hit & _ & H). destruct hit; [|by apply IH].
  destruct (free_blocks self !! cs) as [[|address bucket]|]; try done.
  apply bind_Ok in H as (fb & _ & H). done.
Qed.

End buddy_facts.

Section unequal_parallel_facts.
Import Unequal.

Lemma unequal_init_parallel (ps : list Z) :
  length (allocated (init ps)) = length (partitions (init ps)).
Proof. simpl. apply length_replicate. Qed.

Lemma unequal_allocate_parallel (self s' : t) (process_id size : Z)
    (strategy : string) (r : bool) :
  length (allocated self) = length (partitions self) →
  allocate self process_id size strategy = Ok (r, s') →
  length (allocated s') = length (partitions s').
Proof.
  intros Hlen H. unfold allocate in H. apply bind_Ok in H as (index & _ & H).
  destruct index as [i|]; [|by inversion H; subst].
  apply bind_Ok in H as (al & Hal & H). inversion H; subst. simpl.
  unfold setitem in Hal. destruct (PyOps.index _ _); [|done].
  inversion Hal. by rewrite length_insert.
Qed.

Lemma unequal_deallocate_spec (self : t) (process_id : Z) :
  deallocate self process_id
  = Ok (mk (partitions self) (cleared process_id (allocated self))).
Proof. unfold deallocate. by rewrite clear_loop_spec. Qed.

Lemma unequal_run_parallel (self s : t) (ops : list op) :
  length (allocated self) = length (partitions self) →
  run self ops = Ok s → length (allocated s) = length (partitions s).
Proof.
  revert self. induction ops as [|o ops IH]; intros self Hlen; simpl.
  - by intros [= <-].
  - intros H. apply bind_Ok in H as (s1 & Hstep & H). apply (IH s1); [|done].
    destruct o as [p size strategy|p]; simpl in Hstep.
    + apply bind_Ok in Hstep as ([r s2] & Ha & [= <-]).
      by eapply unequal_allocate_parallel.
    + rewrite unequal_deallocate_spec in Hstep. injection Hstep as <-. simpl.
      unfold cleared. by rewrite length_fmap.
Qed.

End unequal_parallel_facts.

Lemma tiles_sum (from to : Z) (l : list Dynamic.block) :
  Dynamic.tiles from l to → from + foldr Z.add 0 (Dynamic.size <$> l) = to.
Proof.
  revert from. induction l as [|b l IH]; intros from; [simpl; lia|].
  intros [_ H]. apply IH in H. rewrite fmap_cons. simpl. lia.
Qed.

(** * The documented properties *)



(** C6. Paging: from the empty page table of a constructed allocator, every
    sequence of allocations and deallocations runs to the end and leaves a
    page table in which no frame is the value of two entries. *)
Theorem paging_frames_never_shared
    (memory_size page_size : Z) (s0 : Paging.t) (ops : list Paging.op) :
  Paging.init memory_size page_size = Ok s0 →
  ∃ s, Paging.run s0 ops = Ok s ∧ Paging.frames_unshared (Paging.page_table s).
Proof.
  intros Hinit. unfold Paging.init, floordiv in Hinit.
  destruct (page_size =? 0) eqn:E; [done|]. apply Z.eqb_neq in E.
  simpl in Hinit. injection Hinit as <-.
  destruct (paging_run_invariant
              (Paging.mk memory_size page_size (memory_size / page_size) ∅) ops)
    as (s & Hrun & _ & Hinv); [done| |by exists s].
  intros k1 k2 frame H. simpl in H. by rewrite lookup_empty in H.
Qed.

Lemma paging_frames_never_shared_witness :
  Paging.init 40 10 = Ok (Paging.mk 40 10 4 ∅) ∧
  ∃ s, Paging.run (Paging.mk 40 10 4 ∅)
         [Paging.Allocate 1 20; Paging.Allocate 2 15; Paging.Deallocate 1;
          Paging.Allocate 2 20]
       = Ok s ∧ Paging.frames_unshared (Paging.page_table s).
Proof.
  split; [reflexivity|].
  apply (paging_frames_never_shared 40 10). reflexivity.
Defined.



(** C7. Unequal partitioning, [best_fit], on a state whose occupancy list
    parallels the partition list (as the constructor builds it and every
    operation keeps it): [allocate] either occupies a free partition of
    least sufficient size, the lowest index among those of that size, and
    returns [True]; or no free partition is large enough and it returns
    [False], the state unchanged.  With partitions [10, 20, 30] a request
    of 12 occupies the size-20 partition, index 1. *)
Theorem unequal_best_fit_selects_smallest :
  (∀ (self : Unequal.t) (process_id size : Z),
     length (Unequal.allocated self) = length (Unequal.partitions self) →
     (∃ i, Unequal.best_candidate self size i ∧
           Unequal.allocate self process_id size "best_fit"
           = Ok (true, Unequal.mk (Unequal.partitions self)
                         (<[i := Some process_id]> (Unequal.allocated self))))
     ∨ ((∀ i, ¬ Unequal.candidate self size i) ∧
        Unequal.allocate self process_id size "best_fit" = Ok (false, self)))
  ∧ Unequal.allocate (Unequal.init [10; 20; 30]) 1 12 "best_fit"
    = Ok (true, Unequal.mk [10; 20; 30] [None; Some 1; None]).
Proof.
  split.
  - intros self process_id size Hlen. by apply allocate_best_fit.
  - vm_compute. reflexivity.
Qed.

(** Two partitions of the same sufficient size: the lower index wins. *)
Lemma unequal_best_fit_selects_smallest_witness :
  let self := Unequal.mk [30; 20; 20] [None; None; None] in
  length (Unequal.allocated self) = length (Unequal.partitions self) ∧
  ((∃ i, Unequal.best_candidate self 15 i ∧
         Unequal.allocate self 1 15 "best_fit"
         = Ok (true, Unequal.mk (Unequal.partitions self)
                       (<[i := Some 1]> (Unequal.allocated self))))
   ∨ ((∀ i, ¬ Unequal.candidate self 15 i) ∧
      Unequal.allocate self 1 15 "best_fit" = Ok (false, self))).
Proof.
  intros self. split; [reflexivity|].
  apply (proj1 unequal_best_fit_selects_smallest self 1 15). reflexivity.
Defined.

(** C4. Dynamic allocation: from the initial single free block, every
    sequence of deallocations and of allocations of positive size runs to
    the end, and its block list tiles [0, memory_size): the first block
    starts at 0, each next block starts where the previous one ends, the
    last one ends at [memory_size], the sizes add up to [memory_size], and
    the starts increase strictly along the list; when the memory is not
    empty every block has a positive size, so no two blocks overlap. *)
Theorem dynamic_blocks_tile_memory (memory_size : Z) (ops : list Dynamic.op) :
  Forall Dynamic.positive_request ops →
  ∃ s, Dynamic.run (Dynamic.init memory_size) ops = Ok s ∧
    Dynamic.memory_size s = memory_size ∧
    Dynamic.tiles 0 (Dynamic.memory s) memory_size ∧
    foldr Z.add 0 (Dynamic.size <$> Dynamic.memory s) = memory_size ∧
    Dynamic.ascending (Dynamic.memory s) ∧
    (0 < memory_size → Forall (λ b, 0 < Dynamic.size b) (Dynamic.memory s)).
Proof.
  intros Hops.
  destruct (dynamic_run_invariant (Dynamic.init memory_size) ops
              (init_invariant memory_size) Hops)
    as (s & Hrun & (Ht & Ha & _ & Hp) & Hsize).
  simpl in Hsize. rewrite Hsize in Ht, Hp.
  exists s. split; [done|]. split; [done|]. split; [done|].
  split; [|by split]. by apply tiles_sum in Ht.
Qed.

Lemma dynamic_blocks_tile_memory_witness :
  let ops := [Dynamic.Allocate 1 30 "first_fit"; Dynamic.Allocate 2 30 "best_fit";
              Dynamic.Deallocate 1; Dynamic.Allocate 3 10 "worst_fit"] in
  Forall Dynamic.positive_request ops ∧
  ∃ s, Dynamic.run (Dynamic.init 100) ops = Ok s ∧
    Dynamic.memory_size s = 100 ∧
    Dynamic.tiles 0 (Dynamic.memory s) 100 ∧
    foldr Z.add 0 (Dynamic.size <$> Dynamic.memory s) = 100 ∧
    Dynamic.ascending (Dynamic.memory s) ∧
    (0 < 100 → Forall (λ b, 0 < Dynamic.size b) (Dynamic.memory s)).
Proof.
  intros ops.
  assert (Forall Dynamic.positive_request ops) as Hops
    by (repeat constructor; simpl; lia).
  split; [exact Hops|].
  exact (dynamic_blocks_tile_memory 100 ops Hops).
Defined.

(** C3, as documented, fails after requests of size zero, which the
    engine accepts: with 100 units, [allocate(1, 0)] and [allocate(2, 0)]
    leave two empty blocks at address 0 before the free block, and
    [deallocate(1)] then raises [TypeError] instead of merging, because
    sorting the relabelled list compares the owner [None] of the first
    empty block with the owner 2 of the second. *)
Lemma dynamic_deallocate_zero_size_raises :
  Dynamic.run (Dynamic.init 100)
    [Dynamic.Allocate 1 0 "first_fit"; Dynamic.Allocate 2 0 "first_fit"]
  = Ok (Dynamic.mk 100 [(0, 0, Some 1); (0, 0, Some 2); (0, 100, None)]) ∧
  Dynamic.deallocate
    (Dynamic.mk 100 [(0, 0, Some 1); (0, 0, Some 2); (0, 100, None)]) 1
  = Raise TypeError.
Proof. split; vm_compute; reflexivity. Qed.

(** C3, amended.  Dynamic allocation: in every state of a session of
    deallocations and positive-size allocations, [deallocate] returns.
    The old block list with the blocks of the process relabelled free
    (starts and sizes kept, other owners kept) is in ascending address
    order and covers the memory end to end, so that its neighbours are
    the blocks adjacent in memory; the new block list is that list with
    every maximal run of adjacent free blocks replaced by one free block
    that starts where the run starts and whose size is the sum of the
    run.  The new list has no two neighbouring free blocks and is again
    in ascending address order, covering the memory end to end.  With 100
    units, after allocating 30, 30 and 40 to processes 1, 2 and 3 and
    releasing 1 and then 2, the list is the free block at 0 of size 60
    followed by the block of process 3, under each of the three
    strategies. *)
Theorem dynamic_deallocate_coalesces_runs :
  (∀ (memory_size : Z) (ops : list Dynamic.op) (s : Dynamic.t) (process_id : Z),
     Forall Dynamic.positive_request ops →
     Dynamic.run (Dynamic.init memory_size) ops = Ok s →
     ∃ relabelled s',
       Dynamic.deallocate s process_id = Ok s' ∧
       Dynamic.memory_size s' = Dynamic.memory_size s ∧
       Forall2 (λ b b', Dynamic.start b' = Dynamic.start b ∧
                        Dynamic.size b' = Dynamic.size b ∧
                        Dynamic.pid b' = if decide (Dynamic.pid b = Some process_id)
                                         then None else Dynamic.pid b)
               (Dynamic.memory s) relabelled ∧
       Dynamic.ascending relabelled ∧
       Dynamic.tiles 0 relabelled memory_size ∧
       Dynamic.Coalesce relabelled (Dynamic.memory s') ∧
       Dynamic.coalesced (Dynamic.memory s') ∧
       Dynamic.ascending (Dynamic.memory s') ∧
       Dynamic.tiles 0 (Dynamic.memory s') memory_size)
  ∧ (∀ strategy, strategy ∈ ["first_fit"; "best_fit"; "worst_fit"] →
     Dynamic.run (Dynamic.init 100)
       [Dynamic.Allocate 1 30 strategy; Dynamic.Allocate 2 30 strategy;
        Dynamic.Allocate 3 40 strategy; Dynamic.Deallocate 1; Dynamic.Deallocate 2]
     = Ok (Dynamic.mk 100 [(0, 60, None); (60, 40, Some 3)])).
Proof.
  split.
  - intros memory_size ops s process_id Hops Hrun.
    destruct (dynamic_run_invariant (Dynamic.init memory_size) ops
                (init_invariant memory_size) Hops) as (s0 & Hrun0 & Hinv & Hsize).
    rewrite Hrun in Hrun0. injection Hrun0 as <-. simpl in Hsize.
    destruct Hinv as (Ht & Ha & _). rewrite Hsize in Ht.
    exists (Dynamic.relabel process_id (Dynamic.memory s)).
    eexists. split; [by apply deallocate_ascending|]. simpl.
    split; [done|]. split; [apply relabel_shape|].
    split; [by apply relabel_ascending|].
    split; [by apply relabel_tiles|].
    split; [apply Coalesce_coalesce|].
    split; [apply coalesce_coalesced_result|].
    split; [by apply coalesce_ascending, relabel_ascending|].
    by apply coalesce_tiles, relabel_tiles.
  - intros strategy Hs. repeat (apply elem_of_cons in Hs as [->|Hs]);
      [vm_compute; reflexivity..|by apply elem_of_nil in Hs].
Qed.

(** The documented session itself: releasing process 2 when the block of
    process 1 before it is already free. *)
Lemma dynamic_deallocate_coalesces_runs_witness :
  let ops := [Dynamic.Allocate 1 30 "first_fit"; Dynamic.Allocate 2 30 "first_fit";
              Dynamic.Allocate 3 40 "first_fit"; Dynamic.Deallocate 1] in
  let s := Dynamic.mk 100 [(0, 30, None); (30, 30, Some 2); (60, 40, Some 3)] in
  Forall Dynamic.positive_request ops ∧
  Dynamic.run (Dynamic.init 100) ops = Ok s ∧
  ∃ relabelled s',
    Dynamic.deallocate s 2 = Ok s' ∧
    Dynamic.memory_size s' = Dynamic.memory_size s ∧
    Forall2 (λ b b', Dynamic.start b' = Dynamic.start b ∧
                     Dynamic.size b' = Dynamic.size b ∧
                     Dynamic.pid b' = if decide (Dynamic.pid b = Some 2)
                                      then None else Dynamic.pid b)
            (Dynamic.memory s) relabelled ∧
    Dynamic.ascending relabelled ∧
    Dynamic.tiles 0 relabelled 100 ∧
    Dynamic.Coalesce relabelled (Dynamic.memory s') ∧
    Dynamic.coalesced (Dynamic.memory s') ∧
    Dynamic.ascending (Dynamic.memory s') ∧
    Dynamic.tiles 0 (Dynamic.memory s') 100.
Proof.
  intros ops s.
  assert (Forall Dynamic.positive_request ops) as Hops
    by (repeat constructor; simpl; lia).
  assert (Dynamic.run (Dynamic.init 100) ops = Ok s) as Hrun
    by (vm_compute; reflexivity).
  split; [exact Hops|]. split; [exact Hrun|].
  exact (proj1 dynamic_deallocate_coalesces_runs 100 ops s 2 Hops Hrun).
Defined.




(** C10. A failed [allocate] of the unequal, the dynamic or the buddy
    engine ([False], respectively no address) returns the state it was
    given. *)
Theorem failed_allocate_leaves_state :
  (∀ (self s' : Unequal.t) (process_id size : Z) (strategy : string),
     Unequal.allocate self process_id size strategy = Ok (false, s') → s' = self)
  ∧ (∀ (self s' : Dynamic.t) (process_id size : Z) (strategy : string),
     Dynamic.allocate self process_id size strategy = Ok (false, s') → s' = self)
  ∧ (∀ (self s' : Buddy.t) (process_id size : Z),
     Buddy.allocate self process_id size = Ok (None, s') → s' = self).
Proof.
  split; [|split].
  - intros self s' process_id size strategy H. unfold Unequal.allocate in H.
    apply bind_Ok in H as (index & _ & H). destruct index as [i|].
    + apply bind_Ok in H as (al & _ & H). done.
    + by injection H as <-.
  - intros self s' process_id size strategy H. unfold Dynamic.allocate in H.
    destruct (Dynamic._find_block self size strategy); [|by injection H as <-].
    repeat (apply bind_Ok in H as (? & _ & H)). done.
  - intros self s' process_id size H. by apply scan_no_address in H.
Qed.

(** Requests larger than anything free, one per engine. *)
Lemma failed_allocate_leaves_state_witness :
  (∃ s', Unequal.allocate (Unequal.init [10; 20; 30]) 1 40 "worst_fit" = Ok (false, s')
         ∧ s' = Unequal.init [10; 20; 30]) ∧
  (∃ s', Dynamic.allocate (Dynamic.init 100) 1 101 "best_fit" = Ok (false, s')
         ∧ s' = Dynamic.init 100) ∧
  (∃ s', Buddy.allocate (Buddy.init 64) 1 65 = Ok (None, s')
         ∧ s' = Buddy.init 64).
Proof.
  destruct failed_allocate_leaves_state as (Hu & Hd & Hb).
  split; [|split].
  - exists (Unequal.mk [10; 20; 30] [None; None; None]).
    assert (Unequal.allocate (Unequal.init [10; 20; 30]) 1 40 "worst_fit"
            = Ok (false, Unequal.mk [10; 20; 30] [None; None; None])) as H
      by (vm_compute; reflexivity).
    split; [exact H|exact (Hu _ _ _ _ _ H)].
  - exists (Dynamic.mk 100 [(0, 100, None)]).
    assert (Dynamic.allocate (Dynamic.init 100) 1 101 "best_fit"
            = Ok (false, Dynamic.mk 100 [(0, 100, None)])) as H
      by (vm_compute; reflexivity).
    split; [exact H|exact (Hd _ _ _ _ _ H)].
  - exists (Buddy.mk 64 {[ 64 := [0] ]}).
    assert (Buddy.allocate (Buddy.init 64) 1 65
            = Ok (None, Buddy.mk 64 {[ 64 := [0] ]})) as H
      by (vm_compute; reflexivity).
    split; [exact H|exact (Hb _ _ _ _ H)].
Defined.

(** The documented values of the rounding. *)
Example next_power_of_two_values :
  Buddy._next_power_of_two <$> [1; 5; 8; 9] = [1; 8; 8; 16].
Proof. reflexivity. Qed.

(** The buddy [allocate] always returns: no lookup misses, and the
    splitting loop ends within its unrolling bound. *)
Lemma buddy_allocate_total (self : Buddy.t) (process_id sz : Z) :
  ∃ r s', Buddy.allocate self process_id sz = Ok (r, s').
Proof.
  unfold Buddy.allocate. apply scan_total.
  - apply next_power_of_two_pos.
  - intros k Hk. by apply sorted_keys_elem.
Qed.

(** C2. Buddy system of size 64: [allocate(1, 5)] rounds the request to 8
    and returns address 0, leaving the upper halves 32, 16 and 8 free in
    their buckets; [deallocate(0, 8)] then merges upward through 8, 16 and
    32 and lists address 0 in bucket 64.  The buckets 8, 16 and 32 it
    emptied stay in the structure as empty lists, so the result is not the
    structure [{64: [0]}] of construction, although [allocate] itself drops
    a bucket it empties. *)
Theorem buddy_round_trip_keeps_emptied_buckets :
  Buddy._next_power_of_two 5 = 8 ∧
  Buddy.allocate (Buddy.init 64) 1 5
  = Ok (Some 0, Buddy.mk 64 {[ 8 := [8]; 16 := [16]; 32 := [32] ]}) ∧
  Buddy.deallocate (Buddy.mk 64 {[ 8 := [8]; 16 := [16]; 32 := [32] ]}) 0 8
  = Ok (Buddy.mk 64 {[ 8 := []; 16 := []; 32 := []; 64 := [0] ]}) ∧
  Buddy.mk 64 {[ 8 := []; 16 := []; 32 := []; 64 := [0] ]} ≠ Buddy.init 64.
Proof.
  split; [reflexivity|].
  split; [vm_compute; reflexivity|].
  split; [vm_compute; reflexivity|].
  intros H. apply (f_equal (λ s, Buddy.free_blocks s !! 8)) in H.
  vm_compute in H. discriminate.
Qed.

(** C5, as documented, fails where the current size passes the total:
    releasing address 64 with size 64 into the fresh structure of size 64
    merges with the free block 0, the size becomes 128, and the merged
    block is inserted nowhere (the documentation puts it in bucket 128);
    likewise releasing address 0 with size 65 after the whole memory was
    allocated inserts nothing. *)
Lemma buddy_deallocate_past_total_inserts_nothing :
  Buddy.deallocate (Buddy.init 64) 64 64 = Ok (Buddy.mk 64 {[ 64 := [] ]}) ∧
  (∀ address, ¬ Buddy.listed {[ 64 := [] ]} address) ∧
  Buddy.deallocate_documented (Buddy.init 64) 64 64
  = Ok (Buddy.mk 64 {[ 64 := []; 128 := [0] ]}) ∧
  Buddy.allocate (Buddy.init 64) 1 64 = Ok (Some 0, Buddy.mk 64 ∅) ∧
  Buddy.deallocate (Buddy.mk 64 ∅) 0 65 = Ok (Buddy.mk 64 ∅) ∧
  (∀ address, ¬ Buddy.listed ∅ address).
Proof.
  split; [vm_compute; reflexivity|].
  split.
  { intros address (sz & bucket & Hl & Hin).
    apply lookup_singleton_Some in Hl as [_ <-]. by apply elem_of_nil in Hin. }
  split; [vm_compute; reflexivity|].
  split; [vm_compute; reflexivity|].
  split; [vm_compute; reflexivity|].
  intros address (sz & bucket & Hl & _). by rewrite lookup_empty in Hl.
Qed.

(** C5, amended.  [deallocate] always returns.  It rounds the size up to
    the next power of two (for a size of at least 1: the least power of
    two not below it) and then merges as [Buddy.Merged] tells: while the
    current size is at most the total, the buddy is [address XOR size];
    a buddy listed in the bucket of the current size is taken out (its
    first listing), the address becomes the smaller of the two and the
    size doubles; as soon as the buddy is not listed the address is
    appended to the bucket of the current size; and once the current size
    is past the total nothing is inserted and the buckets stay as the
    merges so far left them.  In particular a call whose rounded size is
    past the total from the start returns the structure it was given. *)
Theorem buddy_deallocate_merges_within_total
    (self : Buddy.t) (address sz : Z) :
  (1 ≤ sz →
   ∃ k, 0 ≤ k ∧ Buddy._next_power_of_two sz = 2 ^ k ∧ sz ≤ 2 ^ k ∧
        (0 < k → 2 ^ (k - 1) < sz))
  ∧ (∃ fb', Buddy.deallocate self address sz = Ok (Buddy.mk (Buddy.size self) fb') ∧
      Buddy.Merged (Buddy.size self) address (Buddy._next_power_of_two sz)
                   (Buddy.free_blocks self) fb')
  ∧ (Buddy.size self < Buddy._next_power_of_two sz →
     Buddy.deallocate self address sz = Ok self).
Proof.
  split; [apply next_power_of_two_least|]. split.
  - unfold Buddy.deallocate.
    destruct (merge_Merged (S (Z.to_nat (Z.log2 (Buddy.size self))))
                (Buddy.size self) address (Buddy._next_power_of_two sz)
                (Buddy.free_blocks self)) as (fb' & -> & HM).
    + apply next_power_of_two_pos.
    + pose proof (next_power_of_two_pos sz). pose proof (pow2_fuel (Buddy.size self)).
      nia.
    + by exists fb'.
  - intros Hpast. unfold Buddy.deallocate. cbn [Buddy.merge].
    destruct (Z.leb_spec (Buddy._next_power_of_two sz) (Buddy.size self)) as [?|_];
      [lia|].
    by destruct self.
Qed.

Lemma buddy_deallocate_merges_within_total_witness :
  (1 ≤ 5 ∧
   (∃ k, 0 ≤ k ∧ Buddy._next_power_of_two 5 = 2 ^ k ∧ 5 ≤ 2 ^ k ∧
         (0 < k → 2 ^ (k - 1) < 5)) ∧
   ∃ fb', Buddy.deallocate (Buddy.mk 64 {[ 8 := [8]; 16 := [16]; 32 := [32] ]}) 0 5
          = Ok (Buddy.mk 64 fb') ∧
     Buddy.Merged 64 0 (Buddy._next_power_of_two 5)
                  {[ 8 := [8]; 16 := [16]; 32 := [32] ]} fb') ∧
  (Buddy.size (Buddy.init 64) < Buddy._next_power_of_two 65 ∧
   Buddy.deallocate (Buddy.init 64) 0 65 = Ok (Buddy.init 64)).
Proof.
  split.
  - split; [lia|].
    destruct (buddy_deallocate_merges_within_total
                (Buddy.mk 64 {[ 8 := [8]; 16 := [16]; 32 := [32] ]}) 0 5)
      as (Hk & HM & _).
    split; [apply Hk; lia|exact HM].
  - assert (Buddy.size (Buddy.init 64) < Buddy._next_power_of_two 65) as Hpast
      by reflexivity.
    split; [exact Hpast|].
    destruct (buddy_deallocate_merges_within_total (Buddy.init 64) 0 65)
      as (_ & _ & Hs).
    exact (Hs Hpast).
Defined.

(** * Further properties of the engines *)

(** ** Paging *)

Section paging_more.
Import Paging.

Lemma deallocate_loop_lookup (process_id : Z) (ks : list (Z * Z))
    (pt : gmap (Z * Z) Z) (key : Z * Z) :
  foldl (λ pt key, if bool_decide (key.1 = process_id) then delete key pt else pt)
        pt ks !! key
  = if decide (key ∈ ks ∧ key.1 = process_id) then None else pt !! key.
Proof.
  revert pt. induction ks as [|k ks IH]; intros pt; simpl; [done|].
  rewrite IH. case_bool_decide as Hk.
  - destruct (decide (key ∈ ks ∧ key.1 = process_id)) as [[Hin Hp]|Hn].
    + rewrite decide_True; [done|]. split; [by right|done].
    + destruct (decide (key = k)) as [->|Hne].
      * rewrite lookup_delete_eq. rewrite decide_True; [done|]. split; [left|done].
      * rewrite lookup_delete_ne by done. rewrite decide_False; [done|].
        intros [Hin Hp]. apply elem_of_cons in Hin as [?|Hin]; [done|]. by apply Hn.
  - destruct (decide (key ∈ ks ∧ key.1 = process_id)) as [[Hin Hp]|Hn].
    + rewrite decide_True; [done|]. split; [by right|done].
    + rewrite decide_False; [done|]. intros [Hin Hp].
      apply elem_of_cons in Hin as [->|Hin]; [done|]. by apply Hn.
Qed.

Lemma deallocate_lookup (self : t) (process_id q page : Z) :
  page_table (deallocate self process_id) !! (q, page)
  = if decide (q = process_id) then None else page_table self !! (q, page).
Proof.
  unfold deallocate. simpl. rewrite deallocate_loop_lookup. simpl.
  destruct (decide (q = process_id)) as [->|Hne].
  - destruct (page_table self !! (process_id, page)) as [f|] eqn:Hf.
    + rewrite decide_True; [done|]. split; [|done].
      unfold keys. apply list_elem_of_fmap. exists ((process_id, page), f).
      split; [done|]. by apply elem_of_map_to_list.
    + by destruct (decide _).
  - rewrite decide_False; [done|]. by intros [_ ?].
Qed.

Lemma allocate_Ok_page_size (self s' : t) (process_id process_size : Z) (b : bool) :
  allocate self process_id process_size = Ok (b, s') → page_size self ≠ 0.
Proof.
  unfold allocate, floordiv. destruct (page_size self =? 0) eqn:E; [done|].
  intros _. lia.
Qed.

Lemma paging_run_in_range (s0 : t) (ops : list op) :
  page_size s0 ≠ 0 → PagingInv.frames_in_range s0 →
  ∃ s, run s0 ops = Ok s ∧ frames s = frames s0 ∧ PagingInv.frames_in_range s.
Proof.
  revert s0. induction ops as [|o ops IH]; intros s0 Hps Hinv; simpl.
  - by exists s0.
  - destruct o as [p sz|p]; simpl.
    + destruct (allocate_cases s0 p sz Hps) as [[_ Ha]|(_ & pt' & Ha & Hpt')];
        rewrite Ha; simpl.
      * by apply IH.
      * destruct (IH (with_page_table s0 pt')) as (s & Hrun & Hfr & Hin); [done| |].
        { intros [q page] frame Hk. simpl in *. rewrite Hpt' in Hk.
          destruct (decide _) as [_|_]; [|by eapply Hinv].
          apply list_elem_of_lookup_2, list_elem_of_filter in Hk as [_ Hk].
          apply range_elem in Hk. lia. }
        exists s. split; [done|]. by split.
    + destruct (IH (deallocate s0 p)) as (s & Hrun & Hfr & Hin); [done| |].
      { intros key frame Hk. simpl in *. apply deallocate_loop_sub in Hk.
        by eapply Hinv. }
      exists s. split; [done|]. by split.
Qed.

Lemma unshared_in_range_size (self : t) :
  frames_unshared (page_table self) → PagingInv.frames_in_range self →
  Z.of_nat (size (page_table self)) ≤ Z.max 0 (frames self).
Proof.
  intros Hun Hin. rewrite <- length_map_to_list.
  rewrite <- (length_fmap snd).
  assert (NoDup (map_to_list (page_table self)).*2) as Hnd.
  { apply NoDup_fmap_2_strong; [|apply NoDup_map_to_list].
    intros [k1 f1] [k2 f2] H1 H2 Hf. simpl in Hf. subst f2.
    apply elem_of_map_to_list in H1, H2. f_equal. by eapply Hun. }
  assert ((map_to_list (page_table self)).*2 ⊆+ seqZ 0 (frames self)) as Hsub.
  { apply NoDup_submseteq; [done|]. intros f Hf.
    apply list_elem_of_fmap in Hf as ([k f'] & -> & Hf).
    apply elem_of_map_to_list in Hf. apply Hin in Hf. simpl.
    apply elem_of_seqZ. lia. }
  apply submseteq_length in Hsub. rewrite length_seqZ in Hsub. lia.
Qed.

End paging_more.

(** X1. Paging [deallocate] removes exactly the entries of the process:
    afterwards the process has no page, every entry of every other process
    is what it was, and the sizes and the frame count are untouched. *)
Theorem paging_deallocate_removes_exactly (self : Paging.t) (process_id : Z) :
  let s' := Paging.deallocate self process_id in
  (∀ q page, Paging.page_table s' !! (q, page)
             = if decide (q = process_id) then None
               else Paging.page_table self !! (q, page)) ∧
  Paging.memory_size s' = Paging.memory_size self ∧
  Paging.page_size s' = Paging.page_size self ∧
  Paging.frames s' = Paging.frames self.
Proof. split; [intros q page; apply deallocate_lookup|done]. Qed.

(** X2. Paging round trip: for a process that holds no page, an
    [allocate] that returns, whatever its outcome, followed by
    [deallocate] of the same process gives back the allocator as it
    was. *)
Theorem paging_allocate_deallocate_restores
    (self s' : Paging.t) (process_id process_size : Z) (b : bool) :
  (∀ page, Paging.page_table self !! (process_id, page) = None) →
  Paging.allocate self process_id process_size = Ok (b, s') →
  Paging.deallocate s' process_id = self.
Proof.
  intros Hfresh Ha. pose proof (allocate_Ok_page_size _ _ _ _ _ Ha) as Hps.
  destruct (allocate_cases self process_id process_size Hps)
    as [[_ Ha']|(_ & pt' & Ha' & Hpt')]; rewrite Ha' in Ha; injection Ha as <- <-.
  - by apply paging_deallocate_absent.
  - assert (Paging.page_table
              (Paging.deallocate (Paging.with_page_table self pt') process_id)
            = Paging.page_table self) as Hpt.
    { apply map_eq. intros [q page]. rewrite deallocate_lookup. simpl.
      destruct (decide (q = process_id)) as [->|Hne]; [by rewrite Hfresh|].
      rewrite Hpt'. rewrite decide_False; [done|]. by intros [? _]. }
    destruct self as [ms ps fr pt]. unfold Paging.deallocate in *. simpl in *.
    unfold Paging.with_page_table. simpl. by rewrite Hpt.
Qed.

Lemma paging_allocate_deallocate_restores_witness :
  let self := Paging.mk 40 10 4 {[ (1, 0) := 0 ]} in
  let s' := Paging.mk 40 10 4 (<[(2, 1) := 2]> (<[(2, 0) := 1]> {[ (1, 0) := 0 ]})) in
  (∀ page, Paging.page_table self !! (2, page) = None) ∧
  Paging.allocate self 2 15 = Ok (true, s') ∧
  Paging.deallocate s' 2 = self.
Proof.
  intros self s'.
  assert (∀ page, Paging.page_table self !! (2, page) = None) as Hfresh
    by (intros page; apply lookup_singleton_ne; intros [= ? ?]).
  assert (Paging.allocate self 2 15 = Ok (true, s')) as Ha
    by (vm_compute; reflexivity).
  split; [exact Hfresh|]. split; [exact Ha|].
  exact (paging_allocate_deallocate_restores self s' 2 15 true Hfresh Ha).
Defined.

(** X3. Paging never over-commits: from a constructed allocator, after
    any sequence of allocations and deallocations every mapped frame lies
    in [0, frames), with [frames = memory_size // page_size], and the page
    table has at most [frames] entries. *)
Theorem paging_frames_within_capacity
    (memory_size page_size : Z) (s0 : Paging.t) (ops : list Paging.op) :
  Paging.init memory_size page_size = Ok s0 →
  ∃ s, Paging.run s0 ops = Ok s ∧
    Paging.frames s = memory_size / page_size ∧
    (∀ key frame, Paging.page_table s !! key = Some frame →
       0 ≤ frame < memory_size / page_size) ∧
    Z.of_nat (size (Paging.page_table s)) ≤ Z.max 0 (memory_size / page_size).
Proof.
  intros Hinit. unfold Paging.init, floordiv in Hinit.
  destruct (page_size =? 0) eqn:E; [done|]. apply Z.eqb_neq in E.
  simpl in Hinit. injection Hinit as <-.
  set (s0 := Paging.mk memory_size page_size (memory_size / page_size) ∅).
  assert (PagingInv.frames_in_range s0) as H0
    by (intros key frame H; simpl in H; by rewrite lookup_empty in H).
  assert (Paging.frames_unshared (Paging.page_table s0)) as H1
    by (intros k1 k2 frame H; simpl in H; by rewrite lookup_empty in H).
  destruct (paging_run_in_range s0 ops E H0) as (s & Hrun & Hfr & Hin).
  destruct (paging_run_invariant s0 ops E H1) as (s2 & Hrun2 & _ & Hun).
  rewrite Hrun in Hrun2. injection Hrun2 as <-.
  exists s. split; [done|]. simpl in Hfr. split; [done|]. split.
  - intros key frame Hk. rewrite <- Hfr. by eapply Hin.
  - rewrite <- Hfr. by apply unshared_in_range_size.
Qed.

Lemma paging_frames_within_capacity_witness :
  Paging.init 45 10 = Ok (Paging.mk 45 10 4 ∅) ∧
  ∃ s, Paging.run (Paging.mk 45 10 4 ∅)
         [Paging.Allocate 1 25; Paging.Allocate 2 30; Paging.Allocate 3 10]
       = Ok s ∧
    Paging.frames s = 45 / 10 ∧
    (∀ key frame, Paging.page_table s !! key = Some frame → 0 ≤ frame < 45 / 10) ∧
    Z.of_nat (size (Paging.page_table s)) ≤ Z.max 0 (45 / 10).
Proof.
  split; [reflexivity|].
  apply (paging_frames_within_capacity 45 10). reflexivity.
Defined.

(** ** Fixed-size partitioning *)

Section fixed_more.
Import Fixed.

Lemma eq_pid_true (p : option Z) (process_id : Z) :
  eq_pid p process_id = true ↔ p = Some process_id.
Proof.
  destruct p as [q|]; simpl; [|done]. rewrite Z.eqb_eq. split; congruence.
Qed.

Lemma cleared_lookup (process_id : Z) (l : list (option Z)) (j : nat) :
  cleared process_id l !! j
  = (λ p, if decide (p = Some process_id) then None else p) <$> l !! j.
Proof.
  unfold cleared. rewrite list_lookup_fmap. destruct (l !! j) as [p|]; [|done].
  simpl. f_equal. destruct (eq_pid p process_id) eqn:E.
  - apply eq_pid_true in E. by rewrite decide_True.
  - rewrite decide_False; [done|]. intros H. apply eq_pid_true in H. congruence.
Qed.

Lemma scan_inv (self s' : t) (process_id n : Z) (todo : list Z) (b : bool) :
  scan self process_id n todo = Ok (b, s') →
  (b = false ∧ s' = self)
  ∨ (b = true ∧ ∃ i ps', i ∈ todo ∧
       forallb is_None (slice (partitions self) i (i + n)) = true ∧
       tag process_id i (range n) (partitions self) = Ok ps' ∧
       s' = with_partitions self ps').
Proof.
  induction todo as [|i todo IH]; simpl.
  - intros [= <- <-]. by left.
  - destruct (forallb _ _) eqn:E.
    + intros H. apply bind_Ok in H as (ps' & Htag & [= <- <-]).
      right. split; [done|]. exists i, ps'. split; [left|done].
    + intros H. apply IH in H as [?|(-> & i' & ps' & Hin & ?)]; [by left|].
      right. split; [done|]. exists i', ps'. split; [by right|done].
Qed.

(** The outcomes of [allocate]: nothing placed, or a free window tagged. *)
Lemma fixed_allocate_inv (self s' : t) (process_id size : Z) (b : bool) :
  allocate self process_id size = Ok (b, s') →
  let n := (size + partition_size self - 1) / partition_size self in
  s' = self
  ∨ (b = true ∧ 0 ≤ n ∧ ∃ i, window_free (partitions self) i n ∧
       s' = with_partitions self (tagged (partitions self) i n process_id)).
Proof.
  unfold allocate, floordiv. destruct (partition_size self =? 0); [done|]. simpl.
  set (n := (size + partition_size self - 1) / partition_size self).
  intros H.
  apply scan_inv in H as [[_ ->]|(-> & i & ps' & Hin & Hall & Htag & ->)];
    [by left|].
  apply range_elem in Hin. destruct (decide (n < 0)) as [Hneg|Hnn].
  - left. rewrite (range_nonpos n) in Htag by lia. simpl in Htag.
    injection Htag as <-. by destruct self.
  - right. split; [done|]. split; [lia|]. exists i.
    rewrite tag_spec in Htag by lia. injection Htag as <-.
    split; [|done]. apply window_free_forallb; [lia..|done].
Qed.

Lemma tagged_lookup (ps : list (option Z)) (i n process_id : Z) (j : nat) :
  0 ≤ i → 0 ≤ n → i + n ≤ len ps →
  tagged ps i n process_id !! j
  = if decide (i ≤ Z.of_nat j < i + n) then Some (Some process_id) else ps !! j.
Proof.
  intros Hi Hn Hlen. unfold tagged, len in *.
  destruct (decide (i ≤ Z.of_nat j < i + n)) as [Hin|Hout].
  - rewrite lookup_app_r by (rewrite length_take; lia).
    rewrite length_take, lookup_app_l by (rewrite ?length_replicate, ?length_take; lia).
    apply lookup_replicate_2. lia.
  - destruct (decide (Z.of_nat j < i)) as [Hlt|Hge].
    + rewrite lookup_app_l by (rewrite length_take; lia).
      apply lookup_take_lt. lia.
    + rewrite lookup_app_r by (rewrite length_take; lia).
      rewrite lookup_app_r by (rewrite length_take, length_replicate; lia).
      rewrite lookup_drop, length_take, length_replicate. f_equal. lia.
Qed.

Lemma tagged_length (ps : list (option Z)) (i n process_id : Z) :
  0 ≤ i → 0 ≤ n → i + n ≤ len ps →
  length (tagged ps i n process_id) = length ps.
Proof.
  intros Hi Hn Hlen. unfold tagged, len in *.
  rewrite !length_app, length_take, length_replicate, length_drop. lia.
Qed.

End fixed_more.

(** X4. Fixed partitioning [deallocate] never raises; it frees every
    partition tagged with the process, wherever it lies, and leaves every
    other partition, the partition count and the sizes as they were. *)
Theorem fixed_deallocate_frees_process (self : Fixed.t) (process_id : Z) :
  ∃ s', Fixed.deallocate self process_id = Ok s' ∧
    Fixed.memory_size s' = Fixed.memory_size self ∧
    Fixed.partition_size s' = Fixed.partition_size self ∧
    length (Fixed.partitions s') = length (Fixed.partitions self) ∧
    (Some process_id ∉ Fixed.partitions s') ∧
    ∀ j : nat, Fixed.partitions s' !! j
      = (λ p, if decide (p = Some process_id) then None else p)
          <$> Fixed.partitions self !! j.
Proof.
  unfold Fixed.deallocate. rewrite clear_loop_spec. simpl.
  eexists. split; [done|]. simpl. split; [done|]. split; [done|].
  split; [unfold cleared; by rewrite length_fmap|]. split.
  - intros Hin. apply list_elem_of_lookup in Hin as [j Hj].
    rewrite cleared_lookup in Hj.
    destruct (Fixed.partitions self !! j) as [p|]; [|done]. simpl in Hj.
    destruct (decide (p = Some process_id)); congruence.
  - intros j. apply cleared_lookup.
Qed.

(** X5. Fixed partitioning [allocate] overwrites nothing: when it returns,
    the sizes and the partition count are kept, and every partition is
    either what it was or was free and is now tagged with the requesting
    process. *)
Theorem fixed_allocate_overwrites_nothing
    (self s' : Fixed.t) (process_id size : Z) (b : bool) :
  Fixed.allocate self process_id size = Ok (b, s') →
  Fixed.memory_size s' = Fixed.memory_size self ∧
  Fixed.partition_size s' = Fixed.partition_size self ∧
  length (Fixed.partitions s') = length (Fixed.partitions self) ∧
  ∀ j : nat,
    Fixed.partitions s' !! j = Fixed.partitions self !! j
    ∨ (Fixed.partitions self !! j = Some None ∧
       Fixed.partitions s' !! j = Some (Some process_id)).
Proof.
  intros H. apply fixed_allocate_inv in H
    as [->|(_ & Hn & i & (Hi & Hlen & Hfree) & ->)].
  - repeat split; try done. intros j. by left.
  - simpl. split; [done|]. split; [done|].
    split; [by apply tagged_length|]. intros j.
    rewrite tagged_lookup by done. destruct (decide _) as [Hin|Hout]; [|by left].
    right. split; [|done]. rewrite <- (Hfree (Z.of_nat j) Hin). f_equal. lia.
Qed.

Lemma fixed_allocate_overwrites_nothing_witness :
  let self := Fixed.mk 40 10 [Some 7; None; None; Some 8] in
  let s' := Fixed.mk 40 10 [Some 7; Some 1; Some 1; Some 8] in
  Fixed.allocate self 1 20 = Ok (true, s') ∧
  Fixed.memory_size s' = Fixed.memory_size self ∧
  Fixed.partition_size s' = Fixed.partition_size self ∧
  length (Fixed.partitions s') = length (Fixed.partitions self) ∧
  ∀ j : nat,
    Fixed.partitions s' !! j = Fixed.partitions self !! j
    ∨ (Fixed.partitions self !! j = Some None ∧
       Fixed.partitions s' !! j = Some (Some 1)).
Proof.
  intros self s'.
  assert (Fixed.allocate self 1 20 = Ok (true, s')) as Ha by (vm_compute; reflexivity).
  split; [exact Ha|].
  exact (fixed_allocate_overwrites_nothing self s' 1 20 true Ha).
Defined.

(** X6. Fixed partitioning round trip: for a process that holds no
    partition, an [allocate] that returns, whatever its outcome, followed
    by [deallocate] of the same process gives back the allocator as it
    was. *)
Theorem fixed_allocate_deallocate_restores
    (self s' : Fixed.t) (process_id size : Z) (b : bool) :
  Some process_id ∉ Fixed.partitions self →
  Fixed.allocate self process_id size = Ok (b, s') →
  Fixed.deallocate s' process_id = Ok self.
Proof.
  intros Hfresh H. unfold Fixed.deallocate. rewrite clear_loop_spec. simpl.
  apply fixed_allocate_inv in H as [->|(_ & Hn & i & (Hi & Hlen & Hfree) & ->)].
  - rewrite cleared_absent by done. by destruct self.
  - simpl. destruct self as [ms psz ps]. unfold Fixed.with_partitions. simpl in *.
    do 2 f_equal. apply list_eq. intros j.
    rewrite cleared_lookup, tagged_lookup by done.
    destruct (decide _) as [Hin|Hout]; simpl.
    + rewrite decide_True by done. rewrite <- (Hfree (Z.of_nat j) Hin). f_equal. lia.
    + destruct (ps !! j) as [p|] eqn:Hp; [|done]. simpl.
      rewrite decide_False; [done|]. intros ->. apply Hfresh.
      by eapply list_elem_of_lookup_2.
Qed.

Lemma fixed_allocate_deallocate_restores_witness :
  let self := Fixed.mk 40 10 [Some 7; None; None; Some 8] in
  let s' := Fixed.mk 40 10 [Some 7; Some 1; Some 1; Some 8] in
  (Some 1 ∉ Fixed.partitions self) ∧
  Fixed.allocate self 1 20 = Ok (true, s') ∧
  Fixed.deallocate s' 1 = Ok self.
Proof.
  intros self s'.
  assert (Some 1 ∉ Fixed.partitions self) as Hfresh.
  { simpl. intros H. repeat (apply elem_of_cons in H as [H|H]; [done|]).
    by apply elem_of_nil in H. }
  assert (Fixed.allocate self 1 20 = Ok (true, s')) as Ha by (vm_compute; reflexivity).
  split; [exact Hfresh|]. split; [exact Ha|].
  exact (fixed_allocate_deallocate_restores self s' 1 20 true Hfresh Ha).
Defined.

(** ** Unequal-size partitioning *)

Section unequal_more.
Import Unequal UnequalFit.

Variable self : t.
Variable size : Z.
Hypothesis parallel : length (allocated self) = length (partitions self).

Lemma first_fit_loop_spec (m k : nat) :
  length (partitions self) = (k + m)%nat →
  (∀ j, (j < k)%nat → ¬ candidate self size j) →
  ∃ r, first_fit_loop self size (seqZ (Z.of_nat k) (Z.of_nat m)) = Ok r ∧
    match r with
    | None => ∀ j, ¬ candidate self size j
    | Some i => 0 ≤ i ∧ first_candidate self size (Z.to_nat i)
    end.
Proof.
  revert k. induction m as [|m IH]; intros k Hlen Hbelow.
  - simpl. exists None. split; [done|]. intros j Hc.
    pose proof (candidate_in_range self size j Hc).
    apply (Hbelow j); [lia|done].
  - rewrite seqZ_cons by lia. simpl.
    replace (Z.succ (Z.of_nat k)) with (Z.of_nat (S k)) by lia.
    replace (Z.pred (Z.of_nat (S m))) with (Z.of_nat m) by lia.
    destruct (fits_spec self size parallel k ltac:(lia)) as (b & -> & Hb). simpl.
    destruct b.
    + exists (Some (Z.of_nat k)). split; [done|]. split; [lia|].
      rewrite Nat2Z.id. split; [by apply Hb|done].
    + apply IH; [lia|]. intros j Hj Hc.
      destruct (decide (j = k)) as [->|Hne]; [by apply Hb in Hc|].
      apply (Hbelow j); [lia|done].
Qed.

Lemma extremum_loop_spec (better : Z → Z → bool) (key : Z → Z) (m k : nat)
    (best_index best_size : option Z) :
  (∀ p b, better p b = (key p <? key b)) →
  length (partitions self) = (k + m)%nat →
  extremum_below key self size k best_index →
  best_size = (i ← best_index; partitions self !! Z.to_nat i) →
  ∃ r, extremum_loop better self size (seqZ (Z.of_nat k) (Z.of_nat m))
         best_index best_size = Ok r
       ∧ extremum_below key self size (k + m) r.
Proof.
  intros Hbetter. revert k best_index best_size.
  induction m as [|m IH]; intros k bi bs Hlen Hinv Hbs.
  - simpl. exists bi. by rewrite Nat.add_0_r.
  - rewrite seqZ_cons by lia. simpl.
    replace (Z.succ (Z.of_nat k)) with (Z.of_nat (S k)) by lia.
    replace (Z.pred (Z.of_nat (S m))) with (Z.of_nat m) by lia.
    replace (k + S m)%nat with (S k + m)%nat by lia.
    destruct (fits_spec self size parallel k ltac:(lia)) as (b & -> & Hb). simpl.
    destruct b.
    + destruct (proj1 Hb eq_refl) as [Hfree (p & Hp & Hge)].
      rewrite (getitem_in_range _ _ p) by (rewrite ?Nat2Z.id; done || lia). simpl.
      assert (candidate self size k) as Hcand by (by apply Hb).
      destruct bi as [i|]; simpl in Hbs; subst bs.
      * destruct Hinv as (Hi0 & Hik & Hci & Hbest).
        destruct Hci as [Hfi (pi & Hpi & Hgei)]. rewrite Hpi, Hbetter.
        destruct (key p <? key pi) eqn:E.
        -- apply IH; [lia| |simpl; by rewrite Nat2Z.id].
           split; [lia|]. rewrite Nat2Z.id. split; [lia|]. split; [done|].
           intros j Hj Hcj p' q Hp' Hq. rewrite Hp in Hp'. injection Hp' as <-.
           destruct (decide (j = k)) as [->|Hne].
           ++ rewrite Hp in Hq. injection Hq as <-. lia.
           ++ destruct (Hbest j ltac:(lia) Hcj pi q Hpi Hq). lia.
        -- apply IH; [lia| |simpl; by rewrite Hpi].
           split; [lia|]. split; [lia|]. split; [by split; eauto|].
           intros j Hj Hcj p' q Hp' Hq. rewrite Hpi in Hp'. injection Hp' as <-.
           destruct (decide (j = k)) as [->|Hne].
           ++ rewrite Hp in Hq. injection Hq as <-. lia.
           ++ apply (Hbest j ltac:(lia) Hcj pi q Hpi Hq).
      * apply IH; [lia| |simpl; by rewrite Nat2Z.id].
        split; [lia|]. rewrite Nat2Z.id. split; [lia|]. split; [done|].
        intros j Hj Hcj p' q Hp' Hq.
        destruct (decide (j = k)) as [->|Hne].
        -- rewrite Hp in Hp', Hq. injection Hp' as <-. injection Hq as <-. lia.
        -- exfalso. apply (Hinv j); [lia|done].
    + assert (¬ candidate self size k) as Hnc by (intros H; apply Hb in H; done).
      apply IH; [lia| |done].
      destruct bi as [i|]; simpl.
      * destruct Hinv as (Hi0 & Hik & Hci & Hbest).
        split; [done|]. split; [lia|]. split; [done|].
        intros j Hj Hcj. destruct (decide (j = k)) as [->|Hne]; [done|].
        apply Hbest; [lia|done].
      * intros j Hj Hcj. destruct (decide (j = k)) as [->|Hne]; [done|].
        apply (Hinv j); [lia|done].
Qed.

Lemma find_partition_first_fit :
  ∃ r, _find_partition self size "first_fit" = Ok r ∧
    match r with
    | None => ∀ j, ¬ candidate self size j
    | Some i => 0 ≤ i ∧ first_candidate self size (Z.to_nat i)
    end.
Proof.
  unfold _find_partition. simpl.
  apply (first_fit_loop_spec (length (partitions self)) 0); [done|].
  intros j Hj. lia.
Qed.

Lemma find_partition_worst_fit :
  ∃ r, _find_partition self size "worst_fit" = Ok r ∧
    match r with
    | None => ∀ j, ¬ candidate self size j
    | Some i => 0 ≤ i ∧ worst_candidate self size (Z.to_nat i)
    end.
Proof.
  unfold _find_partition. simpl.
  destruct (extremum_loop_spec Z.gtb Z.opp (length (partitions self)) 0 None None)
    as (r & Hr & Hbest); [|done|by intros j Hj; lia|done|].
  { intros p b. rewrite Z.gtb_ltb. destruct (b <? p) eqn:E1, (- p <? - b) eqn:E2; lia. }
  exists r. split; [exact Hr|]. simpl in Hbest. destruct r as [i|].
  - destruct Hbest as (Hi0 & Hi & Hci & Hbest). split; [done|].
    split; [done|]. intros j Hcj p q Hp Hq.
    destruct (Hbest j (candidate_in_range self size j Hcj) Hcj p q Hp Hq). lia.
  - intros j Hcj. apply (Hbest j); [|done]. by apply (candidate_in_range self size).
Qed.

Lemma allocate_of_find (process_id : Z) (strategy : string) (r : option Z) :
  _find_partition self size strategy = Ok r →
  match r with
  | None => True
  | Some i => 0 ≤ i ∧ candidate self size (Z.to_nat i)
  end →
  allocate self process_id size strategy
  = Ok match r with
       | None => (false, self)
       | Some i => (true, mk (partitions self)
                             (<[Z.to_nat i := Some process_id]> (allocated self)))
       end.
Proof.
  intros Hfind Hr. unfold allocate. rewrite Hfind. simpl.
  destruct r as [i|]; [|done]. destruct Hr as [Hi0 Hc].
  pose proof (candidate_in_range self size _ Hc) as Hlt.
  by rewrite setitem_in_range by (unfold len; lia).
Qed.

Lemma allocate_first_fit (process_id : Z) :
  (∃ i, first_candidate self size i ∧
        allocate self process_id size "first_fit"
        = Ok (true, mk (partitions self) (<[i := Some process_id]> (allocated self))))
  ∨ ((∀ i, ¬ candidate self size i) ∧
     allocate self process_id size "first_fit" = Ok (false, self)).
Proof.
  destruct find_partition_first_fit as (r & Hfind & Hr).
  destruct r as [i|].
  - left. exists (Z.to_nat i). split; [apply Hr|].
    apply (allocate_of_find process_id _ (Some i) Hfind).
    split; [apply Hr|apply Hr].
  - right. split; [done|]. by apply (allocate_of_find process_id _ None Hfind).
Qed.

Lemma allocate_worst_fit (process_id : Z) :
  (∃ i, worst_candidate self size i ∧
        allocate self process_id size "worst_fit"
        = Ok (true, mk (partitions self) (<[i := Some process_id]> (allocated self))))
  ∨ ((∀ i, ¬ candidate self size i) ∧
     allocate self process_id size "worst_fit" = Ok (false, self)).
Proof.
  destruct find_partition_worst_fit as (r & Hfind & Hr).
  destruct r as [i|].
  - left. exists (Z.to_nat i). split; [apply Hr|].
    apply (allocate_of_find process_id _ (Some i) Hfind).
    split; [apply Hr|apply Hr].
  - right. split; [done|]. by apply (allocate_of_find process_id _ None Hfind).
Qed.

(** Whatever the strategy string, [allocate] returns, and a success
    occupies one candidate. *)
Lemma unequal_allocate_cases (process_id : Z) (strategy : string) :
  allocate self process_id size strategy = Ok (false, self)
  ∨ ∃ i, candidate self size i ∧
         allocate self process_id size strategy
         = Ok (true, mk (partitions self) (<[i := Some process_id]> (allocated self))).
Proof.
  destruct (String.eqb strategy "first_fit") eqn:E1.
  { apply String.eqb_eq in E1. subst.
    destruct (allocate_first_fit process_id) as [(i & [Hc _] & H)|[_ H]];
      [right; by exists i|by left]. }
  destruct (String.eqb strategy "best_fit") eqn:E2.
  { apply String.eqb_eq in E2. subst.
    destruct (allocate_best_fit self size parallel process_id)
      as [(i & [Hc _] & H)|[_ H]]; [right; by exists i|by left]. }
  destruct (String.eqb strategy "worst_fit") eqn:E3.
  { apply String.eqb_eq in E3. subst.
    destruct (allocate_worst_fit process_id) as [(i & [Hc _] & H)|[_ H]];
      [right; by exists i|by left]. }
  left. unfold allocate, _find_partition. by rewrite E1, E2, E3.
Qed.

End unequal_more.

(** X7. Unequal partitioning, [first_fit], on a state whose occupancy
    list parallels the partition list: [allocate] occupies the free
    partition of lowest index that is large enough and returns [True], or
    none is large enough and it returns [False] with the state
    unchanged. *)
Theorem unequal_first_fit_selects_lowest
    (self : Unequal.t) (process_id size : Z) :
  length (Unequal.allocated self) = length (Unequal.partitions self) →
  (∃ i, UnequalFit.first_candidate self size i ∧
        Unequal.allocate self process_id size "first_fit"
        = Ok (true, Unequal.mk (Unequal.partitions self)
                      (<[i := Some process_id]> (Unequal.allocated self))))
  ∨ ((∀ i, ¬ Unequal.candidate self size i) ∧
     Unequal.allocate self process_id size "first_fit" = Ok (false, self)).
Proof. intros Hlen. by apply allocate_first_fit. Qed.

Lemma unequal_first_fit_selects_lowest_witness :
  let self := Unequal.mk [10; 30; 20] [None; None; None] in
  length (Unequal.allocated self) = length (Unequal.partitions self) ∧
  ((∃ i, UnequalFit.first_candidate self 15 i ∧
         Unequal.allocate self 1 15 "first_fit"
         = Ok (true, Unequal.mk (Unequal.partitions self)
                       (<[i := Some 1]> (Unequal.allocated self))))
   ∨ ((∀ i, ¬ Unequal.candidate self 15 i) ∧
      Unequal.allocate self 1 15 "first_fit" = Ok (false, self))).
Proof.
  intros self. split; [reflexivity|].
  apply (unequal_first_fit_selects_lowest self 1 15). reflexivity.
Defined.

(** X8. Unequal partitioning, [worst_fit], on such a state: [allocate]
    occupies a free partition of greatest size among those large enough,
    the lowest index among those of that size, or returns [False] with the
    state unchanged when none is large enough. *)
Theorem unequal_worst_fit_selects_largest
    (self : Unequal.t) (process_id size : Z) :
  length (Unequal.allocated self) = length (Unequal.partitions self) →
  (∃ i, UnequalFit.worst_candidate self size i ∧
        Unequal.allocate self process_id size "worst_fit"
        = Ok (true, Unequal.mk (Unequal.partitions self)
                      (<[i := Some process_id]> (Unequal.allocated self))))
  ∨ ((∀ i, ¬ Unequal.candidate self size i) ∧
     Unequal.allocate self process_id size "worst_fit" = Ok (false, self)).
Proof. intros Hlen. by apply allocate_worst_fit. Qed.

Lemma unequal_worst_fit_selects_largest_witness :
  let self := Unequal.mk [10; 30; 20; 30] [None; None; None; None] in
  length (Unequal.allocated self) = length (Unequal.partitions self) ∧
  ((∃ i, UnequalFit.worst_candidate self 15 i ∧
         Unequal.allocate self 1 15 "worst_fit"
         = Ok (true, Unequal.mk (Unequal.partitions self)
                       (<[i := Some 1]> (Unequal.allocated self))))
   ∨ ((∀ i, ¬ Unequal.candidate self 15 i) ∧
      Unequal.allocate self 1 15 "worst_fit" = Ok (false, self))).
Proof.
  intros self. split; [reflexivity|].
  apply (unequal_worst_fit_selects_largest self 1 15). reflexivity.
Defined.

(** X9. Unequal partitioning, any strategy string, on such a state:
    [allocate] never raises; it either returns [False] with the state
    unchanged or returns [True] having filled exactly one slot, that of a
    partition that was free and is at least as large as the request; a
    string that names none of the three strategies always gives
    [False]. *)
Theorem unequal_allocate_occupies_one_candidate
    (self : Unequal.t) (process_id size : Z) (strategy : string) :
  length (Unequal.allocated self) = length (Unequal.partitions self) →
  (Unequal.allocate self process_id size strategy = Ok (false, self)
   ∨ ∃ i, Unequal.candidate self size i ∧
          Unequal.allocate self process_id size strategy
          = Ok (true, Unequal.mk (Unequal.partitions self)
                        (<[i := Some process_id]> (Unequal.allocated self))))
  ∧ (strategy ∉ ["first_fit"; "best_fit"; "worst_fit"] →
     Unequal.allocate self process_id size strategy = Ok (false, self)).
Proof.
  intros Hlen. split; [by apply unequal_allocate_cases|].
  intros Hs. unfold Unequal.allocate, Unequal._find_partition.
  destruct (String.eqb strategy "first_fit") eqn:E1.
  { apply String.eqb_eq in E1. subst. exfalso. apply Hs. left. }
  destruct (String.eqb strategy "best_fit") eqn:E2.
  { apply String.eqb_eq in E2. subst. exfalso. apply Hs. right. left. }
  destruct (String.eqb strategy "worst_fit") eqn:E3; [|done].
  apply String.eqb_eq in E3. subst. exfalso. apply Hs. do 2 right. left.
Qed.

Lemma unequal_allocate_occupies_one_candidate_witness :
  let self := Unequal.mk [10; 30; 20] [None; None; None] in
  length (Unequal.allocated self) = length (Unequal.partitions self) ∧
  ("next_fit" ∉ ["first_fit"; "best_fit"; "worst_fit"]) ∧
  Unequal.allocate self 1 15 "next_fit" = Ok (false, self).
Proof.
  intros self.
  assert ("next_fit" ∉ ["first_fit"; "best_fit"; "worst_fit"]) as Hs.
  { intros H. repeat (apply elem_of_cons in H as [H|H]; [discriminate|]).
    by apply elem_of_nil in H. }
  split; [reflexivity|]. split; [exact Hs|].
  exact (proj2 (unequal_allocate_occupies_one_candidate self 1 15 "next_fit" eq_refl) Hs).
Defined.

(** X10. Unequal partitioning [deallocate] never raises; it empties every
    slot that holds the process and leaves the partition sizes and every
    other slot as they were. *)
Theorem unequal_deallocate_frees_process (self : Unequal.t) (process_id : Z) :
  ∃ s', Unequal.deallocate self process_id = Ok s' ∧
    Unequal.partitions s' = Unequal.partitions self ∧
    length (Unequal.allocated s') = length (Unequal.allocated self) ∧
    (Some process_id ∉ Unequal.allocated s') ∧
    ∀ j : nat, Unequal.allocated s' !! j
      = (λ p, if decide (p = Some process_id) then None else p)
          <$> Unequal.allocated self !! j.
Proof.
  rewrite unequal_deallocate_spec. eexists. split; [done|]. simpl.
  split; [done|]. split; [unfold cleared; by rewrite length_fmap|]. split.
  - intros Hin. apply list_elem_of_lookup in Hin as [j Hj].
    rewrite cleared_lookup in Hj.
    destruct (Unequal.allocated self !! j) as [p|]; [|done]. simpl in Hj.
    destruct (decide (p = Some process_id)); congruence.
  - intros j. apply cleared_lookup.
Qed.

(** X11. Unequal partitioning round trip: on such a state and for a
    process that holds no partition, [allocate] under any strategy string
    followed by [deallocate] of the same process gives back the state as it
    was. *)
Theorem unequal_allocate_deallocate_restores
    (self s' : Unequal.t) (process_id size : Z) (strategy : string) (b : bool) :
  length (Unequal.allocated self) = length (Unequal.partitions self) →
  Some process_id ∉ Unequal.allocated self →
  Unequal.allocate self process_id size strategy = Ok (b, s') →
  Unequal.deallocate s' process_id = Ok self.
Proof.
  intros Hlen Hfresh Ha. rewrite unequal_deallocate_spec.
  destruct (unequal_allocate_cases self size Hlen process_id strategy)
    as [H|(i & [Hfree _] & H)]; rewrite H in Ha; injection Ha as <- <-.
  - rewrite cleared_absent by done. by destruct self.
  - destruct self as [ps al]. simpl in *. do 2 f_equal. apply list_eq. intros j.
    rewrite cleared_lookup. destruct (decide (j = i)) as [->|Hne].
    + rewrite list_lookup_insert_eq by by eapply lookup_lt_Some.
      simpl. by rewrite decide_True.
    + rewrite list_lookup_insert_ne by done.
      destruct (al !! j) as [p|] eqn:Hp; [|done]. simpl.
      rewrite decide_False; [done|]. intros ->. apply Hfresh.
      by eapply list_elem_of_lookup_2.
Qed.

Lemma unequal_allocate_deallocate_restores_witness :
  let self := Unequal.mk [10; 30; 20] [Some 7; None; None] in
  let s' := Unequal.mk [10; 30; 20] [Some 7; None; Some 1] in
  length (Unequal.allocated self) = length (Unequal.partitions self) ∧
  (Some 1 ∉ Unequal.allocated self) ∧
  Unequal.allocate self 1 15 "best_fit" = Ok (true, s') ∧
  Unequal.deallocate s' 1 = Ok self.
Proof.
  intros self s'.
  assert (Some 1 ∉ Unequal.allocated self) as Hfresh.
  { simpl. intros H. repeat (apply elem_of_cons in H as [H|H]; [done|]).
    by apply elem_of_nil in H. }
  assert (Unequal.allocate self 1 15 "best_fit" = Ok (true, s')) as Ha
    by (vm_compute; reflexivity).
  split; [reflexivity|]. split; [exact Hfresh|]. split; [exact Ha|].
  exact (unequal_allocate_deallocate_restores self s' 1 15 "best_fit" true
           eq_refl Hfresh Ha).
Defined.

(** ** Dynamic allocation: the placement rules *)

Section dynamic_fit.
Import Dynamic DynamicFit.

Variable l : list block.
Variable sz : Z.

Lemma fits_fit_at (k : nat) (b : block) :
  l !! k = Some b → fits b sz = true ↔ fit_at l sz k.
Proof.
  intros Hb. unfold fits, fit_at. rewrite andb_true_iff. split.
  - intros [Hp Hs]. exists b. split; [done|]. split; [by destruct (pid b)|lia].
  - intros (b' & Hb' & Hp & Hs). rewrite Hb in Hb'. injection Hb' as <-.
    rewrite Hp. split; [done|lia].
Qed.

Lemma fit_at_in_range (i : nat) : fit_at l sz i → (i < length l)%nat.
Proof. intros (b & Hb & _). by apply lookup_lt_Some in Hb. Qed.

Lemma dyn_first_fit_loop_spec (m k : nat) :
  length l = (k + m)%nat →
  (∀ j, (j < k)%nat → ¬ fit_at l sz j) →
  match first_fit_loop sz (Z.of_nat k) (drop k l) with
  | None => ∀ j, ¬ fit_at l sz j
  | Some i => 0 ≤ i ∧ first_at l sz (Z.to_nat i)
  end.
Proof.
  revert k. induction m as [|m IH]; intros k Hlen Hbelow.
  - rewrite drop_ge by lia. simpl. intros j Hj.
    pose proof (fit_at_in_range j Hj). apply (Hbelow j); [lia|done].
  - destruct (lookup_lt_is_Some_2 l k) as [b Hb]; [lia|].
    rewrite (drop_S l b k Hb). simpl.
    destruct (fits b sz) eqn:E.
    + split; [lia|]. rewrite Nat2Z.id. split; [|done].
      by apply (fits_fit_at k b).
    + replace (Z.of_nat k + 1) with (Z.of_nat (S k)) by lia.
      apply IH; [lia|]. intros j Hj Hfit.
      destruct (decide (j = k)) as [->|Hne].
      * apply (fits_fit_at k b Hb) in Hfit. congruence.
      * apply (Hbelow j); [lia|done].
Qed.

Lemma dyn_extremum_loop_spec (better : Z → Z → bool) (key : Z → Z) (m k : nat)
    (best_index best_size : option Z) :
  (∀ p b, better p b = (key p <? key b)) →
  length l = (k + m)%nat →
  extremum_below key l sz k best_index →
  best_size = (i ← best_index; size <$> l !! Z.to_nat i) →
  extremum_below key l sz (length l)
    (extremum_loop better sz (Z.of_nat k) (drop k l) best_index best_size).
Proof.
  intros Hbetter. revert k best_index best_size.
  induction m as [|m IH]; intros k bi bs Hlen Hinv Hbs.
  - rewrite drop_ge by lia. simpl. by replace (length l) with k by lia.
  - destruct (lookup_lt_is_Some_2 l k) as [b Hb]; [lia|].
    rewrite (drop_S l b k Hb). simpl.
    replace (Z.of_nat k + 1) with (Z.of_nat (S k)) by lia.
    destruct (fits b sz) eqn:E.
    + assert (fit_at l sz k) as Hfit by (by apply (fits_fit_at k b)).
      destruct bi as [i|]; simpl in Hbs; subst bs.
      * destruct Hinv as (Hi0 & Hik & Hfi & Hbest).
        destruct Hfi as (bi & Hbi & Hfi). rewrite Hbi. simpl. rewrite Hbetter.
        destruct (key (size b) <? key (size bi)) eqn:E2.
        -- apply IH; [lia| |simpl; by rewrite Nat2Z.id, Hb].
           split; [lia|]. rewrite Nat2Z.id. split; [lia|]. split; [done|].
           intros j Hj Hfj b' c Hb' Hc. rewrite Hb in Hb'. injection Hb' as <-.
           destruct (decide (j = k)) as [->|Hne].
           ++ rewrite Hb in Hc. injection Hc as <-. lia.
           ++ destruct (Hbest j ltac:(lia) Hfj bi c Hbi Hc). lia.
        -- apply IH; [lia| |simpl; by rewrite Hbi].
           split; [lia|]. split; [lia|]. split; [by exists bi|].
           intros j Hj Hfj b' c Hb' Hc. rewrite Hbi in Hb'. injection Hb' as <-.
           destruct (decide (j = k)) as [->|Hne].
           ++ rewrite Hb in Hc. injection Hc as <-. lia.
           ++ apply (Hbest j ltac:(lia) Hfj bi c Hbi Hc).
      * apply IH; [lia| |simpl; by rewrite Nat2Z.id, Hb].
        split; [lia|]. rewrite Nat2Z.id. split; [lia|]. split; [done|].
        intros j Hj Hfj b' c Hb' Hc.
        destruct (decide (j = k)) as [->|Hne].
        -- rewrite Hb in Hb', Hc. injection Hb' as <-. injection Hc as <-. lia.
        -- exfalso. apply (Hinv j); [lia|done].
    + assert (¬ fit_at l sz k) as Hnf.
      { intros H. apply (fits_fit_at k b Hb) in H. congruence. }
      apply (IH (S k)); [lia| |done].
      destruct bi as [i|]; simpl.
      * destruct Hinv as (Hi0 & Hik & Hfi & Hbest).
        split; [done|]. split; [lia|]. split; [done|].
        intros j Hj Hfj. destruct (decide (j = k)) as [->|Hne]; [done|].
        apply Hbest; [lia|done].
      * intros j Hj Hfj. destruct (decide (j = k)) as [->|Hne]; [done|].
        apply (Hinv j); [lia|done].
Qed.

End dynamic_fit.

Section dynamic_find.
Import Dynamic DynamicFit.

Lemma find_block_first_fit (self : t) (sz : Z) :
  match _find_block self sz "first_fit" with
  | None => ∀ j, ¬ fit_at (memory self) sz j
  | Some i => 0 ≤ i ∧ first_at (memory self) sz (Z.to_nat i)
  end.
Proof.
  unfold _find_block. simpl.
  apply (dyn_first_fit_loop_spec (memory self) sz (length (memory self)) 0);
    [done|]. intros j Hj. lia.
Qed.

Lemma find_block_best_fit (self : t) (sz : Z) :
  match _find_block self sz "best_fit" with
  | None => ∀ j, ¬ fit_at (memory self) sz j
  | Some i => 0 ≤ i ∧ best_at (memory self) sz (Z.to_nat i)
  end.
Proof.
  unfold _find_block. simpl.
  pose proof (dyn_extremum_loop_spec (memory self) sz Z.ltb (λ z, z)
                (length (memory self)) 0 None None
                ltac:(done) eq_refl ltac:(intros j Hj; lia) eq_refl) as H.
  simpl in H. destruct (extremum_loop _ _ _ _ _ _) as [i|]; simpl in H.
  - destruct H as (Hi0 & _ & Hfit & Hbest). split; [done|]. split; [done|].
    intros j Hj. apply Hbest; [|done]. by eapply fit_at_in_range.
  - intros j Hj. apply (H j); [|done]. by eapply fit_at_in_range.
Qed.

Lemma find_block_worst_fit (self : t) (sz : Z) :
  match _find_block self sz "worst_fit" with
  | None => ∀ j, ¬ fit_at (memory self) sz j
  | Some i => 0 ≤ i ∧ worst_at (memory self) sz (Z.to_nat i)
  end.
Proof.
  unfold _find_block. simpl.
  assert (∀ p b, (p >? b) = (- p <? - b)) as Hgt.
  { intros p b. rewrite Z.gtb_ltb. destruct (b <? p) eqn:E1, (- p <? - b) eqn:E2; lia. }
  pose proof (dyn_extremum_loop_spec (memory self) sz Z.gtb Z.opp
                (length (memory self)) 0 None None
                Hgt eq_refl ltac:(intros j Hj; lia) eq_refl) as H.
  simpl in H. destruct (extremum_loop _ _ _ _ _ _) as [i|]; simpl in H.
  - destruct H as (Hi0 & _ & Hfit & Hbest). split; [done|]. split; [done|].
    intros j Hj b c Hb Hc.
    destruct (Hbest j (fit_at_in_range _ _ _ Hj) Hj b c Hb Hc). lia.
  - intros j Hj. apply (H j); [|done]. by eapply fit_at_in_range.
Qed.

(** Under a strategy that the engine knows, the search misses only when
    nothing fits. *)
Lemma find_block_None (self : t) (sz : Z) (strategy : string) :
  strategy ∈ ["first_fit"; "best_fit"; "worst_fit"] →
  _find_block self sz strategy = None → ∀ j, ¬ fit_at (memory self) sz j.
Proof.
  intros Hs Hnone.
  repeat (apply elem_of_cons in Hs as [->|Hs]).
  - pose proof (find_block_first_fit self sz) as H. by rewrite Hnone in H.
  - pose proof (find_block_best_fit self sz) as H. by rewrite Hnone in H.
  - pose proof (find_block_worst_fit self sz) as H. by rewrite Hnone in H.
  - by apply elem_of_nil in Hs.
Qed.

End dynamic_find.

(** X12. Dynamic allocation, [_find_block], for any block list and any
    requested size: [first_fit] returns the lowest index of a free block
    that is large enough; [best_fit] the index of such a block of least
    size and [worst_fit] of greatest size, the lowest index among equally
    sized ones; each returns [None] exactly when no free block is large
    enough, and an unknown strategy string returns [None] always. *)
Theorem dynamic_find_block_selects (self : Dynamic.t) (sz : Z) :
  match Dynamic._find_block self sz "first_fit" with
  | None => ∀ j, ¬ DynamicFit.fit_at (Dynamic.memory self) sz j
  | Some i => 0 ≤ i ∧ DynamicFit.first_at (Dynamic.memory self) sz (Z.to_nat i)
  end
  ∧ match Dynamic._find_block self sz "best_fit" with
    | None => ∀ j, ¬ DynamicFit.fit_at (Dynamic.memory self) sz j
    | Some i => 0 ≤ i ∧ DynamicFit.best_at (Dynamic.memory self) sz (Z.to_nat i)
    end
  ∧ match Dynamic._find_block self sz "worst_fit" with
    | None => ∀ j, ¬ DynamicFit.fit_at (Dynamic.memory self) sz j
    | Some i => 0 ≤ i ∧ DynamicFit.worst_at (Dynamic.memory self) sz (Z.to_nat i)
    end
  ∧ ∀ strategy, strategy ∉ ["first_fit"; "best_fit"; "worst_fit"] →
      Dynamic._find_block self sz strategy = None.
Proof.
  split; [apply find_block_first_fit|].
  split; [apply find_block_best_fit|].
  split; [apply find_block_worst_fit|].
  intros strategy Hs. unfold Dynamic._find_block.
  destruct (String.eqb strategy "first_fit") eqn:E1.
  { apply String.eqb_eq in E1. subst. exfalso. apply Hs. left. }
  destruct (String.eqb strategy "best_fit") eqn:E2.
  { apply String.eqb_eq in E2. subst. exfalso. apply Hs. right. left. }
  destruct (String.eqb strategy "worst_fit") eqn:E3; [|done].
  apply String.eqb_eq in E3. subst. exfalso. apply Hs. do 2 right. left.
Qed.

Lemma dynamic_find_block_selects_witness :
  let self := Dynamic.mk 100 [(0, 20, None); (20, 30, Some 1); (50, 10, None);
                              (60, 40, None)] in
  Dynamic._find_block self 10 "first_fit" = Some 0 ∧
  Dynamic._find_block self 10 "best_fit" = Some 2 ∧
  Dynamic._find_block self 10 "worst_fit" = Some 3 ∧
  ("next_fit" ∉ ["first_fit"; "best_fit"; "worst_fit"]) ∧
  Dynamic._find_block self 10 "next_fit" = None.
Proof.
  intros self.
  assert ("next_fit" ∉ ["first_fit"; "best_fit"; "worst_fit"]) as Hs.
  { intros H. repeat (apply elem_of_cons in H as [H|H]; [discriminate|]).
    by apply elem_of_nil in H. }
  split; [reflexivity|]. split; [reflexivity|]. split; [reflexivity|].
  split; [exact Hs|].
  exact (proj2 (proj2 (proj2 (dynamic_find_block_selects self 10))) "next_fit" Hs).
Defined.

(** ** Dynamic allocation: placement and release *)

Section dynamic_more.
Import Dynamic DynamicFit.

Lemma allocate_shape (self : t) (process_id sz idx : Z) (strategy : string) :
  0 < sz → invariant self →
  _find_block self sz strategy = Some idx →
  ∃ l1 b l2,
    memory self = l1 ++ b :: l2 ∧ idx = len l1 ∧ is_free b ∧ sz ≤ size b ∧
    allocate self process_id sz strategy
    = Ok (true, mk (memory_size self)
                   (l1 ++ (start b, sz, Some process_id)
                       :: (if size b - sz =? 0 then l2
                           else (start b + sz, size b - sz, None) :: l2))).
Proof.
  intros Hsz (Ht & Ha & Hc & Hp) Hfind.
  destruct (find_block_hit _ _ _ _ Hfind) as (l1 & b & l2 & Hmem & -> & Hfit).
  apply fits_inv in Hfit as [Hfree Hge].
  exists l1, b, l2. split; [done|]. split; [done|]. split; [done|]. split; [done|].
  rewrite Hmem in Ht, Ha.
  apply tiles_app in Ht as (mid & Ht1 & Hsb & Ht2).
  pose proof Ha as Ha'.
  apply StronglySorted_app in Ha' as (_ & _ & Ha2).
  apply StronglySorted_cons in Ha2 as [_ Ha2].
  apply allocate_hit; [done..|].
  destruct (size b - sz =? 0) eqn:E.
  - by apply (ascending_same_start l1 l2 b).
  - apply Z.eqb_neq in E.
    apply (ascending_split l1 l2 b); [done|unfold start; simpl; lia| |done].
    pose proof (tiles_ascending_after _ _ _ Ht2 Ha2) as Hafter.
    eapply Forall_impl; [exact Hafter|]. intros z Hz.
    unfold start in *. simpl in *. lia.
Qed.

Lemma allocate_false_inv (self s' : t) (process_id sz : Z) (strategy : string) :
  allocate self process_id sz strategy = Ok (false, s') →
  _find_block self sz strategy = None.
Proof.
  unfold allocate. destruct (_find_block self sz strategy); [|done].
  intros H. repeat (apply bind_Ok in H as (? & _ & H)). done.
Qed.

Lemma allocate_true_inv (self s' : t) (process_id sz : Z) (strategy : string) :
  allocate self process_id sz strategy = Ok (true, s') →
  ∃ idx, _find_block self sz strategy = Some idx.
Proof.
  unfold allocate. destruct (_find_block self sz strategy) as [idx|]; [|done].
  intros _. by exists idx.
Qed.

Lemma relabel_app (process_id : Z) (l1 l2 : list block) :
  relabel process_id (l1 ++ l2) = relabel process_id l1 ++ relabel process_id l2.
Proof. unfold relabel. apply map_app. Qed.

Lemma relabel_cons_own (process_id s z : Z) (l : list block) :
  relabel process_id ((s, z, Some process_id) :: l)
  = (s, z, None) :: relabel process_id l.
Proof. simpl. by rewrite Z.eqb_refl. Qed.

Lemma coalesce_prefix (l1 l t : list block) (h : block) :
  coalesce l = h :: t → coalesced (l1 ++ [h]) →
  coalesce (l1 ++ l) = l1 ++ h :: t.
Proof.
  intros Hl. induction l1 as [|a l1 IH]; intros Hc; [done|].
  assert (coalesced (l1 ++ [h])) as Hc' by (by apply coalesced_tail in Hc).
  rewrite <- !app_comm_cons, coalesce_cons, (IH Hc').
  destruct (pid a) eqn:Ea; [done|].
  destruct l1 as [|a' l1]; simpl in *.
  - destruct Hc as [Hn _]. destruct h as [[s z] [p|]]; [done|].
    exfalso. by apply Hn.
  - destruct Hc as [Hn _]. destruct a' as [[s z] [p|]]; [done|].
    exfalso. by apply Hn.
Qed.

Lemma owned_cons_free (b : block) (l : list block) :
  pid b = None → owned (b :: l) = owned l.
Proof.
  intros Hb. unfold owned. apply filter_cons_False. intros H. by apply H.
Qed.

Lemma owned_cons_owned (b : block) (l : list block) :
  pid b ≠ None → owned (b :: l) = b :: owned l.
Proof. intros Hb. unfold owned. by apply filter_cons_True. Qed.

Lemma owned_coalesce (l : list block) : owned (coalesce l) = owned l.
Proof.
  induction l as [|b l IH]; [done|]. rewrite coalesce_cons.
  destruct (pid b) as [p|] eqn:Eb.
  - rewrite !owned_cons_owned by (by rewrite Eb). by rewrite IH.
  - rewrite (owned_cons_free b l Eb), <- IH.
    destruct (coalesce l) as [|[[s z] [q|]] r].
    + by apply owned_cons_free.
    + by apply owned_cons_free.
    + by rewrite !owned_cons_free.
Qed.

Lemma owned_relabel (process_id : Z) (l : list block) :
  owned (relabel process_id l)
  = filter (λ b, pid b ≠ Some process_id) (owned l).
Proof.
  induction l as [|b l IH]; [done|].
  change (relabel process_id (b :: l))
    with ((if eq_pid (pid b) process_id
           then (start b, size b, None) else (start b, size b, pid b))
          :: relabel process_id l).
  destruct b as [[s z] [p|]]; simpl.
  - destruct (p =? process_id) eqn:E.
    + apply Z.eqb_eq in E. subst p.
      rewrite owned_cons_free by done. rewrite owned_cons_owned by done.
      rewrite filter_cons_False by (intros H; by apply H). done.
    + apply Z.eqb_neq in E.
      rewrite !owned_cons_owned by done.
      rewrite filter_cons_True by (simpl; congruence). by rewrite IH.
  - by rewrite !owned_cons_free.
Qed.

Lemma session_invariant (memory_size : Z) (ops : list op) (s : t) :
  Forall positive_request ops → run (init memory_size) ops = Ok s →
  invariant s.
Proof.
  intros Hops Hrun.
  destruct (dynamic_run_invariant (init memory_size) ops
              (init_invariant memory_size) Hops) as (s0 & Hrun0 & Hinv & _).
  rewrite Hrun in Hrun0. by injection Hrun0 as <-.
Qed.

Lemma allocate_deallocate_invariant
    (self s' : t) (process_id sz : Z) (strategy : string) (r : bool) :
  0 < sz → invariant self →
  Forall (λ b, pid b ≠ Some process_id) (memory self) →
  allocate self process_id sz strategy = Ok (r, s') →
  deallocate s' process_id = Ok self.
Proof.
  intros Hsz Hinv Hfresh Ha.
  destruct (allocate_invariant self process_id sz strategy Hsz Hinv)
    as (r0 & s0 & Ha0 & Hinv' & Hms).
  rewrite Ha in Ha0. injection Ha0 as <- <-.
  rewrite deallocate_ascending by apply Hinv'.
  destruct r.
  - destruct (allocate_true_inv _ _ _ _ _ Ha) as [idx Hfind].
    destruct (allocate_shape self process_id sz idx strategy Hsz Hinv Hfind)
      as (l1 & b & l2 & Hmem & _ & Hfree & Hge & Ha1).
    rewrite Ha in Ha1. injection Ha1 as ->. simpl.
    destruct Hinv as (_ & _ & Hc & _). rewrite Hmem in Hc, Hfresh.
    apply coalesced_middle in Hc as [Hc1 Hc2].
    apply Forall_app in Hfresh as [Hf1 Hf2]. apply Forall_cons in Hf2 as [_ Hf2].
    rewrite relabel_app, (relabel_absent _ l1 Hf1).
    assert (coalesce (relabel process_id
              ((start b, sz, Some process_id)
               :: (if size b - sz =? 0 then l2
                   else (start b + sz, size b - sz, None) :: l2)))
            = b :: l2) as Hco.
    { rewrite relabel_cons_own. destruct (size b - sz =? 0) eqn:E.
      - apply Z.eqb_eq in E. rewrite (relabel_absent _ l2 Hf2).
        replace sz with (size b) by lia. rewrite <- (free_block_eq b Hfree).
        by apply coalesce_coalesced.
      - rewrite relabel_absent by (constructor; done).
        rewrite coalesce_two_free.
        replace (sz + (size b - sz)) with (size b) by lia.
        rewrite <- (free_block_eq b Hfree). by apply coalesce_coalesced. }
    rewrite (coalesce_prefix l1 _ l2 b Hco Hc1).
    destruct self as [ms mem]. simpl in *. by rewrite Hmem.
  - apply allocate_false_inv in Ha as Hnone.
    unfold allocate in Ha. rewrite Hnone in Ha. injection Ha as <-.
    destruct Hinv as (_ & _ & Hc & _).
    rewrite relabel_absent by done. rewrite coalesce_coalesced by done.
    by destruct self.
Qed.

End dynamic_more.

(** X13. Dynamic allocation, in every state of a session of
    deallocations and positive-size allocations, for a positive request
    under one of the three strategies: [allocate] returns [True] when some
    free block is at least as large as the request, and returns [False]
    with the state unchanged when none is; it never raises. *)
Theorem dynamic_allocate_succeeds_iff_fits
    (memory_size : Z) (ops : list Dynamic.op) (s : Dynamic.t)
    (process_id sz : Z) (strategy : string) :
  Forall Dynamic.positive_request ops →
  Dynamic.run (Dynamic.init memory_size) ops = Ok s →
  0 < sz → strategy ∈ ["first_fit"; "best_fit"; "worst_fit"] →
  ((∃ i, DynamicFit.fit_at (Dynamic.memory s) sz i) →
   ∃ s', Dynamic.allocate s process_id sz strategy = Ok (true, s'))
  ∧ ((∀ i, ¬ DynamicFit.fit_at (Dynamic.memory s) sz i) →
     Dynamic.allocate s process_id sz strategy = Ok (false, s)).
Proof.
  intros Hops Hrun Hsz Hs.
  pose proof (session_invariant _ _ _ Hops Hrun) as Hinv.
  destruct (Dynamic._find_block s sz strategy) as [idx|] eqn:Hfind.
  - destruct (allocate_shape s process_id sz idx strategy Hsz Hinv Hfind)
      as (l1 & b & l2 & Hmem & _ & Hfree & Hge & Ha).
    split; [intros _; by eexists|].
    intros Hno. exfalso. apply (Hno (length l1)). exists b.
    split; [rewrite Hmem; by apply list_lookup_middle|done].
  - split.
    + intros [i Hi]. exfalso. by apply (find_block_None s sz strategy Hs Hfind i).
    + intros _. unfold Dynamic.allocate. by rewrite Hfind.
Qed.

Lemma dynamic_allocate_succeeds_iff_fits_witness :
  let ops := [Dynamic.Allocate 1 30 "first_fit"; Dynamic.Allocate 2 30 "first_fit";
              Dynamic.Deallocate 1] in
  let s := Dynamic.mk 100 [(0, 30, None); (30, 30, Some 2); (60, 40, None)] in
  Forall Dynamic.positive_request ops ∧
  Dynamic.run (Dynamic.init 100) ops = Ok s ∧
  0 < 41 ∧ ("best_fit" ∈ ["first_fit"; "best_fit"; "worst_fit"]) ∧
  (∀ i, ¬ DynamicFit.fit_at (Dynamic.memory s) 41 i) ∧
  Dynamic.allocate s 3 41 "best_fit" = Ok (false, s).
Proof.
  intros ops s.
  assert (Forall Dynamic.positive_request ops) as Hops
    by (repeat constructor; simpl; lia).
  assert (Dynamic.run (Dynamic.init 100) ops = Ok s) as Hrun
    by (vm_compute; reflexivity).
  assert ("best_fit" ∈ ["first_fit"; "best_fit"; "worst_fit"]) as Hs
    by (right; left).
  assert (∀ i, ¬ DynamicFit.fit_at (Dynamic.memory s) 41 i) as Hno.
  { intros i (b & Hb & Hp & Hz). simpl in Hb.
    destruct i as [|[|[|i]]]; simpl in Hb; [| | |done];
      injection Hb as <-; unfold Dynamic.size, Dynamic.pid in *; simpl in *;
      (lia || done). }
  split; [exact Hops|]. split; [exact Hrun|]. split; [lia|]. split; [exact Hs|].
  split; [exact Hno|].
  exact (proj2 (dynamic_allocate_succeeds_iff_fits 100 ops s 3 41 "best_fit"
                  Hops Hrun ltac:(lia) Hs) Hno).
Defined.

(** X14. Dynamic allocation, in every state of such a session and for a
    positive request: a successful [allocate] picked one free block at
    least as large as the request; the new owned block starts where that
    block started and has exactly the requested size; what is left of the
    block, if anything, follows it as a free block; and every other block,
    like the memory size, is unchanged. *)
Theorem dynamic_allocate_places_at_block_start
    (memory_size : Z) (ops : list Dynamic.op) (s s' : Dynamic.t)
    (process_id sz : Z) (strategy : string) :
  Forall Dynamic.positive_request ops →
  Dynamic.run (Dynamic.init memory_size) ops = Ok s →
  0 < sz →
  Dynamic.allocate s process_id sz strategy = Ok (true, s') →
  ∃ before b after,
    Dynamic.memory s = before ++ b :: after ∧
    Dynamic.pid b = None ∧ sz ≤ Dynamic.size b ∧
    Dynamic.memory_size s' = Dynamic.memory_size s ∧
    Dynamic.memory s'
    = before ++ (Dynamic.start b, sz, Some process_id)
        :: (if decide (Dynamic.size b = sz) then after
            else (Dynamic.start b + sz, Dynamic.size b - sz, None) :: after).
Proof.
  intros Hops Hrun Hsz Ha.
  pose proof (session_invariant _ _ _ Hops Hrun) as Hinv.
  destruct (allocate_true_inv _ _ _ _ _ Ha) as [idx Hfind].
  destruct (allocate_shape s process_id sz idx strategy Hsz Hinv Hfind)
    as (l1 & b & l2 & Hmem & _ & Hfree & Hge & Ha1).
  rewrite Ha in Ha1. injection Ha1 as ->.
  exists l1, b, l2. split; [done|]. split; [done|]. split; [done|].
  split; [done|]. simpl. do 2 f_equal.
  destruct (Dynamic.size b - sz =? 0) eqn:E.
  - apply Z.eqb_eq in E. rewrite decide_True; [done|lia].
  - apply Z.eqb_neq in E. rewrite decide_False; [done|lia].
Qed.

Lemma dynamic_allocate_places_at_block_start_witness :
  let ops := [Dynamic.Allocate 1 30 "first_fit"; Dynamic.Allocate 2 30 "first_fit";
              Dynamic.Deallocate 1] in
  let s := Dynamic.mk 100 [(0, 30, None); (30, 30, Some 2); (60, 40, None)] in
  let s' := Dynamic.mk 100 [(0, 30, None); (30, 30, Some 2); (60, 10, Some 3);
                            (70, 30, None)] in
  Forall Dynamic.positive_request ops ∧
  Dynamic.run (Dynamic.init 100) ops = Ok s ∧
  0 < 10 ∧
  Dynamic.allocate s 3 10 "worst_fit" = Ok (true, s') ∧
  ∃ before b after,
    Dynamic.memory s = before ++ b :: after ∧
    Dynamic.pid b = None ∧ 10 ≤ Dynamic.size b ∧
    Dynamic.memory_size s' = Dynamic.memory_size s ∧
    Dynamic.memory s'
    = before ++ (Dynamic.start b, 10, Some 3)
        :: (if decide (Dynamic.size b = 10) then after
            else (Dynamic.start b + 10, Dynamic.size b - 10, None) :: after).
Proof.
  intros ops s s'.
  assert (Forall Dynamic.positive_request ops) as Hops
    by (repeat constructor; simpl; lia).
  assert (Dynamic.run (Dynamic.init 100) ops = Ok s) as Hrun
    by (vm_compute; reflexivity).
  assert (Dynamic.allocate s 3 10 "worst_fit" = Ok (true, s')) as Ha
    by (vm_compute; reflexivity).
  split; [exact Hops|]. split; [exact Hrun|]. split; [lia|]. split; [exact Ha|].
  exact (dynamic_allocate_places_at_block_start 100 ops s s' 3 10 "worst_fit"
           Hops Hrun ltac:(lia) Ha).
Defined.

(** X15. Dynamic allocation round trip: in every state of such a session,
    for a process that owns no block and a positive request, [allocate]
    under any strategy string, whatever its outcome, followed by
    [deallocate] of the same process gives back the state as it was: the
    split block is merged again. *)
Theorem dynamic_allocate_deallocate_restores
    (memory_size : Z) (ops : list Dynamic.op) (s s' : Dynamic.t)
    (process_id sz : Z) (strategy : string) (r : bool) :
  Forall Dynamic.positive_request ops →
  Dynamic.run (Dynamic.init memory_size) ops = Ok s →
  Forall (λ b, Dynamic.pid b ≠ Some process_id) (Dynamic.memory s) →
  0 < sz →
  Dynamic.allocate s process_id sz strategy = Ok (r, s') →
  Dynamic.deallocate s' process_id = Ok s.
Proof.
  intros Hops Hrun Hfresh Hsz Ha.
  pose proof (session_invariant _ _ _ Hops Hrun) as Hinv.
  by eapply allocate_deallocate_invariant.
Qed.

Lemma dynamic_allocate_deallocate_restores_witness :
  let ops := [Dynamic.Allocate 1 30 "first_fit"; Dynamic.Allocate 2 30 "first_fit";
              Dynamic.Deallocate 1] in
  let s := Dynamic.mk 100 [(0, 30, None); (30, 30, Some 2); (60, 40, None)] in
  let s' := Dynamic.mk 100 [(0, 10, Some 3); (10, 20, None); (30, 30, Some 2);
                            (60, 40, None)] in
  Forall Dynamic.positive_request ops ∧
  Dynamic.run (Dynamic.init 100) ops = Ok s ∧
  Forall (λ b, Dynamic.pid b ≠ Some 3) (Dynamic.memory s) ∧
  0 < 10 ∧
  Dynamic.allocate s 3 10 "best_fit" = Ok (true, s') ∧
  Dynamic.deallocate s' 3 = Ok s.
Proof.
  intros ops s s'.
  assert (Forall Dynamic.positive_request ops) as Hops
    by (repeat constructor; simpl; lia).
  assert (Dynamic.run (Dynamic.init 100) ops = Ok s) as Hrun
    by (vm_compute; reflexivity).
  assert (Forall (λ b, Dynamic.pid b ≠ Some 3) (Dynamic.memory s)) as Hfresh
    by (repeat constructor; done).
  assert (Dynamic.allocate s 3 10 "best_fit" = Ok (true, s')) as Ha
    by (vm_compute; reflexivity).
  split; [exact Hops|]. split; [exact Hrun|]. split; [exact Hfresh|].
  split; [lia|]. split; [exact Ha|].
  exact (dynamic_allocate_deallocate_restores 100 ops s s' 3 10 "best_fit" true
           Hops Hrun Hfresh ltac:(lia) Ha).
Defined.

(** X16. Dynamic allocation, in every state of such a session:
    [deallocate] leaves no block owned by the process and keeps the owned
    blocks of every other process exactly, start, size and owner, in the
    same order; the memory size is unchanged. *)
Theorem dynamic_deallocate_keeps_other_blocks
    (memory_size : Z) (ops : list Dynamic.op) (s : Dynamic.t) (process_id : Z) :
  Forall Dynamic.positive_request ops →
  Dynamic.run (Dynamic.init memory_size) ops = Ok s →
  ∃ s', Dynamic.deallocate s process_id = Ok s' ∧
    Dynamic.memory_size s' = Dynamic.memory_size s ∧
    DynamicFit.owned (Dynamic.memory s')
    = filter (λ b, Dynamic.pid b ≠ Some process_id)
             (DynamicFit.owned (Dynamic.memory s)) ∧
    Forall (λ b, Dynamic.pid b ≠ Some process_id) (Dynamic.memory s').
Proof.
  intros Hops Hrun.
  pose proof (session_invariant _ _ _ Hops Hrun) as Hinv.
  eexists. split; [apply deallocate_ascending, Hinv|]. simpl.
  split; [done|].
  assert (DynamicFit.owned (Dynamic.coalesce (Dynamic.relabel process_id (Dynamic.memory s)))
          = filter (λ b, Dynamic.pid b ≠ Some process_id)
                   (DynamicFit.owned (Dynamic.memory s))) as Hown
    by (by rewrite owned_coalesce, owned_relabel).
  split; [done|].
  apply Forall_forall. intros b Hb Hp.
  assert (b ∈ DynamicFit.owned
                (Dynamic.coalesce (Dynamic.relabel process_id (Dynamic.memory s))))
    as Hin by (apply list_elem_of_filter; split; [congruence|done]).
  rewrite Hown in Hin. apply list_elem_of_filter in Hin as [Hne _]. done.
Qed.

Lemma dynamic_deallocate_keeps_other_blocks_witness :
  let ops := [Dynamic.Allocate 1 30 "first_fit"; Dynamic.Allocate 2 30 "first_fit";
              Dynamic.Allocate 1 20 "first_fit"] in
  let s := Dynamic.mk 100 [(0, 30, Some 1); (30, 30, Some 2); (60, 20, Some 1);
                           (80, 20, None)] in
  Forall Dynamic.positive_request ops ∧
  Dynamic.run (Dynamic.init 100) ops = Ok s ∧
  ∃ s', Dynamic.deallocate s 1 = Ok s' ∧
    Dynamic.memory_size s' = Dynamic.memory_size s ∧
    DynamicFit.owned (Dynamic.memory s')
    = filter (λ b, Dynamic.pid b ≠ Some 1) (DynamicFit.owned (Dynamic.memory s)) ∧
    Forall (λ b, Dynamic.pid b ≠ Some 1) (Dynamic.memory s').
Proof.
  intros ops s.
  assert (Forall Dynamic.positive_request ops) as Hops
    by (repeat constructor; simpl; lia).
  assert (Dynamic.run (Dynamic.init 100) ops = Ok s) as Hrun
    by (vm_compute; reflexivity).
  split; [exact Hops|]. split; [exact Hrun|].
  exact (dynamic_deallocate_keeps_other_blocks 100 ops s 1 Hops Hrun).
Defined.

(** ** Buddy system: rounding and bucket choice *)

Section buddy_more.
Import Buddy BuddyFit.

Lemma bit_length_pow2_pred (k : Z) : 0 ≤ k → bit_length (2 ^ k - 1) = k.
Proof.
  intros Hk. unfold bit_length. destruct (decide (k = 0)) as [->|Hne]; [done|].
  assert (1 < 2 ^ k) by (apply Z.pow_gt_1; lia).
  destruct (2 ^ k - 1 =? 0) eqn:E; [lia|].
  rewrite Z.abs_eq by lia.
  replace (2 ^ k - 1) with (Z.pred (2 ^ k)) by lia.
  rewrite Z.log2_pred_pow2 by lia. lia.
Qed.

Lemma next_power_of_two_idempotent (x : Z) :
  _next_power_of_two (_next_power_of_two x) = _next_power_of_two x.
Proof.
  rewrite (next_power_of_two_pow x). rewrite next_power_of_two_pow.
  by rewrite bit_length_pow2_pred by apply bit_length_nonneg.
Qed.

Lemma next_power_of_two_ge (x : Z) : x ≤ _next_power_of_two x.
Proof.
  destruct (decide (1 ≤ x)) as [Hx|Hx].
  - destruct (next_power_of_two_least x Hx) as (k & _ & -> & Hle & _). done.
  - pose proof (next_power_of_two_pos x). lia.
Qed.

Lemma next_power_of_two_nonpos (x : Z) : x ≤ 0 → 2 ≤ _next_power_of_two x.
Proof.
  intros Hx. rewrite next_power_of_two_pow. unfold bit_length.
  destruct (x - 1 =? 0) eqn:E; [lia|].
  pose proof (Z.log2_nonneg (Z.abs (x - 1))) as Hl.
  replace 2 with (2 ^ 1) at 1 by done. apply Z.pow_le_mono_r; lia.
Qed.

Lemma split_exact (fuel : nat) (address sz : Z) (fb : gmap Z (list Z)) :
  split fuel address sz sz fb = Ok fb.
Proof.
  destruct fuel; simpl; by rewrite Z.gtb_ltb, Z.ltb_irrefl.
Qed.

#[local] Arguments Buddy.split : simpl never.

Lemma scan_skip (self : t) (sz : Z) (todo : list Z) :
  (∀ k, k ∈ todo → is_Some (free_blocks self !! k) ∧
                   ¬ suitable (free_blocks self) sz k) →
  scan self sz todo = Ok (None, self).
Proof.
  induction todo as [|cs todo IH]; intros Hno; simpl; [done|].
  destruct (Hno cs ltac:(left)) as [[bucket Hb] Hns]. rewrite Hb.
  assert ((if cs >=? sz then Ok (negb (bool_decide (bucket = [])))
           else Ok false) = @Ok bool false) as ->.
  { destruct (cs >=? sz) eqn:E; [|done]. destruct bucket as [|a bucket]; [done|].
    exfalso. apply Hns. split; [lia|]. by exists a, bucket. }
  simpl. apply IH. intros k Hk. apply Hno. by right.
Qed.

Lemma scan_take (self : t) (sz k address : Z) (bucket before after : list Z) :
  1 ≤ sz →
  (∀ k', k' ∈ before → is_Some (free_blocks self !! k') ∧
                       ¬ suitable (free_blocks self) sz k') →
  sz ≤ k → free_blocks self !! k = Some (address :: bucket) →
  ∃ fb', scan self sz (before ++ k :: after) = Ok (Some address, mk (size self) fb')
    ∧ (k = sz → fb' = taken (free_blocks self) k bucket).
Proof.
  intros Hsz Hbefore Hk Hb. induction before as [|cs before IH]; simpl.
  - rewrite Hb. destruct (k >=? sz) eqn:E; [|lia]. simpl.
    match goal with |- context [split ?f ?a ?c ?s ?m] =>
      destruct (split_total f a c s m Hsz (pow2_fuel _)) as [fb' Hsplit];
      rewrite Hsplit end.
    simpl. exists fb'. split; [done|]. intros ->.
    rewrite split_exact in Hsplit.
    injection Hsplit as <-. unfold taken.
    destruct bucket as [|a bucket]; simpl.
    + by rewrite delete_insert_eq.
    + done.
  - destruct (Hbefore cs ltac:(left)) as [[bucket' Hb'] Hns]. rewrite Hb'.
    assert ((if cs >=? sz then Ok (negb (bool_decide (bucket' = [])))
             else Ok false) = @Ok bool false) as ->.
    { destruct (cs >=? sz) eqn:E; [|done]. destruct bucket' as [|a' bucket']; [done|].
      exfalso. apply Hns. split; [lia|]. by exists a', bucket'. }
    simpl. apply IH. intros k' Hk'. apply Hbefore. by right.
Qed.

Lemma sorted_keys_elem_iff (fb : gmap Z (list Z)) (k : Z) :
  k ∈ sorted_keys fb ↔ is_Some (fb !! k).
Proof.
  split; [apply sorted_keys_elem|]. intros [bucket Hb].
  unfold sorted_keys. rewrite merge_sort_Permutation.
  apply list_elem_of_fmap. exists (k, bucket). split; [done|].
  by apply elem_of_map_to_list.
Qed.

Lemma sorted_keys_before (fb : gmap Z (list Z)) (k : Z) (before after : list Z) :
  sorted_keys fb = before ++ k :: after → ∀ k', k' ∈ before → k' < k.
Proof.
  intros Hsplit k' Hk'.
  assert (StronglySorted Z.le (sorted_keys fb)) as Hs.
  { unfold sorted_keys. apply StronglySorted_merge_sort; apply _. }
  assert (NoDup (sorted_keys fb)) as Hnd.
  { unfold sorted_keys. rewrite merge_sort_Permutation.
    apply NoDup_fst_map_to_list. }
  rewrite Hsplit in Hs, Hnd.
  assert (k' ≤ k) by (eapply StronglySorted_app_1_elem_of; [done..|left]).
  apply NoDup_app in Hnd as (_ & Hdis & _).
  assert (k' ≠ k) by (intros ->; apply (Hdis k Hk'); left).
  lia.
Qed.

End buddy_more.

(** X17. Buddy system rounding, for every integer [x]: the result is at
    least 1 and at least [x], is left unchanged by rounding it again, and
    is at least 2 when [x] is zero or negative.  So [allocate] and
    [deallocate] behave the same whether they are given the requested size
    or the rounded one. *)
Theorem buddy_rounding_is_stable (x : Z) :
  1 ≤ Buddy._next_power_of_two x ∧
  x ≤ Buddy._next_power_of_two x ∧
  Buddy._next_power_of_two (Buddy._next_power_of_two x)
  = Buddy._next_power_of_two x ∧
  (x ≤ 0 → 2 ≤ Buddy._next_power_of_two x) ∧
  (∀ self process_id,
     Buddy.allocate self process_id (Buddy._next_power_of_two x)
     = Buddy.allocate self process_id x) ∧
  (∀ self address,
     Buddy.deallocate self address (Buddy._next_power_of_two x)
     = Buddy.deallocate self address x).
Proof.
  split; [apply next_power_of_two_pos|].
  split; [apply next_power_of_two_ge|].
  split; [apply next_power_of_two_idempotent|].
  split; [apply next_power_of_two_nonpos|].
  split.
  - intros self process_id. unfold Buddy.allocate.
    by rewrite next_power_of_two_idempotent.
  - intros self address. unfold Buddy.deallocate.
    by rewrite next_power_of_two_idempotent.
Qed.

Lemma buddy_rounding_is_stable_witness :
  0 ≤ 0 ∧ 2 ≤ Buddy._next_power_of_two 0.
Proof.
  split; [lia|].
  apply (proj1 (proj2 (proj2 (proj2 (buddy_rounding_is_stable 0))))). lia.
Defined.

(** X18. Buddy system [allocate] never raises and serves a request from
    the smallest bucket that can: when no bucket of size at least the
    rounded request lists an address it returns no address and the state
    unchanged; otherwise it returns the first address of the smallest such
    bucket, and when that bucket has exactly the rounded size nothing is
    split: the address is taken out and the bucket is dropped if that
    leaves it empty. *)
Theorem buddy_allocate_takes_smallest_bucket
    (self : Buddy.t) (process_id sz : Z) :
  let rounded := Buddy._next_power_of_two sz in
  ((∀ k, ¬ BuddyFit.suitable (Buddy.free_blocks self) rounded k) →
   Buddy.allocate self process_id sz = Ok (None, self))
  ∧ ∀ k address bucket,
      rounded ≤ k →
      Buddy.free_blocks self !! k = Some (address :: bucket) →
      (∀ k', BuddyFit.suitable (Buddy.free_blocks self) rounded k' → k ≤ k') →
      ∃ fb', Buddy.allocate self process_id sz
             = Ok (Some address, Buddy.mk (Buddy.size self) fb') ∧
        (k = rounded → fb' = BuddyFit.taken (Buddy.free_blocks self) k bucket).
Proof.
  intros rounded. split.
  - intros Hno. unfold Buddy.allocate. apply scan_skip.
    intros k Hk. split; [by apply sorted_keys_elem|apply Hno].
  - intros k address bucket Hk Hb Hleast. unfold Buddy.allocate. fold rounded.
    assert (k ∈ Buddy.sorted_keys (Buddy.free_blocks self)) as Hin
      by (apply sorted_keys_elem_iff; by eexists).
    apply list_elem_of_split in Hin as (before & after & Hsplit).
    rewrite Hsplit. apply scan_take; [apply next_power_of_two_pos| |done..].
    intros k' Hk'.
    split.
    + apply sorted_keys_elem. rewrite Hsplit. apply elem_of_app. by left.
    + intros Hsuit. apply Hleast in Hsuit.
      pose proof (sorted_keys_before _ _ _ _ Hsplit k' Hk'). lia.
Qed.

Lemma buddy_allocate_takes_smallest_bucket_witness :
  let self := Buddy.mk 64 {[ 8 := [8; 24]; 16 := [48]; 32 := [] ]} in
  Buddy._next_power_of_two 5 ≤ 8 ∧
  Buddy.free_blocks self !! 8 = Some [8; 24] ∧
  (∀ k', BuddyFit.suitable (Buddy.free_blocks self) (Buddy._next_power_of_two 5) k'
         → 8 ≤ k') ∧
  ∃ fb', Buddy.allocate self 1 5 = Ok (Some 8, Buddy.mk 64 fb') ∧
    (8 = Buddy._next_power_of_two 5 →
     fb' = BuddyFit.taken (Buddy.free_blocks self) 8 [24]).
Proof.
  intros self.
  assert (Buddy._next_power_of_two 5 ≤ 8) as Hk by (vm_compute; discriminate).
  assert (Buddy.free_blocks self !! 8 = Some [8; 24]) as Hb by reflexivity.
  assert (∀ k', BuddyFit.suitable (Buddy.free_blocks self)
                  (Buddy._next_power_of_two 5) k' → 8 ≤ k') as Hleast
    by (intros k' [Hle _]; exact Hle).
  split; [exact Hk|]. split; [exact Hb|]. split; [exact Hleast|].
  exact (proj2 (buddy_allocate_takes_smallest_bucket self 1 5) 8 8 [24] Hk Hb Hleast).
Defined.

(** ** Buddy system: the round trip in a memory of [2^n] units *)

Section buddy_round_trip.
Import Buddy BuddyFit.

Lemma split_step (fuel : nat) (address cs sz : Z) (fb : gmap Z (list Z)) :
  sz < cs →
  split (S fuel) address cs sz fb
  = split fuel address (cs / 2) sz
          (setdefault_append fb (cs / 2) (address + cs / 2)).
Proof. intros H. simpl. rewrite Z.gtb_ltb. by destruct (sz <? cs) eqn:E; [|lia]. Qed.

Lemma merge_miss (fuel : nat) (total address sz : Z) (fb : gmap Z (list Z)) :
  sz ≤ total → Z.lxor address sz ∉ default [] (fb !! sz) →
  merge (S fuel) total address sz fb = Ok (setdefault_append fb sz address).
Proof.
  intros H Hn. simpl. destruct (sz <=? total) eqn:E; [|lia].
  by rewrite bool_decide_eq_false_2.
Qed.

Lemma merge_hit (fuel : nat) (total address sz : Z) (fb : gmap Z (list Z))
    (bucket bucket' : list Z) :
  sz ≤ total → fb !! sz = Some bucket →
  Z.lxor address sz ∈ bucket →
  PyOps.remove (Z.lxor address sz) bucket = Ok bucket' →
  merge (S fuel) total address sz fb
  = merge fuel total (Z.min address (Z.lxor address sz)) (sz * 2)
          (<[sz := bucket']> fb).
Proof.
  intros H Hb Hin Hr. simpl. destruct (sz <=? total) eqn:E; [|lia].
  rewrite Hb. simpl. rewrite bool_decide_eq_true_2 by done. by rewrite Hr.
Qed.

Lemma allocate_init (total process_id sz : Z) :
  _next_power_of_two sz ≤ total →
  allocate (init total) process_id sz
  = let* fb := split (S (Z.to_nat (Z.log2 total))) 0 total
                     (_next_power_of_two sz) ∅ in
    Ok (Some 0, mk total fb).
Proof.
  intros Hle. unfold allocate, init, sorted_keys. simpl.
  rewrite map_to_list_singleton. simpl.
  rewrite lookup_singleton_eq. rewrite Z.geb_leb.
  destruct (_next_power_of_two sz <=? total) eqn:E; [|lia]. simpl.
  by rewrite delete_insert_eq, delete_singleton_eq.
Qed.

Lemma pow2_nat_inj (a b : nat) : 2 ^ Z.of_nat a = 2 ^ Z.of_nat b → a = b.
Proof. intros H. apply Z.pow_inj_r in H; lia. Qed.

Lemma pow2_nat_pos (a : nat) : 0 < 2 ^ Z.of_nat a.
Proof. apply Z.pow_pos_nonneg; lia. Qed.

Lemma pow2_nat_succ (a : nat) : 2 ^ Z.of_nat (S a) = 2 ^ Z.of_nat a * 2.
Proof. rewrite Nat2Z.inj_succ, Z.pow_succ_r by lia. lia. Qed.

Lemma pow2_nat_le (a b : nat) : (a ≤ b)%nat → 2 ^ Z.of_nat a ≤ 2 ^ Z.of_nat b.
Proof. intros H. apply Z.pow_le_mono_r; lia. Qed.

Lemma pow2_nat_lt (a b : nat) : (a < b)%nat → 2 ^ Z.of_nat a < 2 ^ Z.of_nat b.
Proof. intros H. apply Z.pow_lt_mono_r; lia. Qed.

(** The upper halves that splitting down from [2^(k+d)] to [2^k] lists. *)
Lemma split_pow (k d fuel : nat) (fb : gmap Z (list Z)) :
  (d ≤ fuel)%nat →
  (∀ j : nat, (k ≤ j < k + d)%nat → fb !! (2 ^ Z.of_nat j) = None) →
  split fuel 0 (2 ^ Z.of_nat (k + d)) (2 ^ Z.of_nat k) fb
  = Ok (foldr (λ (j : nat) m, <[2 ^ Z.of_nat j := [2 ^ Z.of_nat j]]> m) fb (seq k d)).
Proof.
  revert fuel fb. induction d as [|d IH]; intros fuel fb Hfuel Hnone.
  - rewrite Nat.add_0_r. apply split_exact.
  - destruct fuel as [|fuel]; [lia|].
    rewrite split_step by (apply pow2_nat_lt; lia).
    replace (k + S d)%nat with (S (k + d)) by lia.
    rewrite pow2_nat_succ, Z.div_mul by lia.
    unfold setdefault_append. rewrite (Hnone (k + d)%nat) by lia.
    replace (default [] None ++ [0 + 2 ^ Z.of_nat (k + d)])
      with [2 ^ Z.of_nat (k + d)] by (rewrite Z.add_0_l; done).
    rewrite IH; [|lia|].
    + rewrite seq_S, foldr_app. done.
    + intros j Hj. rewrite lookup_insert_ne; [apply Hnone; lia|].
      intros H. apply pow2_nat_inj in H. lia.
Qed.

Lemma halves_lookup (k d : nat) (fb : gmap Z (list Z)) :
  let m := foldr (λ (j : nat) m, <[2 ^ Z.of_nat j := [2 ^ Z.of_nat j]]> m) fb
                 (seq k d) in
  (∀ j : nat, (k ≤ j < k + d)%nat →
     m !! (2 ^ Z.of_nat j) = Some [2 ^ Z.of_nat j]) ∧
  (∀ key bucket, m !! key = Some bucket →
     (∃ j : nat, (k ≤ j < k + d)%nat ∧ key = 2 ^ Z.of_nat j)
     ∨ fb !! key = Some bucket).
Proof.
  revert k. induction d as [|d IH]; intros k; simpl.
  - split; [intros j Hj; lia|]. intros key bucket H. by right.
  - destruct (IH (S k)) as [Ha Hc]. split.
    + intros j Hj. destruct (decide (j = k)) as [->|Hne].
      * by rewrite lookup_insert_eq.
      * rewrite lookup_insert_ne by (intros H; apply pow2_nat_inj in H; lia).
        apply Ha. lia.
    + intros key bucket H. apply lookup_insert_Some in H as [[<- _]|[_ H]].
      * left. exists k. split; [lia|done].
      * apply Hc in H as [(j & Hj & ->)|H]; [|by right].
        left. exists j. split; [lia|done].
Qed.

Lemma merge_pow (n k e i fuel : nat) (fb : gmap Z (list Z)) :
  (k + i + e = n)%nat → (e < fuel)%nat → climbing n k i fb →
  ∃ fb', merge fuel (2 ^ Z.of_nat n) 0 (2 ^ Z.of_nat (k + i)) fb = Ok fb' ∧
    fb' !! (2 ^ Z.of_nat n) = Some [0] ∧
    (∀ j : nat, (k ≤ j < n)%nat → fb' !! (2 ^ Z.of_nat j) = Some []) ∧
    (∀ key bucket, fb' !! key = Some bucket →
       key = 2 ^ Z.of_nat n ∨ ∃ j : nat, (k ≤ j < n)%nat ∧ key = 2 ^ Z.of_nat j).
Proof.
  revert i fuel fb. induction e as [|e IH]; intros i fuel fb Hn Hfuel (H1 & H2 & H3).
  - destruct fuel as [|fuel]; [lia|]. replace (k + i)%nat with n by lia.
    assert (fb !! (2 ^ Z.of_nat n) = None) as Hnone.
    { destruct (fb !! (2 ^ Z.of_nat n)) as [bucket|] eqn:Hb; [|done].
      apply H3 in Hb as (j & Hj & Hb). apply pow2_nat_inj in Hb. lia. }
    rewrite merge_miss; [|lia|rewrite Hnone; apply not_elem_of_nil].
    eexists. split; [done|]. unfold setdefault_append. rewrite Hnone. simpl.
    split; [by rewrite lookup_insert_eq|]. split.
    + intros j Hj. rewrite lookup_insert_ne by (intros H; apply pow2_nat_inj in H; lia).
      apply H1. lia.
    + intros key bucket H. apply lookup_insert_Some in H as [[<- _]|[_ H]]; [by left|].
      right. by eapply H3.
  - destruct fuel as [|fuel]; [lia|].
    rewrite (merge_hit _ _ _ _ _ [2 ^ Z.of_nat (k + i)] []);
      [|apply pow2_nat_le; lia|apply H2; lia|rewrite Z.lxor_0_l; left
       |rewrite Z.lxor_0_l; simpl; by rewrite Z.eqb_refl].
    rewrite Z.lxor_0_l.
    rewrite Z.min_l by (pose proof (pow2_nat_pos (k + i)); lia).
    rewrite <- pow2_nat_succ. replace (S (k + i)) with (k + S i)%nat by lia.
    apply IH; [lia|lia|]. split; [|split].
    + intros j Hj. destruct (decide (j = (k + i)%nat)) as [->|Hne].
      * by rewrite lookup_insert_eq.
      * rewrite lookup_insert_ne by (intros H; apply pow2_nat_inj in H; lia).
        apply H1. lia.
    + intros j Hj. rewrite lookup_insert_ne by (intros H; apply pow2_nat_inj in H; lia).
      apply H2. lia.
    + intros key bucket H. apply lookup_insert_Some in H as [[<- _]|[_ H]].
      * exists (k + i)%nat. split; [lia|done].
      * by eapply H3.
Qed.

End buddy_round_trip.

(** X19. Buddy system round trip in a fresh memory of [2^n] units, for
    any request whose rounded size is [2^k] with [k <= n]: [allocate]
    returns address 0 and leaves the upper half [2^j] free in bucket [2^j]
    for each [k <= j < n]; [deallocate] of address 0 with the same size then
    merges all the way up: address 0 is listed in bucket [2^n] and every
    other bucket lists nothing.  The buckets [2^k .. 2^(n-1)] emptied on
    the way stay in the structure, so unless the request took the whole
    memory the state is not the one of construction. *)
Theorem buddy_round_trip_power_of_two (n k : nat) (process_id sz : Z) :
  (k ≤ n)%nat →
  Buddy._next_power_of_two sz = 2 ^ Z.of_nat k →
  ∃ s1 s2,
    Buddy.allocate (Buddy.init (2 ^ Z.of_nat n)) process_id sz = Ok (Some 0, s1) ∧
    (∀ j : nat, (k ≤ j < n)%nat →
       Buddy.free_blocks s1 !! (2 ^ Z.of_nat j) = Some [2 ^ Z.of_nat j]) ∧
    Buddy.deallocate s1 0 sz = Ok s2 ∧
    Buddy.size s2 = 2 ^ Z.of_nat n ∧
    Buddy.free_blocks s2 !! (2 ^ Z.of_nat n) = Some [0] ∧
    (∀ key, key ≠ 2 ^ Z.of_nat n → default [] (Buddy.free_blocks s2 !! key) = []) ∧
    (∀ j : nat, (k ≤ j < n)%nat →
       Buddy.free_blocks s2 !! (2 ^ Z.of_nat j) = Some []) ∧
    ((k < n)%nat → s2 ≠ Buddy.init (2 ^ Z.of_nat n)).
Proof.
  intros Hkn Hr.
  set (halves := foldr (λ (j : nat) m, <[2 ^ Z.of_nat j := [2 ^ Z.of_nat j]]> m)
                       (∅ : gmap Z (list Z)) (seq k (n - k))).
  assert (Z.to_nat (Z.log2 (2 ^ Z.of_nat n)) = n) as Hlog
    by (rewrite Z.log2_pow2 by lia; lia).
  assert (Buddy.allocate (Buddy.init (2 ^ Z.of_nat n)) process_id sz
          = Ok (Some 0, Buddy.mk (2 ^ Z.of_nat n) halves)) as Ha.
  { rewrite allocate_init by (rewrite Hr; by apply pow2_nat_le).
    rewrite Hr, Hlog.
    replace (2 ^ Z.of_nat n) with (2 ^ Z.of_nat (k + (n - k))) at 1
      by (f_equal; lia).
    rewrite (split_pow k (n - k) (S n) ∅); [done|lia|].
    intros j Hj. apply lookup_empty. }
  destruct (halves_lookup k (n - k) ∅) as [Hup Honly]. fold halves in Hup, Honly.
  assert (BuddyFit.climbing n k 0 halves) as Hclimb.
  { split; [intros j Hj; lia|]. split.
    - intros j Hj. apply Hup. lia.
    - intros key bucket H. apply Honly in H as [(j & Hj & ->)|H].
      + exists j. split; [lia|done].
      + by rewrite lookup_empty in H. }
  destruct (merge_pow n k (n - k) 0 (S n) halves ltac:(lia) ltac:(lia) Hclimb)
    as (fb' & Hm & Htop & Hempty & Hkeys).
  exists (Buddy.mk (2 ^ Z.of_nat n) halves), (Buddy.mk (2 ^ Z.of_nat n) fb').
  split; [done|]. split; [intros j Hj; apply Hup; lia|]. split.
  { unfold Buddy.deallocate. simpl Buddy.size. simpl Buddy.free_blocks.
    rewrite Hr, Hlog. rewrite Nat.add_0_r in Hm. by rewrite Hm. }
  split; [done|]. split; [done|]. split.
  { intros key Hkey. simpl. destruct (fb' !! key) as [bucket|] eqn:Hb; [|done].
    apply Hkeys in Hb as Hj. destruct Hj as [->|(j & Hj & ->)]; [done|].
    rewrite (Hempty j Hj) in Hb. by injection Hb as <-. }
  split; [done|].
  intros Hlt Heq. apply (f_equal (λ s, Buddy.free_blocks s !! (2 ^ Z.of_nat k))) in Heq.
  simpl in Heq. rewrite (Hempty k) in Heq by lia.
  rewrite lookup_singleton_ne in Heq; [done|].
  intros H. apply pow2_nat_inj in H. lia.
Qed.

Lemma buddy_round_trip_power_of_two_witness :
  (4 ≤ 10)%nat ∧
  Buddy._next_power_of_two 9 = 2 ^ Z.of_nat 4 ∧
  ∃ s1 s2,
    Buddy.allocate (Buddy.init (2 ^ Z.of_nat 10)) 1 9 = Ok (Some 0, s1) ∧
    (∀ j : nat, (4 ≤ j < 10)%nat →
       Buddy.free_blocks s1 !! (2 ^ Z.of_nat j) = Some [2 ^ Z.of_nat j]) ∧
    Buddy.deallocate s1 0 9 = Ok s2 ∧
    Buddy.size s2 = 2 ^ Z.of_nat 10 ∧
    Buddy.free_blocks s2 !! (2 ^ Z.of_nat 10) = Some [0] ∧
    (∀ key, key ≠ 2 ^ Z.of_nat 10 → default [] (Buddy.free_blocks s2 !! key) = []) ∧
    (∀ j : nat, (4 ≤ j < 10)%nat →
       Buddy.free_blocks s2 !! (2 ^ Z.of_nat j) = Some []) ∧
    ((4 < 10)%nat → s2 ≠ Buddy.init (2 ^ Z.of_nat 10)).
Proof.
  assert ((4 ≤ 10)%nat) as Hkn by lia.
  assert (Buddy._next_power_of_two 9 = 2 ^ Z.of_nat 4) as Hr by reflexivity.
  split; [exact Hkn|]. split; [exact Hr|].
  exact (buddy_round_trip_power_of_two 10 4 1 9 Hkn Hr).
Defined.

(** ** Requests of no size, sessions, and releasing everything *)

Section edge_more.

Lemma ceil_div_nonpos (a b : Z) : 0 < b → a ≤ 0 → (a + b - 1) / b ≤ 0.
Proof.
  intros Hb Ha.
  assert ((a + b - 1) / b < 1) by (apply Z.div_lt_upper_bound; lia). lia.
Qed.

Lemma unequal_run_total (self : Unequal.t) (ops : list Unequal.op) :
  length (Unequal.allocated self) = length (Unequal.partitions self) →
  ∃ s, Unequal.run self ops = Ok s ∧
    Unequal.partitions s = Unequal.partitions self ∧
    length (Unequal.allocated s) = length (Unequal.partitions s).
Proof.
  revert self. induction ops as [|o ops IH]; intros self Hlen; simpl.
  - by exists self.
  - destruct o as [p size strategy|p]; simpl.
    + destruct (unequal_allocate_cases self size Hlen p strategy)
        as [Ha|(i & _ & Ha)]; rewrite Ha; simpl.
      * by apply IH.
      * destruct (IH (Unequal.mk (Unequal.partitions self)
                        (<[i := Some p]> (Unequal.allocated self))))
          as (s & Hrun & Hps & Hpar); [simpl; by rewrite length_insert|].
        by exists s.
    + rewrite unequal_deallocate_spec. simpl.
      destruct (IH (Unequal.mk (Unequal.partitions self)
                      (cleared p (Unequal.allocated self))))
        as (s & Hrun & Hps & Hpar);
        [simpl; unfold cleared; by rewrite length_fmap|].
      by exists s.
Qed.

Lemma coalesce_all_free (b : Dynamic.block) (l : list Dynamic.block) :
  Forall Dynamic.is_free (b :: l) →
  Dynamic.coalesce (b :: l)
  = [(Dynamic.start b, foldr Z.add 0 (Dynamic.size <$> b :: l), None)].
Proof.
  revert b. induction l as [|c l IH]; intros b Hall.
  - apply Forall_cons in Hall as [Hb _]. rewrite coalesce_cons, Hb. simpl.
    rewrite Z.add_0_r. by rewrite <- (free_block_eq b Hb).
  - apply Forall_cons in Hall as [Hb Hall]. rewrite coalesce_cons, Hb.
    rewrite (IH c Hall). by rewrite (fmap_cons _ b).
Qed.

Lemma relabel_all_free (process_id : Z) (l : list Dynamic.block) :
  Forall (λ b, Dynamic.pid b = None ∨ Dynamic.pid b = Some process_id) l →
  Forall Dynamic.is_free (Dynamic.relabel process_id l).
Proof.
  induction 1 as [|b l Hb H IH]; [constructor|]. simpl. constructor; [|done].
  destruct b as [[s z] [p|]]; simpl in *; [|done].
  destruct Hb as [?|[= ->]]; [done|]. by rewrite Z.eqb_refl.
Qed.

End edge_more.

(** X20. A request of zero or negative size succeeds and changes nothing:
    for a positive partition size the fixed-partition [allocate], and for
    a positive page size the paging [allocate], return [True] with the
    allocator exactly as it was. *)
Theorem nonpositive_request_succeeds_vacuously :
  (∀ (self : Fixed.t) (process_id size : Z),
     0 < Fixed.partition_size self → size ≤ 0 →
     Fixed.allocate self process_id size = Ok (true, self))
  ∧ (∀ (self : Paging.t) (process_id process_size : Z),
     0 < Paging.page_size self → process_size ≤ 0 →
     Paging.allocate self process_id process_size = Ok (true, self)).
Proof.
  split.
  - intros self process_id size Hps Hsz.
    pose proof (ceil_div_nonpos size _ Hps Hsz) as Hn.
    pose proof (len_nonneg (Fixed.partitions self)) as Hlen.
    destruct (fixed_allocate_general self process_id size ltac:(lia)) as [Hhit _].
    rewrite (Hhit 0).
    + do 2 f_equal. unfold Fixed.tagged.
      replace (Z.to_nat (0 + _)) with 0%nat by lia.
      replace (Z.to_nat (_ / _)) with 0%nat by lia. simpl. by destruct self.
    + split; [split; [lia|split; [lia|intros j Hj; lia]]|].
      intros i' Hi' [Hneg _]. lia.
  - intros self process_id process_size Hps Hsz.
    pose proof (ceil_div_nonpos process_size _ Hps Hsz) as Hn.
    pose proof (len_nonneg (Paging.free_frames self)) as Hlen.
    destruct (allocate_cases self process_id process_size ltac:(lia))
      as [[Hlt _]|(_ & pt' & -> & Hpt')]; [lia|].
    do 2 f_equal. destruct self as [ms ps fr pt]. unfold Paging.with_page_table.
    simpl in *. f_equal. apply map_eq. intros [q page]. rewrite Hpt'.
    rewrite decide_False; [done|]. lia.
Qed.

Lemma nonpositive_request_succeeds_vacuously_witness :
  let fixed := Fixed.mk 30 10 [Some 1; None; Some 2] in
  let paging := Paging.mk 40 10 4 {[ (1, 0) := 0 ]} in
  (0 < Fixed.partition_size fixed ∧ 0 ≤ 0 ∧
   Fixed.allocate fixed 5 0 = Ok (true, fixed)) ∧
  (0 < Paging.page_size paging ∧ -3 ≤ 0 ∧
   Paging.allocate paging 5 (-3) = Ok (true, paging)).
Proof.
  intros fixed paging.
  destruct nonpositive_request_succeeds_vacuously as [Hf Hp].
  split.
  - split; [simpl; lia|]. split; [lia|]. apply Hf; simpl; lia.
  - split; [simpl; lia|]. split; [lia|]. apply Hp; simpl; lia.
Defined.

(** X21. Dynamic allocation with a non-empty memory: in every state of a
    session of deallocations and positive-size allocations in which all
    owned blocks belong to one process, [deallocate] of that process
    returns the engine to its initial state, a single free block that
    spans the memory. *)
Theorem dynamic_release_all_restores_initial
    (memory_size : Z) (ops : list Dynamic.op) (s : Dynamic.t) (process_id : Z) :
  0 < memory_size →
  Forall Dynamic.positive_request ops →
  Dynamic.run (Dynamic.init memory_size) ops = Ok s →
  Forall (λ b, Dynamic.pid b = None ∨ Dynamic.pid b = Some process_id)
         (Dynamic.memory s) →
  Dynamic.deallocate s process_id = Ok (Dynamic.init memory_size).
Proof.
  intros HM Hops Hrun Hall.
  destruct (dynamic_run_invariant (Dynamic.init memory_size) ops
              (init_invariant memory_size) Hops)
    as (s0 & Hrun0 & (Ht & Ha & _) & Hms).
  rewrite Hrun in Hrun0. injection Hrun0 as <-. simpl in Hms.
  rewrite deallocate_ascending by done.
  apply (relabel_tiles process_id) in Ht.
  apply relabel_all_free in Hall.
  destruct (Dynamic.relabel process_id (Dynamic.memory s)) as [|b l] eqn:E.
  - simpl in Ht. lia.
  - rewrite (coalesce_all_free b l Hall). destruct Ht as [Hb Ht].
    pose proof (tiles_sum _ _ _ Ht) as Hsum. rewrite Hms in *.
    unfold Dynamic.init. rewrite fmap_cons. simpl foldr. rewrite Hb.
    by replace (Dynamic.size b + foldr Z.add 0 (Dynamic.size <$> l))
      with memory_size by lia.
Qed.

Lemma dynamic_release_all_restores_initial_witness :
  let ops := [Dynamic.Allocate 1 30 "first_fit"; Dynamic.Allocate 2 30 "first_fit";
              Dynamic.Allocate 1 40 "best_fit"; Dynamic.Deallocate 2] in
  let s := Dynamic.mk 100 [(0, 30, Some 1); (30, 30, None); (60, 40, Some 1)] in
  0 < 100 ∧
  Forall Dynamic.positive_request ops ∧
  Dynamic.run (Dynamic.init 100) ops = Ok s ∧
  Forall (λ b, Dynamic.pid b = None ∨ Dynamic.pid b = Some 1) (Dynamic.memory s) ∧
  Dynamic.deallocate s 1 = Ok (Dynamic.init 100).
Proof.
  intros ops s.
  assert (Forall Dynamic.positive_request ops) as Hops
    by (repeat constructor; simpl; lia).
  assert (Dynamic.run (Dynamic.init 100) ops = Ok s) as Hrun
    by (vm_compute; reflexivity).
  assert (Forall (λ b, Dynamic.pid b = None ∨ Dynamic.pid b = Some 1)
                 (Dynamic.memory s)) as Hall
    by (repeat constructor; simpl; auto).
  split; [lia|]. split; [exact Hops|]. split; [exact Hrun|]. split; [exact Hall|].
  exact (dynamic_release_all_restores_initial 100 ops s 1 ltac:(lia) Hops Hrun Hall).
Defined.

(** X22. Unequal partitioning sessions: from the constructed state, every
    sequence of allocations, under any strategy strings, and of
    deallocations runs to the end without raising; the partition sizes are
    never changed, and the occupancy list keeps one slot per partition. *)
Theorem unequal_session_keeps_partitions
    (partitions : list Z) (ops : list Unequal.op) :
  ∃ s, Unequal.run (Unequal.init partitions) ops = Ok s ∧
    Unequal.partitions s = partitions ∧
    length (Unequal.allocated s) = length partitions.
Proof.
  destruct (unequal_run_total (Unequal.init partitions) ops
              (unequal_init_parallel partitions)) as (s & Hrun & Hps & Hlen).
  exists s. split; [done|]. split; [done|]. by rewrite Hlen, Hps.
Qed.
